(** * Connect6 decision core: a shallow embedding and its verified properties

    The development follows the TypeScript sources file by file:
    [types.ts], [core/game_state.ts], [core/rules.ts],
    [core/road_encoding.ts], [core/vcdt.ts], [core/rzop.ts],
    [core/evaluation.ts], [core/smart_defense.ts], [core/pvs_search.ts]
    and [core/mcts_ai_engine.ts].

    Conventions.
    - JavaScript numbers that only ever hold integers (coordinates, counters,
      depths, road codes, the integer-valued evaluation terms) are [Z].
    - Evaluation scores, time stamps and win rates are IEEE-754 binary64
      values, i.e. Rocq's primitive [float].
    - A function that can [throw] returns a [Result].
    - Module-level mutable tables of [pvs_search.ts] live in an explicit
      [EngineState] threaded through a state-and-exception monad. *)

From Stdlib Require Import String Ascii.
From Stdlib Require Import ZArith List Bool Lia.
From Stdlib Require Import Permutation Sorted.
From Stdlib Require Import DecimalString.
From Stdlib Require DecimalPos DecimalZ.
From Stdlib Require Import Floats.
Import ListNotations.
Set Warnings "-inexact-float,-register-all".
Open Scope Z_scope.

(* ===================================================================== *)
(** ** types.ts *)
(* ===================================================================== *)

Inductive Player : Type := BLACK | WHITE.

(** [Cell = 0 | 1 | 2]: 0 is empty, 1 a black stone, 2 a white stone. *)
Inductive Cell : Type := Empty | Black | White.

Definition BOARD_SIZE : Z := 19.

Record Position : Type := mkPos { pos_x : Z; pos_y : Z }.

Record Move : Type := mkMove { player : Player; positions : list Position }.

Inductive Outcome : Type := Won (p : Player) | DRAW.

Definition Board : Type := list (list Cell).

Record GameState : Type := mkState {
  board : Board;
  currentPlayer : Player;
  moveNumber : Z;
  lastMove : option Move;
  winner : option Outcome
}.

Record EvaluationWeights : Type := mkWeights {
  road_3_score : float;
  road_4_score : float;
  live4_score : float;
  live5_score : float;
  vcdt_bonus : float
}.

Record SearchConfig : Type := mkConfig {
  maxDepth : Z;
  timeLimitMs : float;
  useMultithreading : bool
}.

(** Everything that is thrown somewhere in the core. *)
Inductive Error : Type :=
| WrongPlayer (expected got : Player)
| WrongStoneCount (required actual : Z)
| OutOfBoard (x y : Z)
| Occupied (x y : Z)
| EmptyCandidates
| NoMctsMove
| OutOfFuel.

Inductive Result (A : Type) : Type :=
| Ok (a : A)
| Throw (e : Error).
Arguments Ok {A} a.
Arguments Throw {A} e.

Definition rbind {A B} (r : Result A) (k : A -> Result B) : Result B :=
  match r with
  | Ok a => k a
  | Throw e => Throw e
  end.

(* --------------------------------------------------------------------- *)
(** *** Equality tests *)

Definition player_eqb (p q : Player) : bool :=
  match p, q with
  | BLACK, BLACK | WHITE, WHITE => true
  | _, _ => false
  end.

Definition cell_eqb (c d : Cell) : bool :=
  match c, d with
  | Empty, Empty | Black, Black | White, White => true
  | _, _ => false
  end.

(** [a === b] on values read from the board ([None] is [undefined]). *)
Definition ocell_eqb (a b : option Cell) : bool :=
  match a, b with
  | Some c, Some d => cell_eqb c d
  | None, None => true
  | _, _ => false
  end.

Definition cellIs (o : option Cell) (c : Cell) : bool := ocell_eqb o (Some c).

Definition pos_eqb (p q : Position) : bool :=
  (pos_x p =? pos_x q) && (pos_y p =? pos_y q).

Definition stoneOf (p : Player) : Cell :=
  match p with BLACK => Black | WHITE => White end.

Definition otherPlayer (p : Player) : Player :=
  match p with BLACK => WHITE | WHITE => BLACK end.

(* --------------------------------------------------------------------- *)
(** *** Loops *)

(** [0, 1, ..., n-1], the index range of a counting [for] loop. *)
Definition range (n : Z) : list Z := map Z.of_nat (seq 0 (Z.to_nat n)).

(** A [for] loop whose body may [return]: the first iteration that returns
    decides. *)
Fixpoint firstSome {A B : Type} (f : A -> option B) (l : list A) : option B :=
  match l with
  | [] => None
  | a :: l' => match f a with
               | Some b => Some b
               | None => firstSome f l'
               end
  end.

(** [Array.prototype.sort] is stable; its comparator is consulted only for
    its sign.  [after a b] holds when the comparator asks for [a] to be
    placed behind [b] ([cmp(a, b) > 0]).  Insertion from the right is a
    stable sort, and for a comparator that is a weak order every stable
    sort returns the same array. *)
Fixpoint insertBy {A : Type} (after : A -> A -> bool) (a : A) (l : list A) : list A :=
  match l with
  | [] => [a]
  | b :: l' => if after a b then b :: insertBy after a l' else a :: l
  end.

Definition sortBy {A : Type} (after : A -> A -> bool) (l : list A) : list A :=
  fold_right (insertBy after) [] l.

(** A [Set<string>] of coordinate keys [`${x},${y}`], in insertion order. *)
Definition hasPos (l : list Position) (p : Position) : bool :=
  existsb (pos_eqb p) l.

(** [if (!marked.has(key)) { marked.add(key); result.push(p) }] *)
Definition pushNew (result : list Position) (p : Position) : list Position :=
  if hasPos result p then result else result ++ [p].

(* ===================================================================== *)
(** ** core/game_state.ts *)
(* ===================================================================== *)

Definition createEmptyBoard : Board :=
  repeat (repeat Empty (Z.to_nat BOARD_SIZE)) (Z.to_nat BOARD_SIZE).

Definition createInitialState : GameState :=
  {| board := createEmptyBoard;
     currentPlayer := BLACK;
     moveNumber := 0;
     lastMove := None;
     winner := None |}.

(** [board[y][x]]; [None] stands for [undefined] (an index outside the
    array).  On a 19x19 board every in-bounds read is [Some]. *)
Definition cellAt (b : Board) (x y : Z) : option Cell :=
  if (x <? 0) || (y <? 0) then None
  else match nth_error b (Z.to_nat y) with
       | Some row => nth_error row (Z.to_nat x)
       | None => None
       end.

Fixpoint updateNth {A : Type} (n : nat) (f : A -> A) (l : list A) : list A :=
  match l, n with
  | [], _ => []
  | a :: l', O => f a :: l'
  | a :: l', S n' => a :: updateNth n' f l'
  end.

(** [board[y][x] = v].  Every write in the core is to a cell that was read
    just before, so the index is in range; out of range nothing is written. *)
Definition setCell (b : Board) (x y : Z) (v : Cell) : Board :=
  if (x <? 0) || (y <? 0) then b
  else updateNth (Z.to_nat y) (updateNth (Z.to_nat x) (fun _ => v)) b.

(** States are immutable values here, so the deep copy is the identity. *)
Definition cloneState (s : GameState) : GameState :=
  {| board := map (fun row => row) (board s);
     currentPlayer := currentPlayer s;
     moveNumber := moveNumber s;
     lastMove := lastMove s;
     winner := winner s |}.

Definition isInsideBoard (p : Position) : bool :=
  (0 <=? pos_x p) && (pos_x p <? BOARD_SIZE) &&
  (0 <=? pos_y p) && (pos_y p <? BOARD_SIZE).

Definition wfBoard (b : Board) : Prop :=
  length b = Z.to_nat BOARD_SIZE /\
  Forall (fun row => length row = Z.to_nat BOARD_SIZE) b.

Definition wfBoardb (b : Board) : bool :=
  (length b =? Z.to_nat BOARD_SIZE)%nat &&
  forallb (fun row => (length row =? Z.to_nat BOARD_SIZE)%nat) b.

(* ===================================================================== *)
(** ** core/rules.ts *)
(* ===================================================================== *)

Definition DIRS : list (Z * Z) := [(1, 0); (0, 1); (1, 1); (1, -1)].

Definition getStonesToPlace (moveNumber : Z) (_player : Player) : Z :=
  if moveNumber =? 0 then 1 else 2.

Definition inBoard (x y : Z) : bool :=
  (0 <=? x) && (x <? BOARD_SIZE) && (0 <=? y) && (y <? BOARD_SIZE).

(** The [while] loop of [checkWinner]: extends the run from [(nx, ny)] in
    direction [(dx, dy)] as long as the cells equal [cell].  The loop leaves
    the board after at most 19 steps, which is what [fuel] is sized for. *)
Fixpoint countRun (fuel : nat) (b : Board) (cell : option Cell)
  (dx dy nx ny count : Z) : Z :=
  match fuel with
  | O => count
  | S fuel' =>
      if inBoard nx ny && ocell_eqb (cellAt b nx ny) cell
      then countRun fuel' b cell dx dy (nx + dx) (ny + dy) (count + 1)
      else count
  end.

Definition winnerAt (b : Board) (x y : Z) : option Player :=
  let cell := cellAt b x y in
  if cellIs cell Empty then None
  else
    firstSome
      (fun d : Z * Z =>
         let (dx, dy) := d in
         let count := countRun (Z.to_nat BOARD_SIZE) b cell dx dy (x + dx) (y + dy) 1 in
         if 6 <=? count
         then Some (if cellIs cell Black then BLACK else WHITE)
         else None)
      DIRS.

Definition hasEmptyCell (b : Board) : bool :=
  existsb (fun y => existsb (fun x => cellIs (cellAt b x y) Empty) (range BOARD_SIZE))
    (range BOARD_SIZE).

Definition checkWinner (s : GameState) : option Outcome :=
  let b := board s in
  match firstSome (fun y => firstSome (fun x => winnerAt b x y) (range BOARD_SIZE))
          (range BOARD_SIZE) with
  | Some p => Some (Won p)
  | None => if hasEmptyCell b then None else Some DRAW
  end.

(** Step 3 of [applyMoveWithWinner]: bounds and occupancy of every position,
    read from the board before any stone is written. *)
Fixpoint checkPositions (b : Board) (ps : list Position) : Result unit :=
  match ps with
  | [] => Ok tt
  | p :: ps' =>
      let x := pos_x p in
      let y := pos_y p in
      if (x <? 0) || (BOARD_SIZE <=? x) || (y <? 0) || (BOARD_SIZE <=? y)
      then Throw (OutOfBoard x y)
      else if negb (cellIs (cellAt b x y) Empty)
      then Throw (Occupied x y)
      else checkPositions b ps'
  end.

Definition placeStones (b : Board) (ps : list Position) (v : Cell) : Board :=
  fold_left (fun acc p => setCell acc (pos_x p) (pos_y p) v) ps b.

Definition applyMoveWithWinner (state : GameState) (move : Move) : Result GameState :=
  let next := cloneState state in
  if negb (player_eqb (player move) (currentPlayer state))
  then Throw (WrongPlayer (currentPlayer state) (player move))
  else
    let required := getStonesToPlace (moveNumber state) (player move) in
    if negb (Z.of_nat (length (positions move)) =? required)
    then Throw (WrongStoneCount required (Z.of_nat (length (positions move))))
    else
      let value := stoneOf (player move) in
      rbind (checkPositions (board next) (positions move)) (fun _ =>
        let next1 :=
          {| board := placeStones (board next) (positions move) value;
             currentPlayer := otherPlayer (player move);
             moveNumber := moveNumber next + 1;
             lastMove := Some move;
             winner := winner next |} in
        match checkWinner next1 with
        | Some w =>
            Ok {| board := board next1;
                  currentPlayer := currentPlayer next1;
                  moveNumber := moveNumber next1;
                  lastMove := lastMove next1;
                  winner := Some w |}
        | None => Ok next1
        end).

(** [applyMove] of [game_state.ts]: the unchecked variant. *)
Definition applyMove (state : GameState) (move : Move) : GameState :=
  let next := cloneState state in
  {| board := placeStones (board next) (positions move) (stoneOf (player move));
     currentPlayer := otherPlayer (player move);
     moveNumber := moveNumber next + 1;
     lastMove := Some move;
     winner := winner next |}.

(* ===================================================================== *)
(** ** core/road_encoding.ts *)
(* ===================================================================== *)

Record Road : Type := mkRoad { road_id : Z; cells : list Position }.

(** The inner [k] loop of [precomputeRoads]: the cells collected so far, or
    the empty array as soon as one cell leaves the board. *)
Fixpoint collectRoadCells (dir : Position) (x y : Z) (ks : list Z)
  (acc : list Position) : list Position :=
  match ks with
  | [] => acc
  | k :: ks' =>
      let nx := x + pos_x dir * k in
      let ny := y + pos_y dir * k in
      if (nx <? 0) || (ny <? 0) || (BOARD_SIZE <=? nx) || (BOARD_SIZE <=? ny)
      then []
      else collectRoadCells dir x y ks' (acc ++ [mkPos nx ny])
  end.

Definition roadDirections : list Position :=
  [mkPos 1 0; mkPos 0 1; mkPos 1 1; mkPos 1 (-1)].

Definition precomputeRoads : list Road :=
  fold_left
    (fun roads dir =>
       fold_left
         (fun roads y =>
            fold_left
              (fun roads x =>
                 let cs := collectRoadCells dir x y (range 6) [] in
                 if (length cs =? 6)%nat
                 then roads ++ [mkRoad (Z.of_nat (length roads)) cs]
                 else roads)
              (range BOARD_SIZE) roads)
         (range BOARD_SIZE) roads)
    roadDirections [].

Definition ALL_ROADS : list Road := precomputeRoads.

Definition getAllRoads : list Road := ALL_ROADS.

Definition cellAtPos (b : Board) (p : Position) : option Cell :=
  cellAt b (pos_x p) (pos_y p).

(** Two bits per cell: 00 empty, 01 black, 10 white. *)
Definition cellBits (c : option Cell) : Z :=
  if cellIs c Black then 1 else if cellIs c White then 2 else 0.

Fixpoint encodeCells (i : Z) (cs : list (option Cell)) (code : Z) : Z :=
  match cs with
  | [] => code
  | c :: cs' => encodeCells (i + 1) cs' (Z.lor code (Z.shiftl (cellBits c) (i * 2)))
  end.

Definition roadValues (state : GameState) (road : Road) : list (option Cell) :=
  map (cellAtPos (board state)) (cells road).

Definition encodeRoad (state : GameState) (road : Road) : Z :=
  encodeCells 0 (roadValues state road) 0.

Definition getAllRoadCodes (state : GameState) : list Z :=
  map (encodeRoad state) ALL_ROADS.

(** [cells.filter(c => c === v).length] *)
Definition countCells (v : Cell) (cs : list (option Cell)) : Z :=
  Z.of_nat (length (filter (fun c => cellIs c v) cs)).

Definition isHighValueRoadCell (state : GameState) (pos : Position)
  (minSameColor : Z) : bool :=
  existsb
    (fun road =>
       if negb (existsb (fun c => pos_eqb c pos) (cells road)) then false
       else
         let black := countCells Black (roadValues state road) in
         let white := countCells White (roadValues state road) in
         (minSameColor <=? black) || (minSameColor <=? white))
    ALL_ROADS.

(* ===================================================================== *)
(** ** core/vcdt.ts *)
(* ===================================================================== *)

Record VCDTThreat : Type := mkThreat {
  threat_positions : list Position;
  isWinning : bool;
  threatLevel : Z
}.

(** The empty cells of a road, in road order. *)
Definition roadEmpties (state : GameState) (road : Road) : list Position :=
  filter (fun p => cellIs (cellAtPos (board state) p) Empty) (cells road).

(** 1. One-stone wins: the empty cell of a road with five own stones and no
    enemy stone.  The [Set] of keys keeps the first occurrence of each cell. *)
Definition detectWinningMoves (state : GameState) (player : Player) : list Position :=
  let myVal := stoneOf player in
  let oppVal := stoneOf (otherPlayer player) in
  fold_left
    (fun winningCells road =>
       let vals := roadValues state road in
       let myCount := countCells myVal vals in
       let oppCount := countCells oppVal vals in
       if (oppCount =? 0) && (myCount =? 5)
       then fold_left pushNew (roadEmpties state road) winningCells
       else winningCells)
    getAllRoads [].

(** Unordered equality of two pairs of cells: what the canonical
    ["a|b"] keys of [segSet] and [pairSet] compare. *)
Definition samePair (a b : Position * Position) : bool :=
  (pos_eqb (fst a) (fst b) && pos_eqb (snd a) (snd b)) ||
  (pos_eqb (fst a) (snd b) && pos_eqb (snd a) (fst b)).

Definition hasPair (l : list (Position * Position)) (a : Position * Position) : bool :=
  existsb (samePair a) l.

(** The shared body of [detectLive4Segments] and
    [detectTwoStoneWinningPairs]: the two empty cells of every road with
    four own stones, two empties and no enemy stone, once per unordered
    pair. *)
Definition fourPlusTwoPairs (state : GameState) (player : Player)
  : list (Position * Position) :=
  let myVal := stoneOf player in
  let oppVal := stoneOf (otherPlayer player) in
  fold_left
    (fun pairs road =>
       let vals := roadValues state road in
       let myCount := countCells myVal vals in
       let oppCount := countCells oppVal vals in
       match roadEmpties state road with
       | [e1; e2] =>
           if (oppCount =? 0) && (myCount =? 4)
           then if hasPair pairs (e1, e2) then pairs else pairs ++ [(e1, e2)]
           else pairs
       | _ => pairs
       end)
    getAllRoads [].

(** 2. Live fours, one segment (the two empties) per road pattern. *)
Definition detectLive4Segments (state : GameState) (player : Player)
  : list (list Position) :=
  map (fun pr => [fst pr; snd pr]) (fourPlusTwoPairs state player).

(** 3. Pairs whose joint occupation makes six. *)
Definition detectTwoStoneWinningPairs (state : GameState) (player : Player)
  : list (Position * Position) :=
  fourPlusTwoPairs state player.

(** All [(l[i], l[j])] with [i < j], in the order of the two nested loops. *)
Fixpoint orderedPairs {A : Type} (l : list A) : list (A * A) :=
  match l with
  | [] => []
  | a :: l' => map (fun b => (a, b)) l' ++ orderedPairs l'
  end.

Definition detectVCDT (state : GameState) (player : Player) : list VCDTThreat :=
  let winningCells := detectWinningMoves state player in
  let live4Segments := detectLive4Segments state player in
  let twoStonePairs := detectTwoStoneWinningPairs state player in
  map (fun pos => mkThreat [pos] true 0) winningCells
  ++ map (fun pr => mkThreat [fst pr; snd pr] true 1) twoStonePairs
  ++ (if (2 <=? Z.of_nat (length winningCells))
      then map (fun pr => mkThreat [fst pr; snd pr] true 1) (orderedPairs winningCells)
      else [])
  ++ map (fun seg => mkThreat seg false 2) live4Segments.

Definition isLevel (winning : bool) (level : Z) (t : VCDTThreat) : bool :=
  Bool.eqb (isWinning t) winning && (threatLevel t =? level).

(* ===================================================================== *)
(** ** core/rzop.ts *)
(* ===================================================================== *)

(** All cells in row-major order ([for y] outside, [for x] inside). *)
Definition allPositions : list Position :=
  flat_map (fun y => map (fun x => mkPos x y) (range BOARD_SIZE)) (range BOARD_SIZE).

(** [-radius, ..., radius] *)
Definition offsetsOf (radius : Z) : list Z :=
  map (fun k => k - radius) (range (2 * radius + 1)).

Definition computeRelevantZones (state : GameState) (radius : Z) : list Position :=
  let b := board state in
  let occupied := filter (fun p => negb (cellIs (cellAtPos b p) Empty)) allPositions in
  match occupied with
  | [] =>
      let c := BOARD_SIZE / 2 in
      let base :=
        mkPos c c ::
        flat_map
          (fun d : Z * Z =>
             let nx := c + fst d in
             let ny := c + snd d in
             if (nx <? 0) || (ny <? 0) || (BOARD_SIZE <=? nx) || (BOARD_SIZE <=? ny)
             then [] else [mkPos nx ny])
          [(1, 0); (0, 1); (-1, 0); (0, -1)] in
      filter (fun p => cellIs (cellAtPos b p) Empty) base
  | _ =>
      fold_left
        (fun result p =>
           fold_left
             (fun result dy =>
                fold_left
                  (fun result dx =>
                     let nx := pos_x p + dx in
                     let ny := pos_y p + dy in
                     if (nx <? 0) || (ny <? 0) || (BOARD_SIZE <=? nx) || (BOARD_SIZE <=? ny)
                     then result
                     else if negb (cellIs (cellAt b nx ny) Empty) then result
                     else pushNew result (mkPos nx ny))
                  (offsetsOf radius) result)
             (offsetsOf radius) result)
        occupied []
  end.

(** The six cells of the window that starts at [(x, y)] and runs along
    [(dx, dy)]. *)
Definition windowCells (x y dx dy : Z) : list Position :=
  map (fun k => mkPos (x + dx * k) (y + dy * k)) (range 6).

(** One window of [findUrgentThreatBlocks]: the empties it contributes. *)
Definition urgentInWindow (state : GameState) (x y dx dy : Z) : list Position :=
  let myVal := stoneOf (currentPlayer state) in
  let oppVal := stoneOf (otherPlayer (currentPlayer state)) in
  let endX := x + dx * 5 in
  let endY := y + dy * 5 in
  if (endX <? 0) || (endY <? 0) || (BOARD_SIZE <=? endX) || (BOARD_SIZE <=? endY)
  then []
  else
    let cs := windowCells x y dx dy in
    let vals := map (cellAtPos (board state)) cs in
    let oppCount := countCells oppVal vals in
    let myCount := countCells myVal vals in
    let empties := filter (fun p => cellIs (cellAtPos (board state) p) Empty) cs in
    if 0 <? myCount then []
    else if (5 <=? oppCount) && (1 <=? Z.of_nat (length empties)) then empties
    else if (4 <=? oppCount) && (2 <=? Z.of_nat (length empties)) then empties
    else [].

Definition findUrgentThreatBlocks (state : GameState) : list Position :=
  fold_left
    (fun result (d : Z * Z) =>
       fold_left
         (fun result y =>
            fold_left
              (fun result x =>
                 fold_left pushNew (urgentInWindow state x y (fst d) (snd d)) result)
              (range BOARD_SIZE) result)
         (range BOARD_SIZE) result)
    DIRS [].

Definition isStrategicPosition (_state : GameState) (_pos : Position) : bool := true.

Definition isDeadLineCell (state : GameState) (pos : Position) : bool :=
  let b := board state in
  negb
    (existsb
       (fun d : Z * Z =>
          let (dx, dy) := d in
          (* thisDirHasPotential *)
          existsb
            (fun k =>
               let sx := pos_x pos + k * dx in
               let sy := pos_y pos + k * dy in
               let ex := sx + dx * 5 in
               let ey := sy + dy * 5 in
               if negb (inBoard sx sy) || negb (inBoard ex ey) then false
               else
                 let vals := map (cellAtPos b) (windowCells sx sy dx dy) in
                 let hasBlack := existsb (fun v => cellIs v Black) vals in
                 let hasWhite := existsb (fun v => cellIs v White) vals in
                 negb (hasBlack && hasWhite))
            (map (fun k => k - 5) (range 6)))
       DIRS).

Definition isOpeningPhase (state : GameState) : bool :=
  if moveNumber state <=? 6 then true
  else
    Z.of_nat (length (filter (fun p => negb (cellIs (cellAtPos (board state) p) Empty))
                        allPositions)) <=? 24.

(** The two [while] loops of [isPureLineExtension]: the number of
    consecutive occupied cells from [(x, y)] along [(dx, dy)]. *)
Fixpoint occupiedRun (fuel : nat) (b : Board) (dx dy x y runLen : Z) : Z :=
  match fuel with
  | O => runLen
  | S fuel' =>
      if inBoard x y && negb (cellIs (cellAt b x y) Empty)
      then occupiedRun fuel' b dx dy (x + dx) (y + dy) (runLen + 1)
      else runLen
  end.

Definition isPureLineExtension (state : GameState) (pos : Position) : bool :=
  let b := board state in
  existsb
    (fun d : Z * Z =>
       let (dx, dy) := d in
       let fwd := occupiedRun (Z.to_nat BOARD_SIZE) b dx dy
                    (pos_x pos + dx) (pos_y pos + dy) 0 in
       let runLen := occupiedRun (Z.to_nat BOARD_SIZE) b (- dx) (- dy)
                       (pos_x pos - dx) (pos_y pos - dy) fwd in
       5 <=? runLen)
    DIRS.

(** A [Map<number, number>] read with [?? 0]. *)
Definition getCount (m : list (Z * Z)) (k : Z) : Z :=
  match find (fun e => fst e =? k) m with
  | Some e => snd e
  | None => 0
  end.

Definition setCount (m : list (Z * Z)) (k v : Z) : list (Z * Z) :=
  (k, v) :: filter (fun e => negb (fst e =? k)) m.

Definition MAX_NON_URGENT_PER_LINE : Z := 4.

Record RzopLoop : Type := mkRzopLoop {
  rz_candidates : list Position;
  rz_rowCount : list (Z * Z);
  rz_diag1Count : list (Z * Z);
  rz_diag2Count : list (Z * Z)
}.

(** The body of the second loop of [generateRZOPCandidates]. *)
Definition rzopStep (state : GameState) (urgent : list Position)
  (st : RzopLoop) (pos : Position) : RzopLoop :=
  if hasPos urgent pos then st
  else if negb (isHighValueRoadCell state pos 3) then st
  else if negb (isStrategicPosition state pos) then st
  else if isPureLineExtension state pos then st
  else if isDeadLineCell state pos then st
  else
    let rowKey := pos_y pos in
    let d1Key := pos_x pos - pos_y pos in
    let d2Key := pos_x pos + pos_y pos in
    let rowUsed := getCount (rz_rowCount st) rowKey in
    let d1Used := getCount (rz_diag1Count st) d1Key in
    let d2Used := getCount (rz_diag2Count st) d2Key in
    if MAX_NON_URGENT_PER_LINE <=? rowUsed then st
    else if MAX_NON_URGENT_PER_LINE <=? d1Used then st
    else if MAX_NON_URGENT_PER_LINE <=? d2Used then st
    else
      {| rz_candidates := pushNew (rz_candidates st) pos;
         rz_rowCount := setCount (rz_rowCount st) rowKey (rowUsed + 1);
         rz_diag1Count := setCount (rz_diag1Count st) d1Key (d1Used + 1);
         rz_diag2Count := setCount (rz_diag2Count st) d2Key (d2Used + 1) |}.

Definition centerDistance (p : Position) : Z :=
  let center := (BOARD_SIZE - 1) / 2 in
  Z.abs (pos_x p - center) + Z.abs (pos_y p - center).

(** The comparator of the final sort: urgent cells first, then by Manhattan
    distance to the centre. *)
Definition rzopCompare (urgent : list Position) (a b : Position) : Z :=
  let aUrgent := if hasPos urgent a then 0 else 1 in
  let bUrgent := if hasPos urgent b then 0 else 1 in
  if negb (aUrgent =? bUrgent) then aUrgent - bUrgent
  else centerDistance a - centerDistance b.

Definition generateRZOPCandidates (state : GameState) : list Position :=
  let relevant := computeRelevantZones state 3 in
  let urgent := findUrgentThreatBlocks state in
  let afterUrgent := fold_left pushNew urgent [] in
  let st := fold_left (rzopStep state urgent) relevant
              (mkRzopLoop afterUrgent [] [] []) in
  let candidates := rz_candidates st in
  match candidates with
  | [] => relevant
  | _ =>
      let _openingPhase := isOpeningPhase state in
      sortBy (fun a b => 0 <? rzopCompare urgent a b) candidates
  end.

(* ===================================================================== *)
(** ** core/evaluation.ts *)
(* ===================================================================== *)

(** An integer-valued JavaScript number as a binary64 value (exact below
    2^53, far above anything the evaluator produces). *)
Definition numZ (z : Z) : float :=
  if z <? 0 then PrimFloat.opp (PrimFloat.of_uint63 (Uint63.of_Z (- z)))
  else PrimFloat.of_uint63 (Uint63.of_Z z).

Record RunState : Type := mkRun {
  myMax : Z; oppMax : Z; myCur : Z; oppCur : Z
}.

(** One iteration of the loop of [countMaxRun]. *)
Definition countMaxRunStep (code : Z) (player : Player) (st : RunState) (i : Z)
  : RunState :=
  let myBits := match player with BLACK => 1 | WHITE => 2 end in
  let oppBits := match player with BLACK => 2 | WHITE => 1 end in
  let bits := Z.land (Z.shiftr code (i * 2)) 3 in
  let myCur' := if bits =? myBits then myCur st + 1 else 0 in
  let oppCur' := if bits =? myBits then 0
                 else if bits =? oppBits then oppCur st + 1 else 0 in
  {| myMax := if myMax st <? myCur' then myCur' else myMax st;
     oppMax := if oppMax st <? oppCur' then oppCur' else oppMax st;
     myCur := myCur';
     oppCur := oppCur' |}.

(** [{ myMax, oppMax }] *)
Definition countMaxRun (code : Z) (player : Player) : Z * Z :=
  let st := fold_left (countMaxRunStep code player) (range 6) (mkRun 0 0 0 0) in
  (myMax st, oppMax st).

(** The loop of [evaluateRoads] with its early [return].  Every value is an
    integer of magnitude at most 924 * 10^6, so the arithmetic is exact. *)
Fixpoint evaluateRoadsLoop (state : GameState) (player : Player)
  (roads : list Road) (score : Z) : Z :=
  match roads with
  | [] => score
  | road :: rest =>
      let code := encodeRoad state road in
      let (mine, theirs) := countMaxRun code player in
      if 6 <=? mine then 1000000
      else evaluateRoadsLoop state player rest
             (if 6 <=? theirs then score - 1000000 else score)
  end.

Definition evaluateRoads (state : GameState) (player : Player)
  (_weights : EvaluationWeights) : Z :=
  evaluateRoadsLoop state player getAllRoads 0.

Definition evaluatePositional (state : GameState) (player : Player) : Z :=
  let myVal := stoneOf player in
  let oppVal := stoneOf (otherPlayer player) in
  let center := (BOARD_SIZE - 1) / 2 in
  let maxDist := center * 2 in
  fold_left
    (fun score p =>
       let v := cellAtPos (board state) p in
       if cellIs v Empty then score
       else
         let dist := Z.abs (pos_x p - center) + Z.abs (pos_y p - center) in
         let positional := maxDist - dist in
         if cellIs v myVal then score + positional * 2
         else if cellIs v oppVal then score - positional * 2
         else score)
    allPositions 0.

Definition countRoads (f : Road -> bool) : Z :=
  Z.of_nat (length (filter f getAllRoads)).

Definition evaluatePatterns (state : GameState) (player : Player)
  (weights : EvaluationWeights) : float :=
  let myVal := stoneOf player in
  let oppVal := stoneOf (otherPlayer player) in
  let shape (own other : Cell) (n e : Z) (road : Road) : bool :=
    let vals := roadValues state road in
    (countCells other vals =? 0) && (countCells own vals =? n) &&
    (countCells Empty vals =? e) in
  let myLive4 := countRoads (shape myVal oppVal 4 2) in
  let myLive5 := countRoads (shape myVal oppVal 5 1) in
  let oppLive4 := countRoads (shape oppVal myVal 4 2) in
  let oppLive5 := countRoads (shape oppVal myVal 5 1) in
  let score :=
    (numZ myLive4 * live4_score weights
     + numZ myLive5 * live5_score weights
     - numZ oppLive4 * live4_score weights * 0.8
     - numZ oppLive5 * live5_score weights * 0.9)%float in
  let myVcdt := Z.of_nat (length (detectVCDT state player)) in
  let oppVcdt := Z.of_nat (length (detectVCDT state (otherPlayer player))) in
  (score + numZ (myVcdt - oppVcdt) * vcdt_bonus weights)%float.

Definition countThreats (winning : bool) (level : Z) (ts : list VCDTThreat) : Z :=
  Z.of_nat (length (filter (isLevel winning level) ts)).

Definition evaluateThreatDefense (state : GameState) (player : Player)
  (_weights : EvaluationWeights) : Z :=
  let opponent := otherPlayer player in
  let oppThreats := detectVCDT state opponent in
  let oppWinning := countThreats true 0 oppThreats in
  let oppDouble := countThreats true 1 oppThreats in
  let oppLive4 := countThreats false 2 oppThreats in
  let s1 := if 0 <? oppWinning then 0 - 200000 * oppWinning else 0 in
  let s2 := if 0 <? oppDouble then s1 - 120000 * oppDouble else s1 in
  let s3 := if 2 <=? oppLive4 then s2 - 80000 * oppLive4
            else if oppLive4 =? 1 then s2 - 40000 else s2 in
  let myThreats := detectVCDT state player in
  let myWinning := countThreats true 0 myThreats in
  let myDouble := countThreats true 1 myThreats in
  let myLive4 := countThreats false 2 myThreats in
  let s4 := if 0 <? myWinning then s3 + 200000 * myWinning else s3 in
  let s5 := if 0 <? myDouble then s4 + 100000 * myDouble else s4 in
  if 2 <=? myLive4 then s5 + 30000 * myLive4
  else if myLive4 =? 1 then s5 + 10000 else s5.

Definition evaluateState (state : GameState) (player : Player)
  (weights : EvaluationWeights) : float :=
  let roadScore := numZ (evaluateRoads state player weights) in
  let patternScore := evaluatePatterns state player weights in
  let threatScore := numZ (evaluateThreatDefense state player weights) in
  let positionalScore := numZ (evaluatePositional state player) in
  (roadScore + patternScore + threatScore + positionalScore)%float.

(* ===================================================================== *)
(** ** core/smart_defense.ts *)
(* ===================================================================== *)

(** Plays a single stone of [rootPlayer] at [blockPos] and looks for a
    remaining one-move win of the opponent.  The stone is played with
    [applyMoveWithWinner], whose exceptions propagate. *)
Definition isSingleBlockSafe (state : GameState) (rootPlayer : Player)
  (blockPos : Position) : Result bool :=
  if negb (cellIs (cellAtPos (board state) blockPos) Empty) then Ok false
  else
    rbind (applyMoveWithWinner state (mkMove rootPlayer [blockPos])) (fun tmpState =>
      let opp := otherPlayer rootPlayer in
      let oppThreatsAfter := detectVCDT tmpState opp in
      let hasImmediateWin :=
        existsb (fun t => isWinning t && ((threatLevel t =? 0) || (threatLevel t =? 1)))
          oppThreatsAfter in
      Ok (negb hasImmediateWin)).

(** The loop of [pickBestByCenter] over [candidates[1..]]. *)
Fixpoint pickBestLoop (rest : list Position) (best : Position) (bestDist : Z)
  : Position :=
  match rest with
  | [] => best
  | p :: rest' =>
      let d := centerDistance p in
      if d <? bestDist then pickBestLoop rest' p d
      else pickBestLoop rest' best bestDist
  end.

Definition pickBestByCenter (candidates : list Position) : Result Position :=
  match candidates with
  | [] => Throw EmptyCandidates
  | best :: rest => Ok (pickBestLoop rest best (centerDistance best))
  end.

(** The threat positions that are empty cells of the board, without
    repetition (the defensive filter at the head of both move builders). *)
Definition threatEmpties (state : GameState) (threat : VCDTThreat) : list Position :=
  fold_left
    (fun empties p =>
       if negb (cellIs (cellAtPos (board state) p) Empty) then empties
       else pushNew empties p)
    (threat_positions threat) [].

(** [for (const e of empties) if (isSingleBlockSafe(...)) safeSingles.push(e)] *)
Fixpoint collectSafeSingles (state : GameState) (rootPlayer : Player)
  (empties : list Position) : Result (list Position) :=
  match empties with
  | [] => Ok []
  | e :: rest =>
      rbind (isSingleBlockSafe state rootPlayer e) (fun safe =>
        rbind (collectSafeSingles state rootPlayer rest) (fun others =>
          Ok (if safe then e :: others else others)))
  end.

(** [generateRZOPCandidates(state).filter(p => !(p.x === must.x && p.y === must.y))[0] ?? must] *)
Definition companionStone (state : GameState) (must : Position) : Position :=
  match filter (fun p => negb (pos_eqb p must)) (generateRZOPCandidates state) with
  | second :: _ => second
  | [] => must
  end.

Definition buildSmartBlockForOpponentLive4 (state : GameState)
  (rootPlayer : Player) (threat : VCDTThreat) : Result Move :=
  let empties := threatEmpties state threat in
  match empties with
  | e1 :: e2 :: _ =>
      rbind (collectSafeSingles state rootPlayer empties) (fun safeSingles =>
        match safeSingles with
        | _ :: _ =>
            rbind (pickBestByCenter safeSingles) (fun must =>
              Ok (mkMove rootPlayer [must; companionStone state must]))
        | [] => Ok (mkMove rootPlayer [e1; e2])
        end)
  | [must] => Ok (mkMove rootPlayer [must; companionStone state must])
  | [] =>
      match generateRZOPCandidates state with
      | [] => Ok (mkMove rootPlayer [])
      | [c] => Ok (mkMove rootPlayer [c])
      | c1 :: c2 :: _ => Ok (mkMove rootPlayer [c1; c2])
      end
  end.

(* ===================================================================== *)
(** ** core/pvs_search.ts: tables and helpers *)
(* ===================================================================== *)

Definition MAX_ROOT_MOVE_COMBOS : Z := 50.
Definition MAX_CHILD_MOVE_COMBOS : Z := 30.

Definition MAX_TT_ENTRIES : Z := 1000000.
Definition MAX_HISTORY_ENTRIES : Z := 500000.
Definition MIN_HISTORY_THRESHOLD : Z := 100.

Definition ASPIRATION_WINDOW : Z := 50000.
Definition QUIESCENCE_MAX_DEPTH : Z := 2.
Definition MAX_KILLER_DEPTH : Z := 32.

Inductive TTFlag : Type := EXACT | LOWER | UPPER.

Record TTEntry : Type := mkTTEntry {
  tt_depth : Z;
  tt_score : float;
  tt_flag : TTFlag;
  tt_bestMove : option Move
}.

(** The module-level variables of [pvs_search.ts].  A [Map] is the list of
    its entries in insertion order (the order [Array.from(map.entries())]
    yields); [clockReads] counts the calls of [getCurrentTime] so far. *)
Record EngineState : Type := mkEngine {
  transpositionTable : list (string * TTEntry);
  historyTable : list (string * Z);
  killerMoves : list (option Move * option Move);
  lastSearchNodeCount : Z;
  lastSearchDepth : Z;
  clockReads : nat
}.

Definition emptyKillers : list (option Move * option Move) :=
  repeat (None, None) (Z.to_nat MAX_KILLER_DEPTH).

Definition initialEngine : EngineState :=
  mkEngine [] [] emptyKillers 0 0 0.

(* --------------------------------------------------------------------- *)
(** *** The state-and-exception monad of the engine *)

Definition M (A : Type) : Type := EngineState -> Result A * EngineState.

Definition ret {A : Type} (a : A) : M A := fun st => (Ok a, st).

Definition bind {A B : Type} (m : M A) (k : A -> M B) : M B :=
  fun st =>
    match m st with
    | (Ok a, st') => k a st'
    | (Throw e, st') => (Throw e, st')
    end.

Definition liftR {A : Type} (r : Result A) : M A := fun st => (r, st).

Definition gets {A : Type} (f : EngineState -> A) : M A := fun st => (Ok (f st), st).

Definition modify (f : EngineState -> EngineState) : M unit := fun st => (Ok tt, f st).

Declare Scope engine_scope.
Delimit Scope engine_scope with engine.
Notation "x <- m ;; k" := (bind m (fun x => k))
  (at level 61, m at next level, right associativity) : engine_scope.
Notation "m ;;; k" := (bind m (fun _ => k))
  (at level 61, right associativity) : engine_scope.
Open Scope engine_scope.

(** [for (const a of l) body(a)] *)
Fixpoint forEachM {A : Type} (body : A -> M unit) (l : list A) : M unit :=
  match l with
  | [] => ret tt
  | a :: l' => body a ;;; forEachM body l'
  end.

(** [l.map(f)] for an [f] that reads the tables and may throw. *)
Fixpoint mapM {A B : Type} (f : A -> M B) (l : list A) : M (list B) :=
  match l with
  | [] => ret []
  | a :: l' => b <- f a ;; bs <- mapM f l' ;; ret (b :: bs)
  end.

(* --------------------------------------------------------------------- *)
(** *** Maps keyed by strings *)

Definition mapGet {V : Type} (m : list (string * V)) (k : string) : option V :=
  match find (fun e => String.eqb (fst e) k) m with
  | Some e => Some (snd e)
  | None => None
  end.

(** [map.set(k, v)]: an existing key keeps its place, a new key goes last. *)
Fixpoint mapSet {V : Type} (m : list (string * V)) (k : string) (v : V)
  : list (string * V) :=
  match m with
  | [] => [(k, v)]
  | e :: m' => if String.eqb (fst e) k then (k, v) :: m' else e :: mapSet m' k v
  end.

Definition mapSize {V : Type} (m : list (string * V)) : Z := Z.of_nat (length m).

(* --------------------------------------------------------------------- *)
(** *** Transposition table *)

Definition numString (z : Z) : string := NilZero.string_of_int (Z.to_int z).

Definition cellDigit (c : Cell) : string :=
  match c with Empty => "0" | Black => "1" | White => "2" end.

Definition playerString (p : Player) : string :=
  match p with BLACK => "BLACK" | WHITE => "WHITE" end.

Definition hashState (state : GameState) : string :=
  let boardStr :=
    String.concat "|" (map (fun row => String.concat "" (map cellDigit row)) (board state)) in
  (boardStr ++ "_" ++ playerString (currentPlayer state) ++ "_"
   ++ numString (moveNumber state))%string.

Definition probeTT (state : GameState) (depth : Z) (alpha beta : float)
  : M (option TTEntry) :=
  tbl <- gets transpositionTable ;;
  match mapGet tbl (hashState state) with
  | None => ret None
  | Some entry =>
      if tt_depth entry <? depth then ret None
      else
        match tt_flag entry with
        | EXACT => ret (Some entry)
        | LOWER => if (beta <=? tt_score entry)%float then ret (Some entry) else ret None
        | UPPER => if (tt_score entry <=? alpha)%float then ret (Some entry) else ret None
        end
  end.

(** [Math.floor(MAX_TT_ENTRIES * 0.8)]; the product is exactly 800000. *)
Definition ttKeep : Z := MAX_TT_ENTRIES * 8 / 10.

(** The overflow branch of [storeTT]: deepest entries first (stable), the
    first [ttKeep] of them re-inserted into the cleared map. *)
Definition pruneTT (tbl : list (string * TTEntry)) : list (string * TTEntry) :=
  let entries := sortBy (fun a b => 0 <? tt_depth (snd b) - tt_depth (snd a)) tbl in
  firstn (Z.to_nat ttKeep) entries.

(** [storeTT] on the table alone. *)
Definition storeTTtable (tbl : list (string * TTEntry)) (hash : string)
  (depth : Z) (score alpha beta : float) (bestMove : option Move)
  : list (string * TTEntry) :=
  let deeperExists :=
    match mapGet tbl hash with
    | Some existing => depth <? tt_depth existing
    | None => false
    end in
  if deeperExists then tbl
  else
    let flag := if (score <=? alpha)%float then UPPER
                else if (beta <=? score)%float then LOWER else EXACT in
    let tbl' := mapSet tbl hash (mkTTEntry depth score flag bestMove) in
    if MAX_TT_ENTRIES <? mapSize tbl' then pruneTT tbl' else tbl'.

Definition setTT (tbl : list (string * TTEntry)) (st : EngineState) : EngineState :=
  mkEngine tbl (historyTable st) (killerMoves st)
    (lastSearchNodeCount st) (lastSearchDepth st) (clockReads st).

Definition storeTT (state : GameState) (depth : Z) (score alpha beta : float)
  (bestMove : option Move) : M unit :=
  modify (fun st =>
    setTT (storeTTtable (transpositionTable st) (hashState state)
             depth score alpha beta bestMove) st).

(* --------------------------------------------------------------------- *)
(** *** History heuristic *)

Definition historyKey (player : Player) (pos : Position) : string :=
  (playerString player ++ "_" ++ numString (pos_x pos) ++ "_" ++ numString (pos_y pos))%string.

(** [Math.floor(MAX_HISTORY_ENTRIES * 0.7)]; the product is exactly 350000. *)
Definition historyKeep : Z := MAX_HISTORY_ENTRIES * 7 / 10.

(** The overflow branch of [updateHistory]: highest scores first, the first
    [historyKeep] halved, and kept only above the threshold. *)
Definition pruneHistory (tbl : list (string * Z)) : list (string * Z) :=
  let entries := sortBy (fun a b => 0 <? snd b - snd a) tbl in
  fold_left
    (fun acc e =>
       let aged := snd e / 2 in
       if MIN_HISTORY_THRESHOLD <? aged then mapSet acc (fst e) aged else acc)
    (firstn (Z.to_nat historyKeep) entries) [].

Definition updateHistoryTable (tbl : list (string * Z)) (player : Player)
  (pos : Position) (depth : Z) : list (string * Z) :=
  let key := historyKey player pos in
  let old := match mapGet tbl key with Some v => v | None => 0 end in
  let next := old + depth * depth in
  let tbl' := mapSet tbl key (Z.min next 1000000) in
  if MAX_HISTORY_ENTRIES <? mapSize tbl' then pruneHistory tbl' else tbl'.

Definition setHistory (tbl : list (string * Z)) (st : EngineState) : EngineState :=
  mkEngine (transpositionTable st) tbl (killerMoves st)
    (lastSearchNodeCount st) (lastSearchDepth st) (clockReads st).

Definition updateHistory (player : Player) (pos : Position) (depth : Z) : M unit :=
  modify (fun st => setHistory (updateHistoryTable (historyTable st) player pos depth) st).

Definition getHistoryScore (player : Player) (pos : Position) : M Z :=
  tbl <- gets historyTable ;;
  ret (match mapGet tbl (historyKey player pos) with Some v => v | None => 0 end).

(* --------------------------------------------------------------------- *)
(** *** Utilities *)

Definition switchPlayer (p : Player) : Player :=
  match p with BLACK => WHITE | WHITE => BLACK end.

Definition outcomeIs (w : Outcome) (p : Player) : bool :=
  match w with
  | Won q => player_eqb q p
  | DRAW => false
  end.

(* --------------------------------------------------------------------- *)
(** *** Two-stone move enumeration *)

Record MoveGen : Type := mkMoveGen {
  mg_moves : list Move;
  mg_seen : list (Position * Position)
}.

Definition samePairOrdered (a b : Position * Position) : bool :=
  pos_eqb (fst a) (fst b) && pos_eqb (snd a) (snd b).

(** [addMove] of [generateTwoStoneMoves]. *)
Definition addMove (state : GameState) (player : Player) (maxCombos : Z)
  (g : MoveGen) (p1 p2 : Position) : MoveGen :=
  if pos_eqb p1 p2 then g
  else if negb (cellIs (cellAtPos (board state) p1) Empty) then g
  else if negb (cellIs (cellAtPos (board state) p2) Empty) then g
  else
    let p1First :=
      (pos_x p1 <? pos_x p2) || ((pos_x p1 =? pos_x p2) && (pos_y p1 <=? pos_y p2)) in
    let aFirst := if p1First then p1 else p2 in
    let bFirst := if p1First then p2 else p1 in
    if existsb (samePairOrdered (aFirst, bFirst)) (mg_seen g) then g
    else
      let seen' := mg_seen g ++ [(aFirst, bFirst)] in
      if Z.of_nat (length (mg_moves g)) <? maxCombos
      then mkMoveGen (mg_moves g ++ [mkMove player [aFirst; bFirst]]) seen'
      else mkMoveGen (mg_moves g) seen'.

(** An iteration of any of the loops of [generateTwoStoneMoves]: they all
    stop for good once [moves.length] has reached [maxCombos]. *)
Definition addMoveGuarded (state : GameState) (player : Player) (maxCombos : Z)
  (g : MoveGen) (pr : Position * Position) : MoveGen :=
  if Z.of_nat (length (mg_moves g)) <? maxCombos
  then addMove state player maxCombos g (fst pr) (snd pr)
  else g.

(** [addDoubleWinningPairs]: the pairs of the winning level-1 threats. *)
Definition doubleWinningPairs (threats : list VCDTThreat) : list (Position * Position) :=
  flat_map
    (fun t =>
       if negb (isWinning t) || negb (threatLevel t =? 1) then []
       else match threat_positions t with
            | [p1; p2] => [(p1, p2)]
            | _ => []
            end)
    threats.

(** Twice the distance to [BOARD_CENTER = 9.5], an integer with the same
    order as [|x - 9.5| + |y - 9.5|]. *)
Definition centerDist2 (p : Position) : Z :=
  Z.abs (2 * pos_x p - 19) + Z.abs (2 * pos_y p - 19).

Definition crossPairs {A : Type} (l1 l2 : list A) : list (A * A) :=
  flat_map (fun a => map (fun b => (a, b)) l2) l1.

Definition generateTwoStoneMoves (state : GameState) (candidates : list Position)
  (player : Player) : list Move :=
  let n := Z.of_nat (length candidates) in
  let maxCombos := Z.min (n * (n - 1) / 2) 1000 in
  let myThreats := detectVCDT state player in
  let oppThreats := detectVCDT state (switchPlayer player) in
  let scored := sortBy (fun a b => 0 <? centerDist2 a - centerDist2 b) candidates in
  let pri := firstn 30 scored in
  let backup := skipn 30 scored in
  let pairs :=
    doubleWinningPairs oppThreats ++ doubleWinningPairs myThreats
    ++ orderedPairs pri
    ++ crossPairs pri backup
    ++ orderedPairs (firstn 20 backup) in
  mg_moves (fold_left (addMoveGuarded state player maxCombos) pairs (mkMoveGen [] [])).

(** The cells of the board as the two [for] loops over [state.board] and
    [state.board[y]] visit them. *)
Definition boardCells (b : Board) : list (Position * Cell) :=
  flat_map
    (fun yr : nat * list Cell =>
       map (fun xc : nat * Cell => (mkPos (Z.of_nat (fst xc)) (Z.of_nat (fst yr)), snd xc))
         (combine (seq 0 (length (snd yr))) (snd yr)))
    (combine (seq 0 (length b)) b).

Definition findFallbackTwoStoneMove (state : GameState) (player : Player) : Move :=
  let empties :=
    firstn 2 (map fst (filter (fun pc => cell_eqb (snd pc) Empty) (boardCells (board state)))) in
  mkMove player empties.

(* --------------------------------------------------------------------- *)
(** *** Killer moves *)

Definition comparePositions (p1 p2 : Position) : Z :=
  if pos_x p1 =? pos_x p2 then pos_y p1 - pos_y p2 else pos_x p1 - pos_x p2.

Fixpoint allPosEq (l1 l2 : list Position) : bool :=
  match l1, l2 with
  | [], _ => true
  | p :: l1', q :: l2' => pos_eqb p q && allPosEq l1' l2'
  | _ :: _, [] => false
  end.

Definition sameMove (a : option Move) (b : Move) : bool :=
  match a with
  | None => false
  | Some a =>
      if negb (length (positions a) =? length (positions b))%nat then false
      else
        let sortPositions := sortBy (fun p1 p2 => 0 <? comparePositions p1 p2) in
        allPosEq (sortPositions (positions a)) (sortPositions (positions b))
  end.

Definition killerSlot (km : list (option Move * option Move)) (depth : Z)
  : option Move * option Move :=
  nth (Z.to_nat (depth - 1)) km (None, None).

Definition setKillers (km : list (option Move * option Move)) (st : EngineState)
  : EngineState :=
  mkEngine (transpositionTable st) (historyTable st) km
    (lastSearchNodeCount st) (lastSearchDepth st) (clockReads st).

Definition storeKiller (depth : Z) (move : Move) : M unit :=
  if (depth <=? 0) || (MAX_KILLER_DEPTH <? depth) then ret tt
  else
    modify (fun st =>
      let slot := killerSlot (killerMoves st) depth in
      if negb (sameMove (fst slot) move)
      then setKillers
             (updateNth (Z.to_nat (depth - 1)) (fun _ => (Some move, fst slot))
                (killerMoves st)) st
      else st).

Definition findKillerBonus (depth : Z) (move : Move) : M Z :=
  if (depth <=? 0) || (MAX_KILLER_DEPTH <? depth) then ret 0
  else
    km <- gets killerMoves ;;
    let slot := killerSlot km depth in
    if sameMove (fst slot) move then ret 25000
    else if sameMove (snd slot) move then ret 12000
    else ret 0.

Definition resetKillers : M unit :=
  modify (fun st => setKillers (map (fun _ => (None, None)) (killerMoves st)) st).

(* --------------------------------------------------------------------- *)
(** *** Move ordering *)

Definition scoreMoveForOrdering (move : Move) (state : GameState)
  (rootPlayer toMove : Player) (weights : EvaluationWeights) (depth : Z) : M float :=
  nextState <- liftR (applyMoveWithWinner state move) ;;
  let evalScore := evaluateState nextState rootPlayer weights in
  historyScore <-
    (fix sum (ps : list Position) (s : Z) : M Z :=
       match ps with
       | [] => ret s
       | p :: ps' => h <- getHistoryScore toMove p ;; sum ps' (s + h)
       end) (positions move) 0 ;;
  killerBonus <- findKillerBonus depth move ;;
  let myThreats := detectVCDT nextState toMove in
  let oppThreats := detectVCDT nextState (switchPlayer toMove) in
  let myWinning := countThreats true 0 myThreats in
  let t1 := if 0 <? myWinning then 0 + myWinning * 200000 else 0 in
  let myDouble := countThreats true 1 myThreats in
  let t2 := if 0 <? myDouble then t1 + myDouble * 100000 else t1 in
  let myLive4 := countThreats false 2 myThreats in
  let t3 := t2 + myLive4 * 10000 in
  let oppWinning := countThreats true 0 oppThreats in
  let t4 := if 0 <? oppWinning then t3 - oppWinning * 180000 else t3 in
  let oppDouble := countThreats true 1 oppThreats in
  let t5 := if 0 <? oppDouble then t4 - oppDouble * 90000 else t4 in
  let oppLive4 := countThreats false 2 oppThreats in
  let threatScore := t5 - oppLive4 * 80000 in
  ret (evalScore + numZ threatScore * 0.3 + numZ historyScore * 0.1 + numZ killerBonus)%float.

Definition orderMoves (moves : list Move) (state : GameState)
  (rootPlayer toMove : Player) (weights : EvaluationWeights) (depth : Z)
  : M (list Move) :=
  scored <- mapM (fun m =>
              s <- scoreMoveForOrdering m state rootPlayer toMove weights depth ;;
              ret (m, s)) moves ;;
  ret (map fst (sortBy (fun a b => (0 <? snd b - snd a)%float) scored)).

(* --------------------------------------------------------------------- *)
(** *** Root decisions from VCDT *)

Definition buildTwoStoneMoveFromThreat (state : GameState) (player : Player)
  (threat : VCDTThreat) : Move :=
  let empties := threatEmpties state threat in
  match empties with
  | e1 :: e2 :: _ =>
      if threatLevel threat =? 2 then mkMove player [e1; e2]
      else mkMove player [e1; companionStone state e1]
  | [must] => mkMove player [must; companionStone state must]
  | [] => findFallbackTwoStoneMove state player
  end.

Definition isEmptyPos (state : GameState) (p : Position) : bool :=
  cellIs (cellAtPos (board state) p) Empty.

(** The [countMap] of case three: how many pairs each empty cell occurs in,
    in order of first occurrence. *)
Fixpoint bumpCount (m : list (Position * Z)) (p : Position) : list (Position * Z) :=
  match m with
  | [] => [(p, 1)]
  | e :: m' => if pos_eqb (fst e) p then (fst e, snd e + 1) :: m' else e :: bumpCount m' p
  end.

Definition buildBlockMoveForOpponentDoubleWins (state : GameState)
  (rootPlayer : Player) (threats : list VCDTThreat) : option Move :=
  match threats with
  | [] => None
  | t0 :: others =>
      let single :=
        match others, threat_positions t0 with
        | [], [p1; p2] => Some (p1, p2)
        | _, _ => None
        end in
      match single with
      | Some (p1, p2) =>
          match filter (isEmptyPos state) [p1; p2] with
          | [e1; e2] => Some (mkMove rootPlayer [e1; e2])
          | [must] => Some (mkMove rootPlayer [must; companionStone state must])
          | _ => None
          end
      | None =>
          let intersection :=
            filter
              (fun p =>
                 isEmptyPos state p &&
                 forallb (fun t => existsb (fun q => pos_eqb q p) (threat_positions t)) others)
              (threat_positions t0) in
          match intersection with
          | must :: _ => Some (mkMove rootPlayer [must; companionStone state must])
          | [] =>
              let countMap :=
                fold_left
                  (fun m t =>
                     fold_left
                       (fun m p => if isEmptyPos state p then bumpCount m p else m)
                       (threat_positions t) m)
                  threats [] in
              let arr := sortBy (fun a b => 0 <? snd b - snd a) countMap in
              match arr with
              | [] => None
              | [a1] => Some (mkMove rootPlayer [fst a1; companionStone state (fst a1)])
              | a1 :: a2 :: _ =>
                  let firstBlock := fst a1 in
                  let secondBlock :=
                    if pos_eqb firstBlock (fst a2) then companionStone state firstBlock
                    else fst a2 in
                  Some (mkMove rootPlayer [firstBlock; secondBlock])
              end
          end
      end
  end.

(** The [reason] strings attached to a root decision. *)
Inductive RootReason : Type :=
| own_win
| block_opp_double_win
| block_opp_win
| block_opp_live4_both_ends
| block_opp_live4_smart_single.

(** Step 2 of [findVcdtRootMove]: the block of the opponent's two-stone
    wins, when there are any and a block exists. *)
Definition blockOpponentDoubleWins (state : GameState) (rootPlayer : Player)
  (oppDoubleWins : list VCDTThreat) : option Move :=
  match oppDoubleWins with
  | [] => None
  | _ :: _ => buildBlockMoveForOpponentDoubleWins state rootPlayer oppDoubleWins
  end.

Definition findVcdtRootMove (state : GameState) (rootPlayer : Player)
  : Result (option (Move * RootReason)) :=
  match find (isLevel true 0) (detectVCDT state rootPlayer)
        return Result (option (Move * RootReason)) with
  | Some myWin =>
      Ok (Some (buildTwoStoneMoveFromThreat state rootPlayer myWin, own_win))
  | None =>
      match blockOpponentDoubleWins state rootPlayer
              (filter (isLevel true 1) (detectVCDT state (switchPlayer rootPlayer)))
            return Result (option (Move * RootReason)) with
      | Some mv => Ok (Some (mv, block_opp_double_win))
      | None =>
          match find (isLevel true 0) (detectVCDT state (switchPlayer rootPlayer))
                return Result (option (Move * RootReason)) with
          | Some oppWin =>
              Ok (Some (buildTwoStoneMoveFromThreat state rootPlayer oppWin, block_opp_win))
          | None =>
              match find (isLevel false 2) (detectVCDT state (switchPlayer rootPlayer))
                    return Result (option (Move * RootReason)) with
              | Some oppLive4 =>
                  rbind (buildSmartBlockForOpponentLive4 state rootPlayer oppLive4)
                    (fun mv =>
                       Ok (Some (mv,
                                 if (2 <=? Z.of_nat (length (positions mv)))
                                 then block_opp_live4_both_ends
                                 else block_opp_live4_smart_single)))
              | None => Ok None
              end
          end
      end
  end.

(* --------------------------------------------------------------------- *)
(** *** Quiescence search *)

(** [moves.slice(0, n)] *)
Definition takeMoves (n : Z) (moves : list Move) : list Move := firstn (Z.to_nat n) moves.

(** [quiescenceSearch] touches none of the tables and never reads the clock.
    Its recursion stops at [depth >= QUIESCENCE_MAX_DEPTH]; [fuel] bounds it
    structurally. *)
Fixpoint quiescenceSearch (fuel : nat) (state : GameState)
  (rootPlayer toMove : Player) (alpha beta : float)
  (weights : EvaluationWeights) (depth : Z) : Result float :=
  match fuel with
  | O => Throw OutOfFuel
  | S fuel' =>
      let standPat := evaluateState state rootPlayer weights in
      if QUIESCENCE_MAX_DEPTH <=? depth then Ok standPat
      else if (beta <=? standPat)%float then Ok standPat
      else
        let alpha0 := if (alpha <? standPat)%float then standPat else alpha in
        let candidates := generateRZOPCandidates state in
        let moves := takeMoves MAX_CHILD_MOVE_COMBOS
                       (generateTwoStoneMoves state candidates toMove) in
        (fix loop (ms : list Move) (alpha : float) {struct ms} : Result float :=
           match ms with
           | [] => Ok alpha
           | move :: rest =>
               rbind (applyMoveWithWinner state move) (fun next =>
               rbind (quiescenceSearch fuel' next rootPlayer (switchPlayer toMove)
                        (- beta)%float (- alpha)%float weights (depth + 1)) (fun r =>
                 let score := (- r)%float in
                 if (beta <=? score)%float then Ok score
                 else loop rest (if (alpha <? score)%float then score else alpha)))
           end) moves alpha0
  end.

Definition quiescenceFuel : nat := S (Z.to_nat QUIESCENCE_MAX_DEPTH).

(* --------------------------------------------------------------------- *)
(** *** The clock *)

Section Search.

(** [performance.now()], as the sequence of the values it returns: the
    [n]-th call of [getCurrentTime] (counting from 0) returns [clock n]. *)
Variable clock : nat -> float.

Definition getCurrentTime : M float :=
  fun st =>
    (Ok (clock (clockReads st)),
     mkEngine (transpositionTable st) (historyTable st) (killerMoves st)
       (lastSearchNodeCount st) (lastSearchDepth st) (S (clockReads st))).

Definition setNodeCount (n : Z) (st : EngineState) : EngineState :=
  mkEngine (transpositionTable st) (historyTable st) (killerMoves st)
    n (lastSearchDepth st) (clockReads st).

Definition setSearchDepth (d : Z) (st : EngineState) : EngineState :=
  mkEngine (transpositionTable st) (historyTable st) (killerMoves st)
    (lastSearchNodeCount st) d (clockReads st).

(* --------------------------------------------------------------------- *)
(** *** PVS *)

(** The result of the move loop of [pvs]. *)
Record PvsLoop : Type := mkPvsLoop {
  pl_bestScore : float;
  pl_bestMove : option Move
}.

(** [pvs]; the recursion is on [depth], which decreases by one at every
    call until [depth <= 0] hands over to the quiescence search, and [fuel]
    bounds it structurally. *)
Fixpoint pvs (fuel : nat) (state : GameState) (rootPlayer toMove : Player)
  (alpha beta : float) (depth : Z) (weights : EvaluationWeights)
  (deadline : float) (isPV : bool) {struct fuel} : M float :=
  match fuel with
  | O => liftR (Throw OutOfFuel)
  | S fuel' =>
      modify (fun st => setNodeCount (lastSearchNodeCount st + 1) st) ;;;
      now <- getCurrentTime ;;
      if (deadline <? now)%float then ret (evaluateState state rootPlayer weights)
      else
        match winner state with
        | Some w =>
            let bonus := depth * 10000 in
            ret (numZ (if outcomeIs w rootPlayer
                       then 1000000 + bonus else -1000000 - bonus))
        | None =>
            if depth <=? 0
            then liftR (quiescenceSearch quiescenceFuel state rootPlayer toMove
                          alpha beta weights 0)
            else
              ttEntry <- probeTT state depth alpha beta ;;
              match ttEntry with
              | Some entry => ret (tt_score entry)
              | None =>
                  match generateTwoStoneMoves state (generateRZOPCandidates state) toMove
                        return M float with
                  | [] =>
                      let evalScore := evaluateState state rootPlayer weights in
                      storeTT state depth evalScore alpha beta None ;;;
                      ret evalScore
                  | (_ :: _) as moves0 =>
                      let moves :=
                        if MAX_CHILD_MOVE_COMBOS <? Z.of_nat (length moves0)
                        then takeMoves MAX_CHILD_MOVE_COMBOS moves0 else moves0 in
                      ordered <- orderMoves moves state rootPlayer toMove weights depth ;;
                      let opp := switchPlayer toMove in
                      res <-
                        (fix loop (ms : list Move) (first : bool) (bestScore : float)
                           (bestMove : option Move) (localAlpha : float) {struct ms}
                           : M PvsLoop :=
                           match ms with
                           | [] => ret (mkPvsLoop bestScore bestMove)
                           | move :: rest =>
                               next <- liftR (applyMoveWithWinner state move) ;;
                               score <-
                                 (if first || negb isPV
                                  then
                                    r <- pvs fuel' next rootPlayer opp
                                           (- beta)%float (- localAlpha)%float
                                           (depth - 1) weights deadline isPV ;;
                                    ret (- r)%float
                                  else
                                    r <- pvs fuel' next rootPlayer opp
                                           (- localAlpha - 1)%float (- localAlpha)%float
                                           (depth - 1) weights deadline false ;;
                                    let score := (- r)%float in
                                    if (localAlpha <? score)%float && (score <? beta)%float
                                    then
                                      r' <- pvs fuel' next rootPlayer opp
                                              (- beta)%float (- localAlpha)%float
                                              (depth - 1) weights deadline true ;;
                                      ret (- r')%float
                                    else ret score) ;;
                               let bestScore' :=
                                 if (bestScore <? score)%float then score else bestScore in
                               let bestMove' :=
                                 if (bestScore <? score)%float then Some move else bestMove in
                               localAlpha' <-
                                 (if (localAlpha <? score)%float
                                  then
                                    forEachM (fun p => updateHistory toMove p depth)
                                      (positions move) ;;;
                                    ret score
                                  else ret localAlpha) ;;
                               if (beta <=? localAlpha')%float
                               then
                                 storeKiller depth move ;;;
                                 ret (mkPvsLoop bestScore' bestMove')
                               else loop rest false bestScore' bestMove' localAlpha'
                           end) ordered true neg_infinity None alpha ;;
                      match pl_bestMove res with
                      | Some bm =>
                          storeTT state depth (pl_bestScore res) alpha beta (Some bm) ;;;
                          ret (pl_bestScore res)
                      | None => ret (pl_bestScore res)
                      end
                  end
              end
        end
  end.

(** Enough fuel for a search of [depth] plies. *)
Definition pvsFuel (depth : Z) : nat := S (Z.to_nat depth).

(* --------------------------------------------------------------------- *)
(** *** Root search: VCDT forcing, then iterative deepening *)

Inductive SearchMode : Type := vcdt_root | normal | no_candidate_fallback.

(** [debugInfo] of a PVS decision ([engine] is always ['pvs+vcdt+zorp']). *)
Record DebugInfo : Type := mkDebug {
  dbg_mode : SearchMode;
  dbg_reason : option RootReason;
  dbg_depth : Z;
  dbg_nodes : Z;
  dbg_ttSize : Z
}.

Record AIMoveDecision : Type := mkDecision {
  dec_move : Move;
  dec_score : float;
  dec_debugInfo : DebugInfo
}.

(** The state of one iteration of the deepening loop. *)
Record RootIter : Type := mkRootIter {
  ri_alpha : float;
  ri_bestMove : Move;
  ri_bestScore : float;
  ri_failed : bool
}.

(** The loop over the sorted root moves of iteration [d]; [first] is
    [i === 0]. *)
Fixpoint rootMoveLoop (rootState : GameState) (rootPlayer : Player)
  (weights : EvaluationWeights) (deadline : float) (d : Z) (beta : float)
  (ms : list Move) (first : bool) (it : RootIter) {struct ms} : M RootIter :=
  match ms with
  | [] => ret it
  | move :: rest =>
      next <- liftR (applyMoveWithWinner rootState move) ;;
      let opp := switchPlayer rootPlayer in
      let alpha := ri_alpha it in
      score <-
        (if first || ri_failed it
         then
           r <- pvs (pvsFuel (d - 1)) next rootPlayer opp
                  (- beta)%float (- alpha)%float (d - 1) weights deadline true ;;
           ret (- r)%float
         else
           r <- pvs (pvsFuel (d - 1)) next rootPlayer opp
                  (- alpha - 1)%float (- alpha)%float (d - 1) weights deadline false ;;
           let score := (- r)%float in
           if (alpha <? score)%float && (score <? beta)%float
           then
             r' <- pvs (pvsFuel (d - 1)) next rootPlayer opp
                     (- beta)%float (- alpha)%float (d - 1) weights deadline true ;;
             ret (- r')%float
           else ret score) ;;
      let it' :=
        if (ri_bestScore it <? score)%float
        then mkRootIter (if (alpha <? score)%float then score else alpha)
               move score (ri_failed it)
        else it in
      now <- getCurrentTime ;;
      if (deadline <? now)%float
      then ret (mkRootIter (ri_alpha it') (ri_bestMove it') (ri_bestScore it') true)
      else rootMoveLoop rootState rootPlayer weights deadline d beta rest false it'
  end.

(** What the deepening loop carries from one iteration to the next. *)
Record Deepening : Type := mkDeepening {
  dp_bestMove : Move;
  dp_bestScore : float;
  dp_searchedDepth : Z
}.

(** The window with which iteration [d] starts. *)
Definition rootWindow (d : Z) (bestScore : float) : float * float :=
  (if d =? 1 then neg_infinity else (bestScore - numZ ASPIRATION_WINDOW)%float,
   if d =? 1 then infinity else (bestScore + numZ ASPIRATION_WINDOW)%float).

(** [for (let d = 1; d <= maxDepth; d++)], over the list of the depths still
    to be searched. *)
Fixpoint deepeningLoop (rootState : GameState) (rootPlayer : Player)
  (weights : EvaluationWeights) (deadline : float) (moveCombos : list Move)
  (ds : list Z) (cur : Deepening) {struct ds} : M Deepening :=
  match ds with
  | [] => ret cur
  | d :: ds' =>
      now <- getCurrentTime ;;
      let timeLeft := (deadline - now)%float in
      if (timeLeft <? 100)%float then ret cur
      else
        let (alpha, beta) := rootWindow d (dp_bestScore cur) in
        sorted <- orderMoves moveCombos rootState rootPlayer rootPlayer weights d ;;
        it <- rootMoveLoop rootState rootPlayer weights deadline d beta sorted true
                (mkRootIter alpha (dp_bestMove cur) neg_infinity false) ;;
        let cur' :=
          if negb (ri_failed it) || (d =? 1)
          then mkDeepening (ri_bestMove it) (ri_bestScore it) d
          else cur in
        deepeningLoop rootState rootPlayer weights deadline moveCombos ds' cur'
  end.

(** The pre-selection of the 50 best root moves. *)
Definition preselectRootMoves (rootState : GameState) (rootPlayer : Player)
  (weights : EvaluationWeights) (moveCombos : list Move) : Result (list Move) :=
  rbind
    ((fix scoreAll (ms : list Move) : Result (list (Move * float)) :=
        match ms with
        | [] => Ok []
        | move :: rest =>
            rbind (applyMoveWithWinner rootState move) (fun next =>
              let base := evaluateState next rootPlayer weights in
              let myWins := countThreats true 0 (detectVCDT next rootPlayer) in
              rbind (scoreAll rest) (fun others =>
                Ok ((move, (base + numZ (myWins * 100000))%float) :: others)))
        end) moveCombos)
    (fun scored =>
       Ok (map fst (firstn (Z.to_nat MAX_ROOT_MOVE_COMBOS)
                      (sortBy (fun a b => (0 <? snd b - snd a)%float) scored)))).

Definition pvsSearchBestMove (rootState : GameState) (rootPlayer : Player)
  (weights : EvaluationWeights) (config : SearchConfig) : M AIMoveDecision :=
  modify (setNodeCount 0) ;;;
  resetKillers ;;;
  let maxDepth := Z.max 1 (maxDepth config) in
  let timeLimit := timeLimitMs config in
  t0 <- getCurrentTime ;;
  let deadline := (t0 + timeLimit)%float in
  vcdtRoot <- liftR (findVcdtRootMove rootState rootPlayer) ;;
  match vcdtRoot with
  | Some (vmove, reason) =>
      next <- liftR (applyMoveWithWinner rootState vmove) ;;
      let opp := switchPlayer rootPlayer in
      let remainDepth := Z.max 0 (maxDepth - 1) in
      score <-
        (if 0 <? remainDepth
         then
           r <- pvs (pvsFuel remainDepth) next rootPlayer opp neg_infinity infinity
                  remainDepth weights deadline true ;;
           ret (- r)%float
         else ret (evaluateState next rootPlayer weights)) ;;
      let searchedDepth := if 0 <? remainDepth then 1 + remainDepth else 1 in
      modify (setSearchDepth searchedDepth) ;;;
      nodes <- gets lastSearchNodeCount ;;
      tbl <- gets transpositionTable ;;
      ret (mkDecision vmove score
             (mkDebug vcdt_root (Some reason) searchedDepth nodes (mapSize tbl)))
  | None =>
      match generateTwoStoneMoves rootState (generateRZOPCandidates rootState) rootPlayer
            return M AIMoveDecision with
      | [] =>
          tbl <- gets transpositionTable ;;
          ret (mkDecision (findFallbackTwoStoneMove rootState rootPlayer)
                 (evaluateState rootState rootPlayer weights)
                 (mkDebug no_candidate_fallback None 0 0 (mapSize tbl)))
      | (first :: _) as moveCombos0 =>
          moveCombos <-
            (if MAX_ROOT_MOVE_COMBOS <? Z.of_nat (length moveCombos0)
             then liftR (preselectRootMoves rootState rootPlayer weights moveCombos0)
             else ret moveCombos0) ;;
          let bestMove0 := nth 0 moveCombos first in
          res <- deepeningLoop rootState rootPlayer weights deadline moveCombos
                   (map (fun k => k + 1) (range maxDepth))
                   (mkDeepening bestMove0 neg_infinity 0) ;;
          modify (setSearchDepth (dp_searchedDepth res)) ;;;
          nodes <- gets lastSearchNodeCount ;;
          tbl <- gets transpositionTable ;;
          ret (mkDecision (dp_bestMove res) (dp_bestScore res)
                 (mkDebug normal None (dp_searchedDepth res) nodes (mapSize tbl)))
      end
  end.

End Search.

(* ===================================================================== *)
(** ** core/mcts_ai_engine.ts: the final move of [decideMove] *)
(* ===================================================================== *)

(** The key [`${a.x},${a.y},${b.x},${b.y}`] of a child, as the four numbers
    [decodeMoveKey] reads back from it. *)
Definition MoveKey : Type := (Z * Z * Z * Z)%type.

Inductive MCTSNode : Type := mkNode {
  node_state : GameState;
  node_player : Player;
  node_visits : nat;
  node_wins : float;
  node_prior : float;
  node_children : list (MoveKey * MCTSNode);
  node_isExpanded : bool;
  node_lastVisitId : Z
}.

Definition encodeMoveKey (move : Move) : option MoveKey :=
  match positions move with
  | a :: b :: _ => Some (pos_x a, pos_y a, pos_x b, pos_y b)
  | _ => None
  end.

Definition decodeMoveKey (key : MoveKey) (player : Player) : Move :=
  match key with
  | (x1, y1, x2, y2) => mkMove player [mkPos x1 y1; mkPos x2 y2]
  end.

(** [child.visits > 0 ? child.wins / child.visits : 0] *)
Definition winRate (child : MCTSNode) : float :=
  if (0 <? node_visits child)%nat
  then (node_wins child / numZ (Z.of_nat (node_visits child)))%float
  else 0%float.

Record FinalPick : Type := mkPick {
  pick_bestMove : option Move;
  pick_bestVisits : Z;
  pick_bestScore : float
}.

(** The body of the loop over [rootNode.children.entries()]. *)
Definition finalPickStep (player : Player) (pick : FinalPick)
  (entry : MoveKey * MCTSNode) : FinalPick :=
  let child := snd entry in
  let rate := winRate child in
  let visits := Z.of_nat (node_visits child) in
  if (pick_bestVisits pick <? visits) ||
     ((visits =? pick_bestVisits pick) && (pick_bestScore pick <? rate)%float)
  then mkPick (Some (decodeMoveKey (fst entry) player)) visits rate
  else pick.

Record MCTSDecision : Type := mkMctsDecision {
  mcts_move : Move;
  mcts_score : float;
  mcts_rootVisits : nat
}.

(** [decideMove] once the simulations have run: the choice among the
    children of the root. *)
Definition decideMoveFinal (rootNode : MCTSNode) (player : Player) : Result MCTSDecision :=
  let pick := fold_left (finalPickStep player) (node_children rootNode)
                (mkPick None (-1) neg_infinity) in
  match pick_bestMove pick with
  | None => Throw NoMctsMove
  | Some bestMove => Ok (mkMctsDecision bestMove (pick_bestScore pick) (node_visits rootNode))
  end.

(* ===================================================================== *)
(** ** core/opening_book.ts *)
(* ===================================================================== *)

(** [Math.floor(BOARD_SIZE / 2)] on both axes. *)
Definition centerPosition : Position :=
  let c := BOARD_SIZE / 2 in mkPos c c.

Definition getOpeningMove (state : GameState) (player : Player) : option Move :=
  if negb (moveNumber state =? 0) then None
  else if negb (player_eqb player BLACK) then None
  else
    let hasStone :=
      existsb (fun row => existsb (fun c => negb (cell_eqb c Empty)) row) (board state) in
    if hasStone then None
    else
      let pos := centerPosition in
      if negb (cellIs (cellAtPos (board state) pos) Empty) then None
      else Some (mkMove BLACK [pos]).

(* ===================================================================== *)
(** ** strategy/hybrid_strategy.ts and strategy/position_complexity.ts *)
(* ===================================================================== *)

Inductive AIStrategy : Type := traditional | hybrid | deep.

Definition selectStrategy (step : Z) (complexity : float) : AIStrategy :=
  if step <=? 10 then traditional
  else if (step <=? 30) && (0.6 <? complexity)%float then hybrid
  else if (step <=? 30) && (complexity <=? 0.6)%float then traditional
  else if 30 <? step then traditional
  else hybrid.

(** [Math.min(1, x)]: NaN if [x] is NaN, otherwise the smaller one. *)
Definition mathMin1 (x : float) : float :=
  if PrimFloat.is_nan x then x
  else if (x <? 1)%float then x else 1%float.

(** The value [estimateComplexity] computes from its three counts. *)
Definition complexityOf (stones maxStones mixedRoads roads : Z) : float :=
  let stonesFactor := (numZ stones / numZ maxStones)%float in
  let mixedFactor := (numZ mixedRoads / numZ roads)%float in
  mathMin1 (stonesFactor * 0.5 + mixedFactor * 0.5)%float.

Definition estimateComplexity (state : GameState) : float :=
  let b := board state in
  let stones :=
    Z.of_nat (length (flat_map (filter (fun c => negb (cell_eqb c Empty))) b)) in
  let roads := getAllRoads in
  let mixedRoads :=
    Z.of_nat
      (length
         (filter
            (fun road =>
               let vals := roadValues state road in
               existsb (fun v => cellIs v Black) vals &&
               existsb (fun v => cellIs v White) vals)
            roads)) in
  let maxStones := Z.of_nat (length b) * Z.of_nat (length b) in
  complexityOf stones maxStones mixedRoads (Z.of_nat (length roads)).

(* ===================================================================== *)
(** ** core/mcts_ai_engine.ts: the selection step *)
(* ===================================================================== *)

(** [q + u] of a child in [selectChild]. *)
Definition uctScore (ucb : float) (parentVisits : nat) (child : MCTSNode) : float :=
  let q := if (0 <? node_visits child)%nat
           then (node_wins child / numZ (Z.of_nat (node_visits child)))%float
           else 0%float in
  let u := (ucb * node_prior child * PrimFloat.sqrt (numZ (Z.of_nat parentVisits))
            / (1 + numZ (Z.of_nat (node_visits child))))%float in
  (q + u)%float.

(** [selectChild]; [None] stands for the thrown ['No child to select']. *)
Definition selectChild (ucb : float) (node : MCTSNode) : option MCTSNode :=
  let parentVisits := Nat.max 1 (node_visits node) in
  fst (fold_left
         (fun (acc : option MCTSNode * float) (entry : MoveKey * MCTSNode) =>
            let child := snd entry in
            let score := uctScore ucb parentVisits child in
            if (snd acc <? score)%float then (Some child, score) else acc)
         (node_children node) (None, neg_infinity)).

(** [projectValueToRoot]: the sign of a value seen from the root player. *)
Definition projectValueToRoot (rootPlayer : option Player) (value : float)
  (perspective : Player) : float :=
  match rootPlayer with
  | None => value
  | Some rp => if player_eqb perspective rp then value else (- value)%float
  end.

(* ===================================================================== *)
(** ** core/self_play_optimizer.ts *)
(* ===================================================================== *)

Definition crossover (a b : EvaluationWeights) : EvaluationWeights :=
  mkWeights
    ((road_3_score a + road_3_score b) / 2)%float
    ((road_4_score a + road_4_score b) / 2)%float
    ((live4_score a + live4_score b) / 2)%float
    ((live5_score a + live5_score b) / 2)%float
    ((vcdt_bonus a + vcdt_bonus b) / 2)%float.

Section SelfPlay.

Variable clock : nat -> float.

(** The [while (!state.winner && steps < 36)] loop of one match; it runs at
    most 36 times, which is what [fuel] is sized for. *)
Fixpoint selfPlayLoop (fuel : nat) (weights : EvaluationWeights)
  (state : GameState) (player : Player) (steps : Z) : M (GameState * Z) :=
  match winner state with
  | Some _ => ret (state, steps)
  | None =>
      if negb (steps <? 36) then ret (state, steps)
      else
        match fuel with
        | O => liftR (Throw OutOfFuel)
        | S fuel' =>
            let dynamicDepth := if steps <? 10 then 2 else 3 in
            moveDecision <-
              pvsSearchBestMove clock state player weights
                (mkConfig dynamicDepth 120 false) ;;
            state' <- liftR (applyMoveWithWinner state (dec_move moveDecision)) ;;
            selfPlayLoop fuel' weights state'
              (match player with BLACK => WHITE | WHITE => BLACK end) (steps + 1)
        end
  end.

(** The score of a finished match. *)
Definition matchScore (weights : EvaluationWeights) (state : GameState) (steps : Z)
  : float :=
  let winnerScore :=
    match winner state with
    | Some (Won BLACK) => 1%float
    | Some (Won WHITE) => 0%float
    | _ => 0.5%float
    end in
  let ratio := (numZ steps / 40)%float in
  let longevityBonus := ((if (ratio <? 1)%float then ratio else 1) * 0.1)%float in
  let stability := (evaluateState state BLACK weights / 50000)%float in
  (winnerScore + longevityBonus + stability * 0.05)%float.

(** The [for (let match = 0; match < matchCount; match++)] loop. *)
Fixpoint selfPlayMatches (weights : EvaluationWeights) (ms : list Z)
  (totalScore : float) : M float :=
  match ms with
  | [] => ret totalScore
  | m :: ms' =>
      let player := if m mod 2 =? 0 then BLACK else WHITE in
      r <- selfPlayLoop 36 weights createInitialState player 0 ;;
      selfPlayMatches weights ms' (totalScore + matchScore weights (fst r) (snd r))%float
  end.

Definition selfPlay (weights : EvaluationWeights) (_generation : Z) : M float :=
  let matchCount := 4 in
  totalScore <- selfPlayMatches weights (range matchCount) 0%float ;;
  ret (totalScore / numZ matchCount)%float.

End SelfPlay.

(* ===================================================================== *)
(** * Properties *)
(* ===================================================================== *)

(** ** Generic facts about the loop combinators *)

Lemma range_In (n x : Z) : In x (range n) <-> 0 <= x < n.
Proof.
  unfold range. rewrite in_map_iff. split.
  - intros [k [<- Hk]]. apply in_seq in Hk. lia.
  - intros H. exists (Z.to_nat x). split; [lia|]. apply in_seq. lia.
Qed.

Lemma firstSome_Some {A B} (f : A -> option B) l b :
  firstSome f l = Some b -> exists a, In a l /\ f a = Some b.
Proof.
  induction l as [|a l IH]; simpl; [discriminate|].
  destruct (f a) eqn:E.
  - intros [= <-]. exists a. auto.
  - intros H. destruct (IH H) as [a' [Hin Ha']]. exists a'. auto.
Qed.

Lemma firstSome_None {A B} (f : A -> option B) l :
  firstSome f l = None <-> forall a, In a l -> f a = None.
Proof.
  induction l as [|a l IH]; simpl.
  - split; [intros _ a []|reflexivity].
  - destruct (f a) eqn:E.
    + split; [discriminate|]. intros H. rewrite <- E. apply H. now left.
    + rewrite IH. split.
      * intros H a' [<-|Hin]; auto.
      * intros H a' Hin. apply H. now right.
Qed.

Lemma firstSome_exists {A B} (f : A -> option B) l a b :
  In a l -> f a = Some b -> exists b', firstSome f l = Some b'.
Proof.
  intros Hin Hf. destruct (firstSome f l) eqn:E; [eauto|].
  rewrite firstSome_None in E. rewrite (E a Hin) in Hf. discriminate.
Qed.

Lemma player_eqb_eq p q : player_eqb p q = true <-> p = q.
Proof. destruct p, q; simpl; split; congruence. Qed.

Lemma cell_eqb_eq c d : cell_eqb c d = true <-> c = d.
Proof. destruct c, d; simpl; split; congruence. Qed.

Lemma cellIs_eq o c : cellIs o c = true <-> o = Some c.
Proof.
  unfold cellIs, ocell_eqb. destruct o as [d|]; [|split; discriminate].
  rewrite cell_eqb_eq. split; congruence.
Qed.

Lemma pos_eqb_eq p q : pos_eqb p q = true <-> p = q.
Proof.
  unfold pos_eqb. destruct p as [a b], q as [c d]; simpl.
  rewrite andb_true_iff, !Z.eqb_eq. split; [intros []|intros [=]]; subst; auto.
Qed.

Lemma pos_eqb_refl p : pos_eqb p p = true.
Proof. now apply pos_eqb_eq. Qed.

Lemma hasPos_In l p : hasPos l p = true <-> In p l.
Proof.
  unfold hasPos. rewrite existsb_exists. split.
  - intros [q [Hin Hq]]. apply pos_eqb_eq in Hq. now subst.
  - intros H. exists p. split; [assumption|apply pos_eqb_refl].
Qed.

Lemma cloneState_id s : cloneState s = s.
Proof. destruct s. unfold cloneState. simpl. now rewrite map_id. Qed.

(* ===================================================================== *)
(** ** rules.ts: move application *)
(* ===================================================================== *)

Definition emptyAt (b : Board) (p : Position) : Prop :=
  cellAt b (pos_x p) (pos_y p) = Some Empty.

(** What [applyMoveWithWinner] validates. *)
Definition acceptedMove (s : GameState) (m : Move) : Prop :=
  player m = currentPlayer s /\
  Z.of_nat (length (positions m)) = getStonesToPlace (moveNumber s) (player m) /\
  Forall (fun p => isInsideBoard p = true /\ emptyAt (board s) p) (positions m).

(** Legality as the specification words it: the validated conditions, and
    moreover distinct positions and a state without a winner. *)
Definition specLegalMove (s : GameState) (m : Move) : Prop :=
  acceptedMove s m /\ NoDup (positions m) /\ winner s = None.

Lemma checkPositions_Ok b ps :
  checkPositions b ps = Ok tt <->
  Forall (fun p => isInsideBoard p = true /\ emptyAt b p) ps.
Proof.
  induction ps as [|p ps IH]; simpl.
  - split; auto.
  - unfold isInsideBoard, emptyAt, BOARD_SIZE in *.
    destruct (pos_x p <? 0) eqn:E1; simpl.
    { split; [discriminate|]. intros H. inversion H as [|? ? [Hi _] _]; subst.
      apply Z.ltb_lt in E1. rewrite !andb_true_iff in Hi. lia. }
    destruct (19 <=? pos_x p) eqn:E2; simpl.
    { split; [discriminate|]. intros H. inversion H as [|? ? [Hi _] _]; subst.
      apply Z.leb_le in E2. rewrite !andb_true_iff in Hi. lia. }
    destruct (pos_y p <? 0) eqn:E3; simpl.
    { split; [discriminate|]. intros H. inversion H as [|? ? [Hi _] _]; subst.
      apply Z.ltb_lt in E3. rewrite !andb_true_iff in Hi. lia. }
    destruct (19 <=? pos_y p) eqn:E4; simpl.
    { split; [discriminate|]. intros H. inversion H as [|? ? [Hi _] _]; subst.
      apply Z.leb_le in E4. rewrite !andb_true_iff in Hi. lia. }
    destruct (cellIs (cellAt b (pos_x p) (pos_y p)) Empty) eqn:E5; simpl.
    + rewrite IH. apply cellIs_eq in E5. split.
      * intros H. constructor; [|assumption]. split; [|assumption].
        rewrite !andb_true_iff. lia.
      * intros H. now inversion H.
    + split; [discriminate|]. intros H. inversion H as [|? ? [_ He] _]; subst.
      apply cellIs_eq in He. congruence.
Qed.

Lemma checkPositions_unit b ps : forall u, checkPositions b ps = Ok u -> checkPositions b ps = Ok tt.
Proof. now intros []. Qed.

Lemma applyMoveWithWinner_Ok_iff s m :
  (exists s', applyMoveWithWinner s m = Ok s') <-> acceptedMove s m.
Proof.
  unfold applyMoveWithWinner, acceptedMove. rewrite cloneState_id.
  destruct (player_eqb (player m) (currentPlayer s)) eqn:Ep; simpl.
  2:{ split; [intros [? [=]]|]. intros [H _]. apply player_eqb_eq in H. congruence. }
  apply player_eqb_eq in Ep.
  destruct (Z.of_nat (length (positions m)) =? getStonesToPlace (moveNumber s) (player m)) eqn:En; simpl.
  2:{ split; [intros [? [=]]|]. intros [_ [H _]]. apply Z.eqb_neq in En. contradiction. }
  apply Z.eqb_eq in En.
  destruct (checkPositions (board s) (positions m)) as [[]|e] eqn:Ec; simpl.
  - apply checkPositions_Ok in Ec. split; [auto|]. intros _.
    destruct (checkWinner _); eauto.
  - split; [intros [? [=]]|]. intros [_ [_ H]]. apply checkPositions_Ok in H. congruence.
Qed.

(** On success the successor holds the stones of the move, the turn has
    passed to the other player and one more move is counted. *)
Lemma applyMoveWithWinner_successor s m s' :
  applyMoveWithWinner s m = Ok s' ->
  board s' = placeStones (board s) (positions m) (stoneOf (player m)) /\
  currentPlayer s' = otherPlayer (player m) /\
  moveNumber s' = moveNumber s + 1 /\
  lastMove s' = Some m /\
  winner s' = match checkWinner s' with Some w => Some w | None => winner s end.
Proof.
  unfold applyMoveWithWinner. rewrite cloneState_id.
  destruct (negb _); [discriminate|]. destruct (negb _); [discriminate|].
  destruct (checkPositions _ _); simpl; [|discriminate].
  match goal with |- context [checkWinner ?n] => destruct (checkWinner n) eqn:Ew end;
    intros [= <-]; simpl; repeat split; auto.
  - unfold checkWinner in *. simpl in *. now rewrite Ew.
  - unfold checkWinner in *. simpl in *. now rewrite Ew.
Qed.

Lemma applyMoveWithWinner_Throw_iff s m :
  (exists e, applyMoveWithWinner s m = Throw e) <-> ~ acceptedMove s m.
Proof.
  rewrite <- applyMoveWithWinner_Ok_iff.
  destruct (applyMoveWithWinner s m) as [s'|e].
  - split; [intros [? [=]]|]. intros H. exfalso. apply H. eauto.
  - split; [|eauto]. intros _ [? [=]].
Qed.

(** C1 (as the code has it): [applyMoveWithWinner] succeeds exactly when the
    move is by the player to move, has [getStonesToPlace] positions, and
    every position is in bounds and empty; every other move makes it throw,
    so an invalid move is never silently ignored.  Distinctness of the
    positions and the [winner] field are not part of the test. *)
Theorem applyMoveWithWinner_accepts_iff :
  forall (s : GameState) (m : Move),
    ((exists s', applyMoveWithWinner s m = Ok s') <-> acceptedMove s m) /\
    ((exists e, applyMoveWithWinner s m = Throw e) <-> ~ acceptedMove s m).
Proof.
  intros s m. split; [apply applyMoveWithWinner_Ok_iff|apply applyMoveWithWinner_Throw_iff].
Qed.

(** Two inputs on which the legality test of the specification and the code
    part ways: a two-stone move that names the same empty cell twice, and a
    regular move applied to a state whose winner is already set. *)
Definition stateAfterOpening : GameState :=
  {| board := setCell createEmptyBoard 9 9 Black;
     currentPlayer := WHITE;
     moveNumber := 1;
     lastMove := Some (mkMove BLACK [mkPos 9 9]);
     winner := None |}.

Definition doubledMove : Move := mkMove WHITE [mkPos 0 0; mkPos 0 0].

Definition stateAlreadyWon : GameState :=
  {| board := placeStones createEmptyBoard
                [mkPos 0 0; mkPos 1 0; mkPos 2 0; mkPos 3 0; mkPos 4 0; mkPos 5 0] Black;
     currentPlayer := WHITE;
     moveNumber := 7;
     lastMove := None;
     winner := Some (Won BLACK) |}.

Definition moveAfterEnd : Move := mkMove WHITE [mkPos 10 10; mkPos 11 11].

(** C1, refuted as stated: the code accepts a move with a repeated position
    and a move on a finished game. *)
Lemma applyMoveWithWinner_not_spec_legal :
  (exists s', applyMoveWithWinner stateAfterOpening doubledMove = Ok s') /\
  ~ specLegalMove stateAfterOpening doubledMove /\
  (exists s', applyMoveWithWinner stateAlreadyWon moveAfterEnd = Ok s') /\
  ~ specLegalMove stateAlreadyWon moveAfterEnd.
Proof.
  split; [|split; [|split]].
  - vm_compute. eauto.
  - intros [_ [Hnd _]]. inversion Hnd as [|? ? Hnin _]; subst. apply Hnin. now left.
  - vm_compute. eauto.
  - intros [_ [_ Hw]]. discriminate Hw.
Qed.

(* ===================================================================== *)
(** ** rules.ts: six-in-a-row detection *)
(* ===================================================================== *)

(** Six consecutive cells from [(x, y)] in direction [(dx, dy)], all on the
    board and all holding [p]'s stone. *)
Definition sixFrom (b : Board) (p : Player) (x y dx dy : Z) : Prop :=
  forall k, 0 <= k < 6 ->
    inBoard (x + k * dx) (y + k * dy) = true /\
    cellAt b (x + k * dx) (y + k * dy) = Some (stoneOf p).

(** The board holds a straight line of six (hence of at least six) stones of
    [p]: horizontal, vertical or along one of the two diagonals. *)
Definition hasSix (b : Board) (p : Player) : Prop :=
  exists x y dx dy, In (dx, dy) DIRS /\ sixFrom b p x y dx dy.

Definition boardFull (b : Board) : Prop :=
  forall x y, inBoard x y = true -> cellAt b x y <> Some Empty.

Lemma inBoard_iff x y : inBoard x y = true <-> 0 <= x < 19 /\ 0 <= y < 19.
Proof. unfold inBoard, BOARD_SIZE. rewrite !andb_true_iff. lia. Qed.

Lemma wf_cellAt b x y :
  wfBoard b -> inBoard x y = true -> exists c, cellAt b x y = Some c.
Proof.
  intros [Hl Hr] Hin. apply inBoard_iff in Hin. unfold cellAt, BOARD_SIZE in *.
  replace ((x <? 0) || (y <? 0)) with false
    by (symmetry; apply orb_false_iff; split; apply Z.ltb_ge; lia).
  destruct (nth_error b (Z.to_nat y)) as [row|] eqn:Er.
  - rewrite Forall_forall in Hr. apply nth_error_In in Er as Hi. apply Hr in Hi.
    destruct (nth_error row (Z.to_nat x)) eqn:Ex; [eauto|].
    apply nth_error_None in Ex. lia.
  - apply nth_error_None in Er. lia.
Qed.

Arguments countRun : simpl never.

Lemma countRun_unfold fuel b cell dx dy nx ny count :
  countRun (S fuel) b cell dx dy nx ny count =
  if inBoard nx ny && ocell_eqb (cellAt b nx ny) cell
  then countRun fuel b cell dx dy (nx + dx) (ny + dy) (count + 1)
  else count.
Proof. reflexivity. Qed.

Lemma countRun_lower fuel b cell dx dy nx ny count :
  count <= countRun fuel b cell dx dy nx ny count.
Proof.
  revert nx ny count. induction fuel as [|f IH]; intros; [unfold countRun; lia|].
  rewrite countRun_unfold. destruct (_ && _); [|lia]. specialize (IH (nx + dx) (ny + dy) (count + 1)). lia.
Qed.

(** The run counter reaches [count + n] exactly when the next [n] cells are
    on the board and equal to [cell]. *)
Lemma countRun_reaches n : forall fuel b cell dx dy nx ny count,
  (n <= fuel)%nat ->
  (count + Z.of_nat n <= countRun fuel b cell dx dy nx ny count <->
   forall k, 0 <= k < Z.of_nat n ->
     inBoard (nx + k * dx) (ny + k * dy) = true /\
     ocell_eqb (cellAt b (nx + k * dx) (ny + k * dy)) cell = true).
Proof.
  induction n as [|n IH]; intros fuel b cell dx dy nx ny count Hf.
  - split; [intros _ k Hk; lia|]. intros _. pose proof (countRun_lower fuel b cell dx dy nx ny count). lia.
  - destruct fuel as [|f]; [lia|]. rewrite countRun_unfold.
    destruct (inBoard nx ny && ocell_eqb (cellAt b nx ny) cell) eqn:E.
    + apply andb_true_iff in E as [E1 E2].
      replace (count + Z.of_nat (S n)) with ((count + 1) + Z.of_nat n) by lia.
      rewrite (IH f b cell dx dy (nx + dx) (ny + dy) (count + 1)) by lia.
      split.
      * intros H k Hk. destruct (Z.eq_dec k 0) as [->|Hk0].
        { now rewrite !Z.mul_0_l, !Z.add_0_r. }
        specialize (H (k - 1) ltac:(lia)).
        replace (nx + dx + (k - 1) * dx) with (nx + k * dx) in H by lia.
        replace (ny + dy + (k - 1) * dy) with (ny + k * dy) in H by lia.
        exact H.
      * intros H k Hk. specialize (H (k + 1) ltac:(lia)).
        replace (nx + (k + 1) * dx) with (nx + dx + k * dx) in H by lia.
        replace (ny + (k + 1) * dy) with (ny + dy + k * dy) in H by lia.
        exact H.
    + split; [lia|]. intros H. specialize (H 0 ltac:(lia)).
      rewrite !Z.mul_0_l, !Z.add_0_r in H. destruct H as [H1 H2].
      rewrite H1, H2 in E. discriminate.
Qed.

(** Nineteen steps always leave the board, so the bounded loop is the
    unbounded one: more fuel changes nothing. *)
Lemma countRun_fuel_stable b cell dx dy : In (dx, dy) DIRS ->
  forall fuel extra nx ny count,
    (Z.to_nat (19 - (if dx =? 1 then nx else ny))%Z <= fuel)%nat ->
    countRun (fuel + extra) b cell dx dy nx ny count =
    countRun fuel b cell dx dy nx ny count.
Proof.
  intros Hd. induction fuel as [|f IH]; intros extra nx ny count Hf.
  - simpl. destruct extra; [reflexivity|]. rewrite countRun_unfold.
    replace (inBoard nx ny) with false; [reflexivity|]. symmetry.
    apply not_true_iff_false. rewrite inBoard_iff.
    simpl in Hd. destruct Hd as [[= <- <-]|[[= <- <-]|[[= <- <-]|[[= <- <-]|[]]]]];
      cbv [Z.eqb Pos.eqb] in Hf; lia.
  - change (S f + extra)%nat with (S (f + extra)). rewrite !countRun_unfold.
    destruct (inBoard nx ny) eqn:Ei; [|reflexivity]. simpl andb.
    destruct (ocell_eqb _ _); [|reflexivity]. apply IH.
    apply inBoard_iff in Ei.
    simpl in Hd. destruct Hd as [[= <- <-]|[[= <- <-]|[[= <- <-]|[[= <- <-]|[]]]]];
      cbv [Z.eqb Pos.eqb] in Hf |- *; lia.
Qed.

Lemma winnerAt_Some b x y p :
  wfBoard b -> inBoard x y = true ->
  (winnerAt b x y = Some p <->
   exists dx dy, In (dx, dy) DIRS /\ sixFrom b p x y dx dy).
Proof.
  intros Hwf Hin. destruct (wf_cellAt b x y Hwf Hin) as [c Hc].
  unfold winnerAt. rewrite Hc.
  assert (Hrun : forall dx dy,
    (6 <=? countRun (Z.to_nat BOARD_SIZE) b (Some c) dx dy (x + dx) (y + dy) 1) = true <->
    forall k, 1 <= k < 6 ->
      inBoard (x + k * dx) (y + k * dy) = true /\
      cellAt b (x + k * dx) (y + k * dy) = Some c).
  { intros dx dy. rewrite Z.leb_le.
    change 6 with (1 + Z.of_nat 5).
    rewrite countRun_reaches by (vm_compute; lia). split.
    - intros H k Hk. specialize (H (k - 1) ltac:(lia)).
      replace (x + dx + (k - 1) * dx) with (x + k * dx) in H by lia.
      replace (y + dy + (k - 1) * dy) with (y + k * dy) in H by lia.
      destruct H as [H1 H2]. split; [assumption|].
      destruct (cellAt b (x + k * dx) (y + k * dy)) as [d|]; simpl in H2; [|discriminate].
      apply cell_eqb_eq in H2. now subst.
    - intros H k Hk. specialize (H (k + 1) ltac:(lia)).
      replace (x + (k + 1) * dx) with (x + dx + k * dx) in H by lia.
      replace (y + (k + 1) * dy) with (y + dy + k * dy) in H by lia.
      destruct H as [H1 H2]. split; [assumption|]. rewrite H2. simpl.
      now apply cell_eqb_eq. }
  destruct (cellIs (Some c) Empty) eqn:Ee.
  { apply cellIs_eq in Ee. injection Ee as ->. split; [discriminate|].
    intros [dx [dy [_ H]]]. specialize (H 0 ltac:(lia)).
    rewrite !Z.mul_0_l, !Z.add_0_r in H. destruct H as [_ H]. rewrite Hc in H.
    destruct p; discriminate. }
  cbv iota. split.
  - intros H. apply firstSome_Some in H as [[dx dy] [Hd H]].
    destruct (6 <=? _) eqn:E6; [|discriminate]. injection H as <-.
    exists dx, dy. split; [assumption|]. intros k Hk.
    assert (Hcp : Some c = Some (stoneOf (if cellIs (Some c) Black then BLACK else WHITE))).
    { destruct c; simpl in *; congruence. }
    destruct (Z.eq_dec k 0) as [->|Hk0].
    + rewrite !Z.mul_0_l, !Z.add_0_r. split; [assumption|]. now rewrite Hc.
    + destruct (Hrun dx dy) as [Hr _]. specialize (Hr E6 k ltac:(lia)).
      destruct Hr as [Hr1 Hr2]. split; [assumption|]. now rewrite Hr2, Hcp.
  - intros [dx [dy [Hd H]]].
    assert (Hcp : c = stoneOf p).
    { specialize (H 0 ltac:(lia)). rewrite !Z.mul_0_l, !Z.add_0_r in H.
      destruct H as [_ H]. congruence. }
    assert (H6 : (6 <=? countRun (Z.to_nat BOARD_SIZE) b (Some c) dx dy (x + dx) (y + dy) 1) = true).
    { apply Hrun. intros k Hk. rewrite Hcp. apply H. lia. }
    match goal with |- ?lhs = _ => destruct lhs as [q|] eqn:Hq end.
    + apply firstSome_Some in Hq as [[dx0 dy0] [_ Hq]].
      cbv zeta in Hq.
      destruct (6 <=? countRun _ _ _ dx0 dy0 _ _ _); [|discriminate]. injection Hq as <-.
      subst c. f_equal. now destruct p.
    + exfalso. rewrite firstSome_None in Hq. specialize (Hq (dx, dy) Hd).
      cbv beta iota zeta in Hq. rewrite H6 in Hq. discriminate.
Qed.

Lemma sixFrom_start_inBoard b p x y dx dy :
  sixFrom b p x y dx dy -> inBoard x y = true.
Proof.
  intros H. specialize (H 0 ltac:(lia)). now rewrite !Z.mul_0_l, !Z.add_0_r in H.
Qed.

Lemma scan_Some b p :
  wfBoard b ->
  firstSome (fun y => firstSome (fun x => winnerAt b x y) (range BOARD_SIZE))
    (range BOARD_SIZE) = Some p ->
  hasSix b p.
Proof.
  intros Hwf H. apply firstSome_Some in H as [y [Hy H]].
  apply firstSome_Some in H as [x [Hx H]].
  apply range_In in Hx, Hy. unfold BOARD_SIZE in *.
  apply winnerAt_Some in H; [|assumption|apply inBoard_iff; lia].
  destruct H as [dx [dy H]]. now exists x, y, dx, dy.
Qed.

Lemma scan_finds b p :
  wfBoard b -> hasSix b p ->
  exists q, firstSome (fun y => firstSome (fun x => winnerAt b x y) (range BOARD_SIZE))
              (range BOARD_SIZE) = Some q.
Proof.
  intros Hwf [x [y [dx [dy [Hd H]]]]].
  pose proof (sixFrom_start_inBoard _ _ _ _ _ _ H) as Hin.
  assert (Hw : winnerAt b x y = Some p) by (apply winnerAt_Some; eauto).
  apply inBoard_iff in Hin.
  destruct (firstSome_exists (fun x => winnerAt b x y) (range BOARD_SIZE) x p) as [q Hq];
    [apply range_In; unfold BOARD_SIZE; lia|assumption|].
  eapply firstSome_exists with (a := y); [apply range_In; unfold BOARD_SIZE; lia|exact Hq].
Qed.

Lemma hasEmptyCell_false b : hasEmptyCell b = false <-> boardFull b.
Proof.
  unfold hasEmptyCell, boardFull. split.
  - intros H x y Hin Hc. apply inBoard_iff in Hin.
    apply not_true_iff_false in H. apply H.
    apply existsb_exists. exists y. split; [apply range_In; unfold BOARD_SIZE; lia|].
    apply existsb_exists. exists x. split; [apply range_In; unfold BOARD_SIZE; lia|].
    now apply cellIs_eq.
  - intros H. apply not_true_iff_false. intros Hex.
    apply existsb_exists in Hex as [y [Hy Hex]].
    apply existsb_exists in Hex as [x [Hx Hex]].
    apply range_In in Hx, Hy. unfold BOARD_SIZE in *.
    apply cellIs_eq in Hex. apply (H x y); [apply inBoard_iff; lia|assumption].
Qed.

(** The first iteration of a [for] loop over [0 .. n-1] that returns. *)
Lemma firstSome_seq_first {B} (f : Z -> option B) (v : B) : forall len start,
  firstSome f (map Z.of_nat (seq start len)) = Some v <->
  exists i, (start <= i < start + len)%nat /\ f (Z.of_nat i) = Some v /\
            forall j, (start <= j < i)%nat -> f (Z.of_nat j) = None.
Proof.
  induction len as [|len IH]; intros start; cbn [seq map firstSome].
  - split; [discriminate|]. intros (i & Hi & _). lia.
  - destruct (f (Z.of_nat start)) as [w|] eqn:E.
    + split.
      * intros [= <-]. exists start. split; [lia|]. split; [exact E|]. intros j Hj. lia.
      * intros (i & Hi & Hv & Hbefore).
        destruct (Nat.eq_dec i start) as [->|Hne]; [congruence|].
        rewrite (Hbefore start) in E by lia. discriminate.
    + rewrite IH. split.
      * intros (i & Hi & Hv & Hbefore). exists i. split; [lia|]. split; [exact Hv|].
        intros j Hj. destruct (Nat.eq_dec j start) as [->|Hne]; [exact E|].
        apply Hbefore. lia.
      * intros (i & Hi & Hv & Hbefore). exists i.
        assert (i <> start) by congruence.
        split; [lia|]. split; [exact Hv|]. intros j Hj. apply Hbefore. lia.
Qed.

Lemma firstSome_range_first {B} (f : Z -> option B) (n : Z) (v : B) :
  firstSome f (range n) = Some v <->
  exists i, 0 <= i < n /\ f i = Some v /\ forall j, 0 <= j < i -> f j = None.
Proof.
  unfold range. rewrite firstSome_seq_first. split.
  - intros (i & Hi & Hv & Hbefore). exists (Z.of_nat i). split; [lia|]. split; [exact Hv|].
    intros j Hj. rewrite <- (Z2Nat.id j) by lia. apply Hbefore. lia.
  - intros (i & Hi & Hv & Hbefore). exists (Z.to_nat i). rewrite Z2Nat.id by lia.
    split; [lia|]. split; [exact Hv|]. intros j Hj. apply Hbefore. lia.
Qed.

(** Six stones of [p] extend from [(x, y)] in one of the four directions
    the scan follows: to the right, downwards, down-right or up-right. *)
Definition startsSix (b : Board) (p : Player) (x y : Z) : Prop :=
  exists dx dy, In (dx, dy) DIRS /\ sixFrom b p x y dx dy.

(** [(x, y)] is the first cell of the row-major scan (rows by increasing
    [y], each by increasing [x]) from which six stones of one colour
    extend. *)
Definition firstSixStart (b : Board) (x y : Z) : Prop :=
  forall q x' y', startsSix b q x' y' -> y < y' \/ (y = y' /\ x <= x').

Lemma scan_first b p :
  wfBoard b ->
  (firstSome (fun y => firstSome (fun x => winnerAt b x y) (range BOARD_SIZE))
     (range BOARD_SIZE) = Some p <->
   exists x y, startsSix b p x y /\ firstSixStart b x y).
Proof.
  intros Hwf.
  assert (Hfwd : forall p0,
    firstSome (fun y => firstSome (fun x => winnerAt b x y) (range BOARD_SIZE))
      (range BOARD_SIZE) = Some p0 ->
    exists x y, startsSix b p0 x y /\ firstSixStart b x y).
  { intros p0 H. apply firstSome_range_first in H. destruct H as (y & Hy & Hrow & Hrows).
    apply firstSome_range_first in Hrow. destruct Hrow as (x & Hx & Hcell & Hcells).
    unfold BOARD_SIZE in Hx, Hy.
    exists x, y. split.
    - apply winnerAt_Some in Hcell; [exact Hcell|exact Hwf|apply inBoard_iff; lia].
    - intros q x' y' Hq.
      assert (Hin : inBoard x' y' = true).
      { destruct Hq as (dx & dy & _ & Hsix). exact (sixFrom_start_inBoard _ _ _ _ _ _ Hsix). }
      assert (Hw : winnerAt b x' y' = Some q) by (apply winnerAt_Some; assumption).
      apply inBoard_iff in Hin.
      destruct (Z_lt_ge_dec y' y) as [Hlt|Hge].
      + specialize (Hrows y' ltac:(lia)). rewrite firstSome_None in Hrows.
        rewrite (Hrows x') in Hw; [discriminate|]. apply range_In. unfold BOARD_SIZE. lia.
      + destruct (Z.eq_dec y' y) as [->|Hne]; [|left; lia].
        right. split; [reflexivity|].
        destruct (Z_lt_ge_dec x' x) as [Hlt|Hge']; [|lia].
        rewrite (Hcells x') in Hw by lia. discriminate. }
  split; [apply Hfwd|].
  intros (x & y & Hp & Hfirst).
  destruct (scan_finds b p Hwf) as [q Hq].
  { destruct Hp as (dx & dy & Hd & Hsix). now exists x, y, dx, dy. }
  destruct (Hfwd q Hq) as (x0 & y0 & Hq0 & Hfirst0).
  pose proof (Hfirst q x0 y0 Hq0) as H1. pose proof (Hfirst0 p x y Hp) as H2.
  assert (x0 = x /\ y0 = y) as [-> ->] by lia.
  destruct Hp as (dx & dy & _ & Hsix), Hq0 as (dx0 & dy0 & _ & Hsix0).
  destruct (Hsix 0 ltac:(lia)) as [_ Hc]. destruct (Hsix0 0 ltac:(lia)) as [_ Hc0].
  rewrite !Z.mul_0_l, !Z.add_0_r in Hc, Hc0. rewrite Hc in Hc0.
  rewrite Hq. f_equal. destruct p, q; try reflexivity; discriminate.
Qed.

(** C5 (as the code has it): on a 19x19 board [checkWinner] names a player
    only if that player has six in a row; it names some player as soon as
    any player has six in a row, and names [p] whenever [p] is the only one
    who has; it answers [DRAW] exactly when the board is full and nobody has
    six in a row.  When both have six in a row the scan order decides: the
    answer is [p] exactly when the first cell of the row-major scan from
    which six stones of one colour extend (to the right, downwards,
    down-right or up-right) starts six stones of [p]. *)
Theorem checkWinner_sound_complete :
  forall (s : GameState), wfBoard (board s) ->
    (forall p, checkWinner s = Some (Won p) -> hasSix (board s) p) /\
    ((exists p, hasSix (board s) p) <-> (exists p, checkWinner s = Some (Won p))) /\
    (forall p, hasSix (board s) p -> ~ hasSix (board s) (otherPlayer p) ->
               checkWinner s = Some (Won p)) /\
    (checkWinner s = Some DRAW <->
     boardFull (board s) /\ forall p, ~ hasSix (board s) p) /\
    (forall p, checkWinner s = Some (Won p) <->
               exists x y, startsSix (board s) p x y /\ firstSixStart (board s) x y).
Proof.
  intros s Hwf.
  assert (Hsound : forall p, checkWinner s = Some (Won p) -> hasSix (board s) p).
  { intros p H. unfold checkWinner in H.
    destruct (firstSome _ _) as [q|] eqn:E.
    - injection H as ->. now apply scan_Some.
    - destruct (hasEmptyCell _); discriminate. }
  assert (Hcomplete : forall p, hasSix (board s) p -> exists q, checkWinner s = Some (Won q)).
  { intros p H. destruct (scan_finds _ _ Hwf H) as [q Hq].
    exists q. unfold checkWinner. now rewrite Hq. }
  split; [exact Hsound|]. split; [|split; [|split]].
  - split; intros [p H]; eauto.
  - intros p Hp Hnot. destruct (Hcomplete p Hp) as [q Hq].
    destruct p, q; auto; apply Hsound in Hq; contradiction.
  - unfold checkWinner. destruct (firstSome _ _) as [q|] eqn:E.
    + split; [discriminate|]. intros [_ H]. exfalso. apply (H q). now apply scan_Some.
    + destruct (hasEmptyCell (board s)) eqn:Ee.
      * split; [discriminate|]. intros [H _]. apply hasEmptyCell_false in H. congruence.
      * split; [|reflexivity]. intros _. split; [now apply hasEmptyCell_false|].
        intros p Hp. destruct (scan_finds _ _ Hwf Hp) as [q Hq]. congruence.
  - intros p. rewrite <- (scan_first (board s) p Hwf). unfold checkWinner.
    destruct (firstSome _ _) as [q|].
    + split; [now intros [= ->]|now intros [= ->]].
    + split; [|discriminate]. destruct (hasEmptyCell _); discriminate.
Qed.

Lemma wfBoardb_true b : wfBoardb b = true -> wfBoard b.
Proof.
  unfold wfBoardb, wfBoard. rewrite andb_true_iff, forallb_forall, Forall_forall.
  intros [H1 H2]. split; [now apply Nat.eqb_eq|]. intros r Hr. now apply Nat.eqb_eq, H2.
Qed.

(** A position in which both colours have six in a row (reachable because
    play may continue after a win): Black's row is met first by the scan. *)
Definition bothSixBoard : Board :=
  placeStones
    (placeStones createEmptyBoard
       [mkPos 0 0; mkPos 1 0; mkPos 2 0; mkPos 3 0; mkPos 4 0; mkPos 5 0] Black)
    [mkPos 0 2; mkPos 1 2; mkPos 2 2; mkPos 3 2; mkPos 4 2; mkPos 5 2] White.

Definition bothSixState : GameState :=
  {| board := bothSixBoard; currentPlayer := BLACK; moveNumber := 7;
     lastMove := None; winner := None |}.

Lemma sixFrom_row (b : Board) (p : Player) (y : Z) :
  forallb (fun k => inBoard k y && cellIs (cellAt b k y) (stoneOf p)) (range 6) = true ->
  sixFrom b p 0 y 1 0.
Proof.
  intros H k Hk. rewrite forallb_forall in H.
  specialize (H k (proj2 (range_In 6 k) Hk)). apply andb_true_iff in H as [H1 H2].
  replace (0 + k * 1) with k by lia. replace (y + k * 0) with y by lia.
  split; [assumption|now apply cellIs_eq].
Qed.

(** Both colours have six in a row; Black's starts at the first cell of the
    scan, so the answer is Black. *)
Lemma checkWinner_sound_complete_witness :
  wfBoard (board bothSixState) /\
  hasSix (board bothSixState) BLACK /\
  hasSix (board bothSixState) WHITE /\
  checkWinner bothSixState = Some (Won BLACK).
Proof.
  assert (Hwf : wfBoard (board bothSixState)) by (apply wfBoardb_true; vm_compute; reflexivity).
  assert (HB : sixFrom (board bothSixState) BLACK 0 0 1 0)
    by (apply sixFrom_row; vm_compute; reflexivity).
  assert (HW : sixFrom (board bothSixState) WHITE 0 2 1 0)
    by (apply sixFrom_row; vm_compute; reflexivity).
  split; [exact Hwf|].
  split; [exists 0, 0, 1, 0; split; [now left|exact HB]|].
  split; [exists 0, 2, 1, 0; split; [now left|exact HW]|].
  apply (proj2 (proj2 (proj2 (proj2 (proj2 (checkWinner_sound_complete bothSixState Hwf))))
                  BLACK)).
  exists 0, 0. split; [exists 1, 0; split; [now left|exact HB]|].
  intros q x' y' (dx & dy & _ & Hsix).
  pose proof (proj1 (inBoard_iff _ _) (sixFrom_start_inBoard _ _ _ _ _ _ Hsix)). lia.
Defined.

(** C5, refuted as stated: White has six in a row on this board, yet the
    answer is Black; "returns [p] iff [p] has a line" fails for White. *)
Lemma checkWinner_not_iff_line :
  wfBoard (board bothSixState) /\
  hasSix (board bothSixState) WHITE /\
  checkWinner bothSixState <> Some (Won WHITE).
Proof.
  split; [apply wfBoardb_true; vm_compute; reflexivity|]. split.
  - exists 0, 2, 1, 0. split; [now left|]. apply sixFrom_row. vm_compute. reflexivity.
  - vm_compute. discriminate.
Qed.

(* ===================================================================== *)
(** ** evaluation.ts: the road term *)
(* ===================================================================== *)

(** Swapping the two colours swaps the roles of the two run counters. *)
Definition mirrorRun (st : RunState) : RunState :=
  {| myMax := oppMax st; oppMax := myMax st; myCur := oppCur st; oppCur := myCur st |}.

Lemma countMaxRunStep_mirror code p st i :
  countMaxRunStep code (otherPlayer p) (mirrorRun st) i =
  mirrorRun (countMaxRunStep code p st i).
Proof.
  unfold countMaxRunStep, mirrorRun. cbn [myMax oppMax myCur oppCur].
  set (bits := Z.land (Z.shiftr code (i * 2)) 3).
  destruct p; cbn [otherPlayer];
    destruct (bits =? 1) eqn:E1; destruct (bits =? 2) eqn:E2;
    try (apply Z.eqb_eq in E1; apply Z.eqb_eq in E2; lia); reflexivity.
Qed.

Lemma countMaxRun_fold_mirror code p idxs st :
  fold_left (countMaxRunStep code (otherPlayer p)) idxs (mirrorRun st) =
  mirrorRun (fold_left (countMaxRunStep code p) idxs st).
Proof.
  revert st. induction idxs as [|i idxs IH]; intros st; simpl; [reflexivity|].
  now rewrite countMaxRunStep_mirror, IH.
Qed.

Lemma countMaxRun_swap code p :
  countMaxRun code (otherPlayer p) =
  (snd (countMaxRun code p), fst (countMaxRun code p)).
Proof.
  unfold countMaxRun.
  pose proof (countMaxRun_fold_mirror code p (range 6) (mkRun 0 0 0 0)) as H.
  change (mirrorRun (mkRun 0 0 0 0)) with (mkRun 0 0 0 0) in H.
  rewrite H. clear H. destruct (fold_left _ _ _). reflexivity.
Qed.

(** The code's test "[myMax >= 6] on this road". *)
Definition roadHasSix (s : GameState) (p : Player) (r : Road) : bool :=
  6 <=? fst (countMaxRun (encodeRoad s r) p).

(** Every cell of the road holds a stone of [p]. *)
Definition roadFull (s : GameState) (p : Player) (r : Road) : bool :=
  forallb (fun c => cellIs (cellAtPos (board s) c) (stoneOf p)) (cells r).

(** Number of roads filled with six stones of [p]. *)
Definition fullRoads (s : GameState) (p : Player) : Z :=
  countRoads (roadFull s p).

Definition allCellValues : list (option Cell) :=
  [None; Some Empty; Some Black; Some White].

Lemma forall_cell_value (P : option Cell -> bool) :
  forallb P allCellValues = true -> forall v, P v = true.
Proof.
  unfold allCellValues. cbn [forallb]. rewrite !andb_true_iff.
  intros [H0 [H1 [H2 [H3 _]]]] [[]|]; assumption.
Qed.

Lemma forall_player (P : Player -> bool) :
  forallb P [BLACK; WHITE] = true -> forall p, P p = true.
Proof.
  cbn [forallb]. rewrite !andb_true_iff. intros [H0 [H1 _]] []; assumption.
Qed.

Local Abbreviation sixRunAgrees p vs :=
  (Bool.eqb (6 <=? fst (countMaxRun (encodeCells 0 vs 0) p))
            (forallb (fun v => cellIs v (stoneOf p)) vs)).

(** All 2 * 4^6 fillings of a road, checked by evaluation. *)
Lemma sixRunAgrees_all :
  forallb (fun p =>
    forallb (fun a => forallb (fun b => forallb (fun c =>
    forallb (fun d => forallb (fun e => forallb (fun f =>
      sixRunAgrees p [a; b; c; d; e; f])
    allCellValues) allCellValues) allCellValues)
    allCellValues) allCellValues) allCellValues)
  [BLACK; WHITE] = true.
Proof. vm_compute. reflexivity. Qed.

Lemma sixRunAgrees_true (p : Player) (a b c d e f : option Cell) :
  sixRunAgrees p [a; b; c; d; e; f] = true.
Proof.
  revert f. apply forall_cell_value.
  revert e. apply (forall_cell_value (fun e => forallb (fun f => sixRunAgrees p [a; b; c; d; e; f]) allCellValues)).
  revert d. apply (forall_cell_value (fun d => forallb (fun e => forallb (fun f =>
    sixRunAgrees p [a; b; c; d; e; f]) allCellValues) allCellValues)).
  revert c. apply (forall_cell_value (fun c => forallb (fun d => forallb (fun e => forallb (fun f =>
    sixRunAgrees p [a; b; c; d; e; f]) allCellValues) allCellValues) allCellValues)).
  revert b. apply (forall_cell_value (fun b => forallb (fun c => forallb (fun d =>
    forallb (fun e => forallb (fun f =>
    sixRunAgrees p [a; b; c; d; e; f]) allCellValues) allCellValues) allCellValues) allCellValues)).
  revert a. apply (forall_cell_value (fun a => forallb (fun b => forallb (fun c => forallb (fun d =>
    forallb (fun e => forallb (fun f =>
    sixRunAgrees p [a; b; c; d; e; f]) allCellValues) allCellValues) allCellValues) allCellValues)
    allCellValues)).
  revert p. apply (forall_player (fun p => forallb (fun a => forallb (fun b => forallb (fun c =>
    forallb (fun d => forallb (fun e => forallb (fun f =>
      sixRunAgrees p [a; b; c; d; e; f])
    allCellValues) allCellValues) allCellValues)
    allCellValues) allCellValues) allCellValues)).
  exact sixRunAgrees_all.
Qed.

Lemma six_run_is_full_road (p : Player) (a b c d e f : option Cell) :
  (6 <=? fst (countMaxRun (encodeCells 0 [a; b; c; d; e; f] 0) p)) =
  forallb (fun v => cellIs v (stoneOf p)) [a; b; c; d; e; f].
Proof.
  apply eqb_prop. exact (sixRunAgrees_true p a b c d e f).
Qed.

(** The road table is only ever evaluated as a whole. *)
Opaque ALL_ROADS.

Lemma ALL_ROADS_six_cells : Forall (fun r => length (cells r) = 6%nat) ALL_ROADS.
Proof.
  apply Forall_forall. intros r Hr.
  assert (H : forallb (fun r => (length (cells r) =? 6)%nat) ALL_ROADS = true)
    by (vm_compute; reflexivity).
  apply Nat.eqb_eq. exact (proj1 (forallb_forall _ _) H r Hr).
Qed.

Lemma roadHasSix_roadFull s p r :
  length (cells r) = 6%nat -> roadHasSix s p r = roadFull s p r.
Proof.
  intros Hl. unfold roadHasSix, roadFull, encodeRoad, roadValues.
  destruct (cells r) as [|c0 [|c1 [|c2 [|c3 [|c4 [|c5 [|c6 l]]]]]]]; try discriminate.
  cbn [map]. rewrite six_run_is_full_road. reflexivity.
Qed.

Lemma filter_ext_in_length {A} (f g : A -> bool) l :
  (forall a, In a l -> f a = g a) -> length (filter f l) = length (filter g l).
Proof.
  intros H. f_equal. apply filter_ext_in. exact H.
Qed.

Lemma existsb_ext_in {A} (f g : A -> bool) l :
  (forall a, In a l -> f a = g a) -> existsb f l = existsb g l.
Proof.
  induction l as [|a l IH]; intros H; simpl; [reflexivity|].
  rewrite (H a) by now left. f_equal. apply IH. intros a' Ha'. apply H. now right.
Qed.

Lemma evaluateRoadsLoop_cons s p r roads score :
  evaluateRoadsLoop s p (r :: roads) score =
  if 6 <=? fst (countMaxRun (encodeRoad s r) p) then 1000000
  else evaluateRoadsLoop s p roads
         (if 6 <=? snd (countMaxRun (encodeRoad s r) p) then score - 1000000 else score).
Proof.
  change (evaluateRoadsLoop s p (r :: roads) score)
    with (let (mine, theirs) := countMaxRun (encodeRoad s r) p in
          if 6 <=? mine then 1000000
          else evaluateRoadsLoop s p roads
                 (if 6 <=? theirs then score - 1000000 else score)).
  destruct (countMaxRun (encodeRoad s r) p). reflexivity.
Qed.

Lemma filter_cons_eq {A} (f : A -> bool) a l :
  filter f (a :: l) = if f a then a :: filter f l else filter f l.
Proof. reflexivity. Qed.

Lemma existsb_cons_eq {A} (f : A -> bool) a l :
  existsb f (a :: l) = f a || existsb f l.
Proof. reflexivity. Qed.

Lemma roadHasSix_eq s p r :
  roadHasSix s p r = (6 <=? fst (countMaxRun (encodeRoad s r) p)).
Proof. reflexivity. Qed.

Lemma evaluateRoadsLoop_value s p roads score :
  evaluateRoadsLoop s p roads score =
  if existsb (roadHasSix s p) roads then 1000000
  else score - 1000000 * Z.of_nat (length (filter (roadHasSix s (otherPlayer p)) roads)).
Proof.
  revert score. induction roads as [|r roads IH]; intros score.
  - cbn [evaluateRoadsLoop existsb filter length]. lia.
  - rewrite evaluateRoadsLoop_cons, existsb_cons_eq, filter_cons_eq, !roadHasSix_eq.
    rewrite (countMaxRun_swap (encodeRoad s r) p).
    destruct (countMaxRun (encodeRoad s r) p) as [mine theirs]. cbn [fst snd].
    destruct (6 <=? mine); [reflexivity|]. cbn [orb]. rewrite IH.
    destruct (existsb _ roads); [reflexivity|].
    destruct (6 <=? theirs); cbn [length]; lia.
Qed.

Lemma existsb_filter_pos {A} (f : A -> bool) l :
  existsb f l = (0 <? Z.of_nat (length (filter f l))).
Proof.
  induction l as [|a l IH]; [reflexivity|]. cbn [existsb filter].
  destruct (f a); cbn [orb length]; [|assumption]. symmetry. apply Z.ltb_lt. lia.
Qed.

Lemma evaluateRoads_value s p w :
  evaluateRoads s p w =
  if 0 <? fullRoads s p then 1000000
  else - 1000000 * fullRoads s (otherPlayer p).
Proof.
  unfold evaluateRoads, fullRoads, countRoads, getAllRoads.
  rewrite evaluateRoadsLoop_value.
  assert (Hext : forall q r, In r ALL_ROADS -> roadHasSix s q r = roadFull s q r).
  { intros q r Hr. apply roadHasSix_roadFull.
    pose proof ALL_ROADS_six_cells as H. rewrite Forall_forall in H. now apply H. }
  rewrite (existsb_ext_in (roadHasSix s p) (roadFull s p) ALL_ROADS (Hext p)).
  rewrite (filter_ext_in_length (roadHasSix s (otherPlayer p)) (roadFull s (otherPlayer p))
             ALL_ROADS (Hext (otherPlayer p))).
  rewrite existsb_filter_pos. destruct (0 <? _); lia.
Qed.

Lemma fullRoads_nonneg s p : 0 <= fullRoads s p.
Proof. unfold fullRoads, countRoads. lia. Qed.

(** C2 (as the code has it): the road term is +1,000,000 as soon as one road
    is filled with six friendly stones, and otherwise loses 1,000,000 for
    every road filled with six enemy stones.  It is anti-symmetric under the
    colour swap on every position with at most one such road in total (in
    particular on every position without a six), not beyond. *)
Theorem evaluateRoads_value_and_antisymmetry :
  forall (s : GameState) (w : EvaluationWeights),
    (forall p, evaluateRoads s p w =
               if 0 <? fullRoads s p then 1000000
               else - 1000000 * fullRoads s (otherPlayer p)) /\
    (fullRoads s BLACK + fullRoads s WHITE <= 1 ->
     evaluateRoads s BLACK w = - evaluateRoads s WHITE w).
Proof.
  intros s w. split; [intros p; apply evaluateRoads_value|].
  intros H. rewrite !evaluateRoads_value. cbn [otherPlayer].
  pose proof (fullRoads_nonneg s BLACK). pose proof (fullRoads_nonneg s WHITE).
  destruct (0 <? fullRoads s BLACK) eqn:EB; destruct (0 <? fullRoads s WHITE) eqn:EW;
    try apply Z.ltb_lt in EB; try apply Z.ltb_lt in EW;
    try apply Z.ltb_ge in EB; try apply Z.ltb_ge in EW; lia.
Qed.

(** Black has just completed seven in a row on the top edge: two roads are
    filled with black stones. *)
Definition sevenRowState : GameState :=
  {| board := placeStones createEmptyBoard
                [mkPos 0 0; mkPos 1 0; mkPos 2 0; mkPos 3 0; mkPos 4 0; mkPos 5 0; mkPos 6 0]
                Black;
     currentPlayer := WHITE;
     moveNumber := 8;
     lastMove := Some (mkMove BLACK [mkPos 3 0; mkPos 9 9]);
     winner := Some (Won BLACK) |}.

Definition sampleWeights : EvaluationWeights :=
  mkWeights 100 350 3000 10000 1500.

Lemma evaluateRoads_value_and_antisymmetry_witness :
  fullRoads stateAlreadyWon BLACK = 1 /\
  fullRoads stateAlreadyWon WHITE = 0 /\
  evaluateRoads stateAlreadyWon BLACK sampleWeights = 1000000 /\
  evaluateRoads stateAlreadyWon WHITE sampleWeights = -1000000 /\
  evaluateRoads stateAlreadyWon BLACK sampleWeights =
  - evaluateRoads stateAlreadyWon WHITE sampleWeights.
Proof.
  assert (HB : fullRoads stateAlreadyWon BLACK = 1) by (vm_compute; reflexivity).
  assert (HW : fullRoads stateAlreadyWon WHITE = 0) by (vm_compute; reflexivity).
  assert (H : fullRoads stateAlreadyWon BLACK + fullRoads stateAlreadyWon WHITE <= 1)
    by (rewrite HB, HW; discriminate).
  pose proof (evaluateRoads_value_and_antisymmetry stateAlreadyWon sampleWeights)
    as [Hval Hanti].
  split; [exact HB|]. split; [exact HW|].
  split; [rewrite (Hval BLACK), HB; reflexivity|].
  split; [rewrite (Hval WHITE), HW; cbn [otherPlayer]; rewrite HB; reflexivity|].
  exact (Hanti H).
Defined.

(** C2, refuted as stated: with seven black stones in a row the road term is
    +1,000,000 for Black but -2,000,000 for White. *)
Lemma evaluateRoads_not_antisymmetric :
  evaluateRoads sevenRowState BLACK sampleWeights = 1000000 /\
  evaluateRoads sevenRowState WHITE sampleWeights = -2000000 /\
  evaluateRoads sevenRowState BLACK sampleWeights <>
  - evaluateRoads sevenRowState WHITE sampleWeights.
Proof.
  split; [vm_compute; reflexivity|]. split; [vm_compute; reflexivity|].
  vm_compute. discriminate.
Qed.

(* ===================================================================== *)
(** ** rzop.ts: urgent blocks are always candidates *)
(* ===================================================================== *)

(** *** Collecting loops *)

Lemma pushNew_In l p e : In e (pushNew l p) <-> In e l \/ e = p.
Proof.
  unfold pushNew. destruct (hasPos l p) eqn:E.
  - apply hasPos_In in E. split; [auto|]. intros [H| ->]; assumption.
  - rewrite in_app_iff. simpl. intuition.
Qed.

Lemma fold_pushNew_In xs : forall acc e,
  In e (fold_left pushNew xs acc) <-> In e acc \/ In e xs.
Proof.
  induction xs as [|x xs IH]; intros acc e; simpl.
  - intuition.
  - rewrite IH, pushNew_In. intuition.
Qed.

(** A loop that only adds to its accumulator, and adds exactly the cells
    described by [Q] at each iteration, collects the union. *)
Lemma fold_collect_In {A} (F : list Position -> A -> list Position)
  (Q : A -> Position -> Prop) :
  (forall acc a e, In e (F acc a) <-> In e acc \/ Q a e) ->
  forall l acc e,
    In e (fold_left F l acc) <-> In e acc \/ exists a, In a l /\ Q a e.
Proof.
  intros HF. induction l as [|a l IH]; intros acc e; simpl.
  - split; [auto|]. intros [H|[a [[] _]]]. exact H.
  - rewrite IH, HF. split.
    + intros [[H|H]|[a' [Hin H]]]; eauto.
    + intros [H|[a' [[<-|Hin] H]]]; eauto.
Qed.

Lemma insertBy_Permutation {A} (after : A -> A -> bool) a l :
  Permutation (insertBy after a l) (a :: l).
Proof.
  induction l as [|b l IH]; simpl; [reflexivity|].
  destruct (after a b); [|reflexivity].
  rewrite IH. apply perm_swap.
Qed.

Lemma sortBy_Permutation {A} (after : A -> A -> bool) l :
  Permutation (sortBy after l) l.
Proof.
  induction l as [|a l IH]; simpl; [reflexivity|].
  unfold sortBy in *. simpl. rewrite insertBy_Permutation. now constructor.
Qed.

Lemma sortBy_In {A} (after : A -> A -> bool) l a :
  In a (sortBy after l) <-> In a l.
Proof.
  split; apply Permutation_in; [|symmetry]; apply sortBy_Permutation.
Qed.

Lemma countCells_map_filter (b : Board) (v : Cell) (cs : list Position) :
  countCells v (map (cellAtPos b) cs) =
  Z.of_nat (length (filter (fun p => cellIs (cellAtPos b p) v) cs)).
Proof.
  unfold countCells. f_equal. induction cs as [|c cs IH]; [reflexivity|].
  cbn [map filter]. destruct (cellIs (cellAtPos b c) v); cbn [length]; now rewrite IH.
Qed.

Lemma countCells_zero (v : Cell) (vals : list (option Cell)) :
  Forall (fun o => o <> Some v) vals -> countCells v vals = 0.
Proof.
  unfold countCells. induction 1 as [|o vals Ho _ IH]; [reflexivity|].
  cbn [filter]. destruct (cellIs o v) eqn:E; [|exact IH].
  apply cellIs_eq in E. contradiction.
Qed.

(** *** The specification's urgent-block cells *)

(** [e] is an empty cell of a length-6 window on the board that holds only
    stones of the opponent of the side to move and empties, with at least
    five opponent stones and one empty, or at least four and two. *)
Definition urgentBlockCell (s : GameState) (e : Position) : Prop :=
  exists x y dx dy,
    In (dx, dy) DIRS /\
    Forall (fun c => isInsideBoard c = true) (windowCells x y dx dy) /\
    let opp := stoneOf (otherPlayer (currentPlayer s)) in
    let vals := map (cellAtPos (board s)) (windowCells x y dx dy) in
    Forall (fun v => v = Some Empty \/ v = Some opp) vals /\
    ((5 <= countCells opp vals /\ 1 <= countCells Empty vals) \/
     (4 <= countCells opp vals /\ 2 <= countCells Empty vals)) /\
    In e (windowCells x y dx dy) /\
    cellAtPos (board s) e = Some Empty.

Lemma windowCells_In x y dx dy c :
  In c (windowCells x y dx dy) <->
  exists k, 0 <= k < 6 /\ c = mkPos (x + dx * k) (y + dy * k).
Proof.
  unfold windowCells. rewrite in_map_iff. split.
  - intros [k [<- Hk]]. apply range_In in Hk. eauto.
  - intros [k [Hk ->]]. exists k. split; [reflexivity|now apply range_In].
Qed.

Lemma isInsideBoard_iff p :
  isInsideBoard p = true <-> 0 <= pos_x p < 19 /\ 0 <= pos_y p < 19.
Proof. unfold isInsideBoard, BOARD_SIZE. rewrite !andb_true_iff. lia. Qed.

Lemma urgentInWindow_complete s x y dx dy e :
  Forall (fun c => isInsideBoard c = true) (windowCells x y dx dy) ->
  (let opp := stoneOf (otherPlayer (currentPlayer s)) in
   let vals := map (cellAtPos (board s)) (windowCells x y dx dy) in
   Forall (fun v => v = Some Empty \/ v = Some opp) vals /\
   ((5 <= countCells opp vals /\ 1 <= countCells Empty vals) \/
    (4 <= countCells opp vals /\ 2 <= countCells Empty vals))) ->
  In e (windowCells x y dx dy) ->
  cellAtPos (board s) e = Some Empty ->
  In e (urgentInWindow s x y dx dy).
Proof.
  intros Hin [Hvals Hcnt] He Hempty. unfold urgentInWindow.
  assert (Hend : isInsideBoard (mkPos (x + dx * 5) (y + dy * 5)) = true).
  { rewrite Forall_forall in Hin. apply Hin. apply windowCells_In. exists 5. split; [lia|reflexivity]. }
  apply isInsideBoard_iff in Hend. cbn [pos_x pos_y] in Hend. unfold BOARD_SIZE.
  replace ((x + dx * 5 <? 0) || (y + dy * 5 <? 0) || (19 <=? x + dx * 5) || (19 <=? y + dy * 5))
    with false.
  2:{ symmetry. rewrite !orb_false_iff. repeat split;
        try (apply Z.ltb_ge; lia); apply Z.leb_gt; lia. }
  set (cs := windowCells x y dx dy) in *.
  set (vals := map (cellAtPos (board s)) cs) in *.
  set (opp := stoneOf (otherPlayer (currentPlayer s))) in *.
  assert (Hmy : countCells (stoneOf (currentPlayer s)) vals = 0).
  { apply countCells_zero. eapply Forall_impl; [|exact Hvals].
    intros v [-> | ->]; subst opp; destruct (currentPlayer s); discriminate. }
  rewrite Hmy. change (0 <? 0) with false. cbv iota.
  assert (Hem : Z.of_nat (length (filter (fun p => cellIs (cellAtPos (board s) p) Empty) cs))
                = countCells Empty vals).
  { subst vals. now rewrite countCells_map_filter. }
  rewrite Hem.
  assert (Hfe : In e (filter (fun p => cellIs (cellAtPos (board s) p) Empty) cs)).
  { apply filter_In. split; [assumption|]. now apply cellIs_eq. }
  destruct Hcnt as [[H5 H1]|[H4 H2]].
  - replace (5 <=? countCells opp vals) with true by (symmetry; apply Z.leb_le; lia).
    replace (1 <=? countCells Empty vals) with true by (symmetry; apply Z.leb_le; lia).
    exact Hfe.
  - destruct ((5 <=? countCells opp vals) && (1 <=? countCells Empty vals)); [exact Hfe|].
    replace (4 <=? countCells opp vals) with true by (symmetry; apply Z.leb_le; lia).
    replace (2 <=? countCells Empty vals) with true by (symmetry; apply Z.leb_le; lia).
    exact Hfe.
Qed.

Lemma findUrgentThreatBlocks_In s e :
  In e (findUrgentThreatBlocks s) <->
  exists d y x, In d DIRS /\ In y (range BOARD_SIZE) /\ In x (range BOARD_SIZE) /\
                In e (urgentInWindow s x y (fst d) (snd d)).
Proof.
  unfold findUrgentThreatBlocks.
  rewrite (fold_collect_In _
    (fun d e => exists y x, In y (range BOARD_SIZE) /\ In x (range BOARD_SIZE) /\
                            In e (urgentInWindow s x y (fst d) (snd d)))).
  - split.
    + intros [[]|[d [Hd [y [x H]]]]]. exists d, y, x. tauto.
    + intros [d [y [x [Hd H]]]]. right. exists d. split; [assumption|]. eauto.
  - intros acc d e'.
    rewrite (fold_collect_In _
      (fun y e => exists x, In x (range BOARD_SIZE) /\
                            In e (urgentInWindow s x y (fst d) (snd d)))).
    + split.
      * intros [H|[y [Hy [x H]]]]; [auto|]. right. exists y, x. tauto.
      * intros [H|[y [x [Hy H]]]]; [auto|]. right. exists y. split; [assumption|]. eauto.
    + intros acc' y e''.
      rewrite (fold_collect_In _
        (fun x e => In e (urgentInWindow s x y (fst d) (snd d)))).
      * split.
        -- intros [H|[x [Hx H]]]; [auto|]. right. eauto.
        -- intros [H|[x [Hx H]]]; [auto|]. right. eauto.
      * intros acc'' x e3. apply fold_pushNew_In.
Qed.

Lemma urgentBlockCell_found s e :
  urgentBlockCell s e -> In e (findUrgentThreatBlocks s).
Proof.
  intros [x [y [dx [dy [Hd [Hin [Hvals [Hcnt [He Hempty]]]]]]]]].
  apply findUrgentThreatBlocks_In. exists (dx, dy), y, x.
  assert (Hstart : isInsideBoard (mkPos x y) = true).
  { rewrite Forall_forall in Hin. apply Hin. apply windowCells_In. exists 0.
    split; [lia|]. f_equal; lia. }
  apply isInsideBoard_iff in Hstart. cbn [pos_x pos_y] in Hstart.
  split; [assumption|]. split; [apply range_In; unfold BOARD_SIZE; lia|].
  split; [apply range_In; unfold BOARD_SIZE; lia|].
  cbn [fst snd]. apply urgentInWindow_complete; auto.
Qed.

(** *** The candidate list *)

Lemma rzopStep_keeps s urgent st pos e :
  In e (rz_candidates st) -> In e (rz_candidates (rzopStep s urgent st pos)).
Proof.
  intros H. unfold rzopStep.
  repeat match goal with
         | |- context [if ?c then _ else _] => destruct c; [exact H|]
         end.
  cbn [rz_candidates]. apply pushNew_In. now left.
Qed.

Lemma rzopLoop_keeps s urgent relevant : forall st e,
  In e (rz_candidates st) ->
  In e (rz_candidates (fold_left (rzopStep s urgent) relevant st)).
Proof.
  induction relevant as [|pos relevant IH]; intros st e H; [exact H|].
  cbn [fold_left]. apply IH. now apply rzopStep_keeps.
Qed.

Lemma generateRZOPCandidates_has_urgent s e :
  In e (findUrgentThreatBlocks s) -> In e (generateRZOPCandidates s).
Proof.
  intros H. unfold generateRZOPCandidates.
  set (urgent := findUrgentThreatBlocks s) in *.
  set (relevant := computeRelevantZones s 3).
  assert (Hc : In e (rz_candidates
                       (fold_left (rzopStep s urgent) relevant
                          (mkRzopLoop (fold_left pushNew urgent []) [] [] [])))).
  { apply rzopLoop_keeps. cbn [rz_candidates]. apply fold_pushNew_In. now right. }
  destruct (rz_candidates _) as [|c cand] eqn:Ec; [destruct Hc|].
  apply sortBy_In. exact Hc.
Qed.

(** The fallback of [generateRZOPCandidates] is taken only when there is no
    urgent cell at all, so the inclusion holds there too. *)
Lemma generateRZOPCandidates_fallback s :
  rz_candidates
    (fold_left (rzopStep s (findUrgentThreatBlocks s)) (computeRelevantZones s 3)
       (mkRzopLoop (fold_left pushNew (findUrgentThreatBlocks s) []) [] [] [])) = [] ->
  findUrgentThreatBlocks s = [] /\
  generateRZOPCandidates s = computeRelevantZones s 3.
Proof.
  intros H. split.
  - destruct (findUrgentThreatBlocks s) as [|u us] eqn:Eu; [reflexivity|]. exfalso.
    assert (Hin : In u (rz_candidates
                          (fold_left (rzopStep s (u :: us)) (computeRelevantZones s 3)
                             (mkRzopLoop (fold_left pushNew (u :: us) []) [] [] [])))).
    { apply rzopLoop_keeps. cbn [rz_candidates]. apply fold_pushNew_In. right. now left. }
    rewrite H in Hin. destruct Hin.
  - unfold generateRZOPCandidates. now rewrite H.
Qed.

(** C6: every urgent-block cell is in the list returned by
    [generateRZOPCandidates], whichever branch (sorted candidates or the
    unfiltered relevance zone) produces that list. *)
Theorem generateRZOPCandidates_contains_urgent :
  forall (s : GameState) (e : Position),
    urgentBlockCell s e -> In e (generateRZOPCandidates s).
Proof.
  intros s e H. apply generateRZOPCandidates_has_urgent.
  now apply urgentBlockCell_found.
Qed.

(** White has an open four on row 3; Black is to move. *)
Definition openFourState : GameState :=
  {| board := placeStones
                (placeStones createEmptyBoard
                   [mkPos 3 3; mkPos 4 3; mkPos 5 3; mkPos 6 3] White)
                [mkPos 9 9; mkPos 10 10; mkPos 10 9] Black;
     currentPlayer := BLACK;
     moveNumber := 5;
     lastMove := None;
     winner := None |}.

Lemma openFour_urgent : urgentBlockCell openFourState (mkPos 2 3).
Proof.
  exists 2, 3, 1, 0. split; [now left|].
  split; [repeat constructor|]. cbv zeta.
  split; [vm_compute; repeat (apply Forall_cons; [auto|]); apply Forall_nil|].
  split; [right; split; vm_compute; discriminate|].
  split; [left; reflexivity|vm_compute; reflexivity].
Qed.

Lemma generateRZOPCandidates_contains_urgent_witness :
  urgentBlockCell openFourState (mkPos 2 3) /\
  In (mkPos 2 3) (generateRZOPCandidates openFourState).
Proof.
  split; [exact openFour_urgent|].
  exact (generateRZOPCandidates_contains_urgent openFourState (mkPos 2 3) openFour_urgent).
Defined.

(* ===================================================================== *)
(** ** pvs_search.ts: the transposition-table policy *)
(* ===================================================================== *)

Lemma In_firstn {A} (x : A) n l : In x (firstn n l) -> In x l.
Proof.
  intros H. rewrite <- (firstn_skipn n l). apply in_or_app. now left.
Qed.

Lemma In_skipn {A} (x : A) n l : In x (skipn n l) -> In x l.
Proof.
  intros H. rewrite <- (firstn_skipn n l). apply in_or_app. now right.
Qed.

(** *** Sorting by a key, largest first *)

Section SortByKey.

Context {A : Type} (key : A -> Z).

Let after (a b : A) : bool := 0 <? key b - key a.

Definition keyDescending (l : list A) : Prop :=
  StronglySorted (fun a b => key b <= key a) l.

Lemma insertBy_key_descending a l :
  keyDescending l -> keyDescending (insertBy after a l).
Proof.
  unfold keyDescending. induction 1 as [|b l Hl IH Hb]; cbn [insertBy].
  - constructor; constructor.
  - unfold after at 1. destruct (0 <? key b - key a) eqn:E.
    + constructor; [exact IH|].
      apply Z.ltb_lt in E. rewrite Forall_forall in *. intros c Hc.
      apply (Permutation_in _ (insertBy_Permutation after a l)) in Hc.
      destruct Hc as [<-|Hc]; [lia|now apply Hb].
    + apply Z.ltb_ge in E. constructor; [now constructor|].
      constructor; [lia|]. rewrite Forall_forall in *. intros c Hc.
      specialize (Hb c Hc). lia.
Qed.

Lemma sortBy_key_descending l : keyDescending (sortBy after l).
Proof.
  induction l as [|a l IH]; [constructor|].
  change (sortBy after (a :: l)) with (insertBy after a (sortBy after l)).
  now apply insertBy_key_descending.
Qed.

Lemma keyDescending_firstn n l : keyDescending l -> keyDescending (firstn n l).
Proof.
  unfold keyDescending. revert l. induction n as [|n IH]; intros l H; [constructor|].
  destruct H as [|a l Hl Ha]; [constructor|]. cbn [firstn]. constructor; [now apply IH|].
  rewrite Forall_forall in *. intros c Hc. apply Ha. eapply In_firstn; eauto.
Qed.

(** Whatever is cut off by [firstn] has a key no larger than what is kept. *)
Lemma keyDescending_cut n l kept dropped :
  keyDescending l -> In kept (firstn n l) -> In dropped (skipn n l) ->
  key dropped <= key kept.
Proof.
  unfold keyDescending. revert l. induction n as [|n IH]; intros l H Hk Hd.
  - destruct Hk.
  - destruct H as [|a l Hl Ha]; [destruct Hk|]. cbn [firstn skipn] in Hk, Hd.
    destruct Hk as [<-|Hk]; [|now apply (IH l)].
    rewrite Forall_forall in Ha. apply Ha. eapply In_skipn; eauto.
Qed.

End SortByKey.

(** *** Maps *)

Lemma mapSet_length {V} (m : list (string * V)) k v :
  (length (mapSet m k v) <= S (length m))%nat /\ (length m <= length (mapSet m k v))%nat.
Proof.
  induction m as [|e m IH]; cbn [mapSet length]; [lia|].
  destruct (String.eqb (fst e) k); cbn [length]; lia.
Qed.

Lemma mapSize_mapSet {V} (m : list (string * V)) k v :
  mapSize m <= mapSize (mapSet m k v) <= mapSize m + 1.
Proof. unfold mapSize. pose proof (mapSet_length m k v). lia. Qed.

(** *** The constants of the policy *)

Lemma ttKeep_value : ttKeep = 800000.
Proof. reflexivity. Qed.

(** The bound computed by the code, [MAX_TT_ENTRIES * 0.8] in binary64, is
    the integer 800000 itself, so [Math.floor] leaves it unchanged. *)
Lemma ttKeep_float_exact : (numZ MAX_TT_ENTRIES * 0.8 =? numZ ttKeep)%float = true.
Proof. vm_compute. reflexivity. Qed.

Lemma historyKeep_float_exact :
  (numZ MAX_HISTORY_ENTRIES * 0.7 =? numZ historyKeep)%float = true.
Proof. vm_compute. reflexivity. Qed.

Lemma firstn_mapSize {V} (n : Z) (l : list (string * V)) :
  0 <= n -> mapSize (firstn (Z.to_nat n) l) = Z.min n (mapSize l).
Proof.
  intros Hn. unfold mapSize. rewrite length_firstn. lia.
Qed.

Lemma pruneTT_size tbl : mapSize (pruneTT tbl) = Z.min ttKeep (mapSize tbl).
Proof.
  unfold pruneTT. rewrite firstn_mapSize by (rewrite ttKeep_value; lia).
  unfold mapSize. f_equal. f_equal. apply Permutation_length, sortBy_Permutation.
Qed.

Definition depthDescending (l : list (string * TTEntry)) : Prop :=
  keyDescending (fun e => tt_depth (snd e)) l.

(** The flag [storeTT] derives from the score and the window. *)
Definition flagOf (score alpha beta : float) : TTFlag :=
  if (score <=? alpha)%float then UPPER
  else if (beta <=? score)%float then LOWER else EXACT.

Lemma storeTTtable_skip tbl hash depth score alpha beta mv e :
  mapGet tbl hash = Some e -> depth < tt_depth e ->
  storeTTtable tbl hash depth score alpha beta mv = tbl.
Proof.
  intros He Hd. unfold storeTTtable. rewrite He.
  replace (depth <? tt_depth e) with true by (symmetry; now apply Z.ltb_lt).
  reflexivity.
Qed.

Lemma storeTTtable_store tbl hash depth score alpha beta mv :
  (forall e, mapGet tbl hash = Some e -> tt_depth e <= depth) ->
  storeTTtable tbl hash depth score alpha beta mv =
  let tbl' := mapSet tbl hash (mkTTEntry depth score (flagOf score alpha beta) mv) in
  if MAX_TT_ENTRIES <? mapSize tbl' then pruneTT tbl' else tbl'.
Proof.
  intros H. unfold storeTTtable, flagOf.
  destruct (mapGet tbl hash) as [e|]; [|reflexivity].
  replace (depth <? tt_depth e) with false; [reflexivity|].
  symmetry. apply Z.ltb_ge. now apply H.
Qed.

Lemma storeTTtable_size tbl hash depth score alpha beta mv :
  mapSize tbl <= MAX_TT_ENTRIES ->
  mapSize (storeTTtable tbl hash depth score alpha beta mv) <= MAX_TT_ENTRIES.
Proof.
  intros H. unfold storeTTtable.
  destruct (match mapGet tbl hash with Some existing => depth <? tt_depth existing
                                     | None => false end); [exact H|].
  cbv zeta.
  set (tbl' := mapSet tbl hash _).
  destruct (MAX_TT_ENTRIES <? mapSize tbl') eqn:E.
  - rewrite pruneTT_size, ttKeep_value. unfold MAX_TT_ENTRIES. lia.
  - now apply Z.ltb_ge in E.
Qed.

Lemma storeTT_table state depth score alpha beta mv st :
  transpositionTable (snd (storeTT state depth score alpha beta mv st)) =
  storeTTtable (transpositionTable st) (hashState state) depth score alpha beta mv.
Proof. reflexivity. Qed.

(** C7: a store keeps the table within 1,000,000 entries; it leaves the
    table untouched when the key already holds a strictly deeper entry; and
    when the insertion overflows the cap, what remains is the first 800,000
    entries (80% of the cap) of the table sorted by depth, deepest first, so
    that every entry kept is at least as deep as every entry dropped. *)
Theorem storeTT_policy :
  forall (state : GameState) (depth : Z) (score alpha beta : float)
         (mv : option Move) (st : EngineState),
    let tbl := transpositionTable st in
    let tbl' := transpositionTable (snd (storeTT state depth score alpha beta mv st)) in
    let stored := mapSet tbl (hashState state)
                    (mkTTEntry depth score (flagOf score alpha beta) mv) in
    (mapSize tbl <= MAX_TT_ENTRIES -> mapSize tbl' <= MAX_TT_ENTRIES) /\
    (forall e, mapGet tbl (hashState state) = Some e -> depth < tt_depth e -> tbl' = tbl) /\
    ((forall e, mapGet tbl (hashState state) = Some e -> tt_depth e <= depth) ->
     MAX_TT_ENTRIES < mapSize stored ->
     exists sorted,
       Permutation sorted stored /\ depthDescending sorted /\
       tbl' = firstn (Z.to_nat ttKeep) sorted /\
       mapSize tbl' = ttKeep /\ 10 * ttKeep = 8 * MAX_TT_ENTRIES /\
       forall kept dropped,
         In kept tbl' -> In dropped (skipn (Z.to_nat ttKeep) sorted) ->
         tt_depth (snd dropped) <= tt_depth (snd kept)).
Proof.
  intros state depth score alpha beta mv st tbl tbl' stored.
  subst tbl'. rewrite storeTT_table. fold tbl. split; [|split].
  - apply storeTTtable_size.
  - intros e He Hd. now apply storeTTtable_skip with (e := e).
  - intros Hstore Hover. rewrite storeTTtable_store by exact Hstore. cbv zeta. fold stored.
    replace (MAX_TT_ENTRIES <? mapSize stored) with true by (symmetry; now apply Z.ltb_lt).
    exists (sortBy (fun a b => 0 <? tt_depth (snd b) - tt_depth (snd a)) stored).
    split; [apply sortBy_Permutation|].
    split; [apply (sortBy_key_descending (fun e => tt_depth (snd e)))|].
    split; [reflexivity|].
    split; [|split; [reflexivity|]].
    + fold (pruneTT stored). rewrite pruneTT_size, ttKeep_value in *.
      unfold MAX_TT_ENTRIES in Hover. lia.
    + intros kept dropped Hk Hd.
      apply (keyDescending_cut (fun e => tt_depth (snd e)) (Z.to_nat ttKeep)
               (sortBy (fun a b => 0 <? tt_depth (snd b) - tt_depth (snd a)) stored));
        [apply (sortBy_key_descending (fun e => tt_depth (snd e)))|exact Hk|exact Hd].
Qed.

(** The cap holds after any sequence of stores into the empty table. *)
Lemma storeTT_sequence_size
  (stores : list (GameState * Z * float * float * float * option Move)) :
  mapSize (transpositionTable
             (fold_left
                (fun st a =>
                   match a with
                   | (state, depth, score, alpha, beta, mv) =>
                       snd (storeTT state depth score alpha beta mv st)
                   end) stores initialEngine)) <= MAX_TT_ENTRIES.
Proof.
  assert (H : forall st, mapSize (transpositionTable st) <= MAX_TT_ENTRIES ->
    mapSize (transpositionTable
               (fold_left
                  (fun st a =>
                     match a with
                     | (state, depth, score, alpha, beta, mv) =>
                         snd (storeTT state depth score alpha beta mv st)
                     end) stores st)) <= MAX_TT_ENTRIES).
  { induction stores as [|[[[[[state depth] score] alpha] beta] mv] stores IH];
      intros st Hst; [exact Hst|].
    cbn [fold_left]. apply IH. rewrite storeTT_table. now apply storeTTtable_size. }
  apply H. unfold MAX_TT_ENTRIES. cbn. lia.
Qed.

(** *** A table with a deeper entry, and a table at the cap *)

(** The engine after a depth-5 store for the initial position. *)
Definition deepEngine : EngineState :=
  snd (storeTT createInitialState 5 1 0 2 None initialEngine).

(** Positions that differ in their move number only. *)
Definition numberedState (n : Z) : GameState :=
  {| board := createEmptyBoard; currentPlayer := BLACK; moveNumber := n;
     lastMove := None; winner := None |}.

(** A table of [n] depth-1 entries, for the positions numbered [n .. 1]. *)
Fixpoint numberedEntries (n : nat) : list (string * TTEntry) :=
  match n with
  | O => []
  | S n' =>
      (hashState (numberedState (Z.of_nat n)), mkTTEntry 1 0 EXACT None) :: numberedEntries n'
  end.

(** The engine whose transposition table holds exactly [MAX_TT_ENTRIES]
    entries. *)
Definition fullEngine : EngineState :=
  setTT (numberedEntries (Z.to_nat MAX_TT_ENTRIES)) initialEngine.

(** The empty board with White to move. *)
Definition whiteToMoveState : GameState :=
  {| board := createEmptyBoard; currentPlayer := WHITE; moveNumber := 1;
     lastMove := None; winner := None |}.

Lemma append_cancel_l (a x y : string) : (a ++ x = a ++ y)%string -> x = y.
Proof.
  induction a as [|c a IH]; cbn [String.append]; [auto|]. intros H. injection H as H. auto.
Qed.

Lemma hashState_player_differs (s1 s2 : GameState) :
  board s1 = board s2 -> currentPlayer s1 <> currentPlayer s2 ->
  hashState s1 <> hashState s2.
Proof.
  intros Hb Hp H. unfold hashState in H. cbv zeta in H. rewrite Hb in H.
  apply append_cancel_l in H.
  destruct (currentPlayer s1), (currentPlayer s2); cbn in H;
    try discriminate H; now apply Hp.
Qed.

Lemma numberedEntries_length n : length (numberedEntries n) = n.
Proof. induction n as [|n IH]; cbn [numberedEntries length]; [|rewrite IH]; reflexivity. Qed.

Lemma numberedEntries_no_white n :
  mapGet (numberedEntries n) (hashState whiteToMoveState) = None.
Proof.
  unfold mapGet. induction n as [|n IH]; [reflexivity|].
  cbn [numberedEntries find fst].
  replace (String.eqb (hashState (numberedState (Z.of_nat (S n))))
             (hashState whiteToMoveState)) with false; [exact IH|].
  symmetry. apply String.eqb_neq. apply hashState_player_differs; [reflexivity|discriminate].
Qed.

Lemma mapSet_new_length {V} (m : list (string * V)) k v :
  mapGet m k = None -> length (mapSet m k v) = S (length m).
Proof.
  unfold mapGet. induction m as [|e m IH]; cbn [mapSet find length]; [reflexivity|].
  destruct (String.eqb (fst e) k); [discriminate|]. intros H. cbn [length]. now rewrite IH.
Qed.

Lemma fullEngine_size : mapSize (transpositionTable fullEngine) = MAX_TT_ENTRIES.
Proof.
  change (transpositionTable fullEngine) with (numberedEntries (Z.to_nat MAX_TT_ENTRIES)).
  unfold mapSize. rewrite numberedEntries_length. apply Z2Nat.id. discriminate.
Qed.

(** The three parts of the policy at work: a depth-3 store over the depth-5
    entry of the same position changes nothing; a store of a new position
    into a table of 1,000,000 entries overflows the cap and leaves 800,000
    entries. *)
Lemma storeTT_policy_witness :
  mapGet (transpositionTable deepEngine) (hashState createInitialState)
  = Some (mkTTEntry 5 1 EXACT None) /\
  transpositionTable (snd (storeTT createInitialState 3 1 0 2 None deepEngine))
  = transpositionTable deepEngine /\
  mapSize (transpositionTable fullEngine) = 1000000 /\
  mapSize (transpositionTable (snd (storeTT whiteToMoveState 3 1 0 2 None fullEngine)))
  = 800000 /\
  mapSize (transpositionTable (snd (storeTT whiteToMoveState 3 1 0 2 None fullEngine)))
  <= MAX_TT_ENTRIES.
Proof.
  assert (Hdeep : mapGet (transpositionTable deepEngine) (hashState createInitialState)
                  = Some (mkTTEntry 5 1 EXACT None)) by (vm_compute; reflexivity).
  split; [exact Hdeep|]. split.
  { refine (proj1 (proj2 (storeTT_policy createInitialState 3 1 0 2 None deepEngine))
              (mkTTEntry 5 1 EXACT None) Hdeep _).
    cbn [tt_depth]. lia. }
  pose proof fullEngine_size as Hfull.
  assert (Hnew : mapGet (transpositionTable fullEngine) (hashState whiteToMoveState) = None)
    by apply numberedEntries_no_white.
  pose proof (storeTT_policy whiteToMoveState 3 1 0 2 None fullEngine) as Hpolicy.
  cbv zeta in Hpolicy. destruct Hpolicy as (Hcap & _ & Hprune).
  split; [exact Hfull|]. split.
  - destruct Hprune as (sorted & _ & _ & _ & Hsize & _).
    + intros e He. rewrite Hnew in He. discriminate He.
    + unfold mapSize in Hfull |- *. rewrite (mapSet_new_length _ _ _ Hnew).
      rewrite Nat2Z.inj_succ, Hfull. lia.
    + rewrite Hsize. apply ttKeep_value.
  - apply Hcap. rewrite Hfull. lia.
Defined.

(* ===================================================================== *)
(** ** smart_defense.ts: the single-stone simulation *)
(* ===================================================================== *)

(** Outside the opening move a one-stone move is rejected by
    [applyMoveWithWinner], whoever plays it. *)
Lemma applyMoveWithWinner_single_stone_throws s p pos :
  moveNumber s <> 0 ->
  exists e, applyMoveWithWinner s (mkMove p [pos]) = Throw e.
Proof.
  intros Hm. apply (proj2 (applyMoveWithWinner_Throw_iff s (mkMove p [pos]))).
  intros [_ [Hn _]]. cbn [positions length player] in Hn.
  unfold getStonesToPlace in Hn.
  replace (moveNumber s =? 0) with false in Hn by (symmetry; now apply Z.eqb_neq).
  discriminate Hn.
Qed.

Lemma isSingleBlockSafe_throws s p pos :
  moveNumber s <> 0 ->
  cellAtPos (board s) pos = Some Empty ->
  exists e, isSingleBlockSafe s p pos = Throw e.
Proof.
  intros Hm He. unfold isSingleBlockSafe. rewrite He. cbn [cellIs ocell_eqb cell_eqb negb].
  destruct (applyMoveWithWinner_single_stone_throws s p pos Hm) as [e Hthrow].
  rewrite Hthrow. exists e. reflexivity.
Qed.

Lemma threatEmpties_are_empty s t :
  Forall (fun p => cellAtPos (board s) p = Some Empty) (threatEmpties s t).
Proof.
  unfold threatEmpties.
  assert (H : forall ps acc,
    Forall (fun p => cellAtPos (board s) p = Some Empty) acc ->
    Forall (fun p => cellAtPos (board s) p = Some Empty)
      (fold_left (fun empties p =>
                    if negb (cellIs (cellAtPos (board s) p) Empty) then empties
                    else pushNew empties p) ps acc)).
  { induction ps as [|p ps IH]; intros acc Hacc; [exact Hacc|].
    cbn [fold_left]. apply IH.
    destruct (cellIs (cellAtPos (board s) p) Empty) eqn:E; cbn [negb]; [|exact Hacc].
    apply cellIs_eq in E. unfold pushNew. destruct (hasPos acc p); [exact Hacc|].
    apply Forall_app. split; [exact Hacc|]. constructor; [exact E|constructor]. }
  apply H. constructor.
Qed.

(** Whenever the threat has its two empty cells and the position is past the
    opening move, Smart Defense ends in an exception and returns no move. *)
Lemma buildSmartBlockForOpponentLive4_throws s p t :
  moveNumber s <> 0 ->
  (2 <= length (threatEmpties s t))%nat ->
  exists e, buildSmartBlockForOpponentLive4 s p t = Throw e.
Proof.
  intros Hm Hlen. unfold buildSmartBlockForOpponentLive4.
  pose proof (threatEmpties_are_empty s t) as Hempty.
  destruct (threatEmpties s t) as [|e1 [|e2 rest]]; cbn [length] in Hlen; try lia.
  inversion Hempty as [|? ? He1 _]; subst.
  destruct (isSingleBlockSafe_throws s p e1 Hm He1) as [e Hthrow].
  cbn [collectSafeSingles]. rewrite Hthrow. exists e. reflexivity.
Qed.

(** The open four of [openFourState], as [detectVCDT] reports it. *)
Definition openFourThreat : VCDTThreat := mkThreat [mkPos 2 3; mkPos 7 3] false 2.

Lemma openFourThreat_detected : In openFourThreat (detectVCDT openFourState WHITE).
Proof. vm_compute. tauto. Qed.

(** C8, on the code: with White's open four on the board and Black to play
    its two stones, Smart Defense does not return a move; the simulated
    single stone is refused as a move of the wrong size. *)
Theorem buildSmartBlockForOpponentLive4_open_four :
  isSingleBlockSafe openFourState BLACK (mkPos 2 3) = Throw (WrongStoneCount 2 1) /\
  buildSmartBlockForOpponentLive4 openFourState BLACK openFourThreat
  = Throw (WrongStoneCount 2 1).
Proof. split; vm_compute; reflexivity. Qed.

(** The live-four step of [findVcdtRootMove] is never reached from a
    position with such a threat: the same road pattern is also reported as a
    two-stone win, which step 2 blocks first. *)
Lemma findVcdtRootMove_open_four :
  findVcdtRootMove openFourState BLACK
  = Ok (Some (mkMove BLACK [mkPos 2 3; mkPos 7 3], block_opp_double_win)).
Proof. vm_compute. reflexivity. Qed.

(* ===================================================================== *)
(** ** mcts_ai_engine.ts: most visits, ties by win rate *)
(* ===================================================================== *)

(** *** The order of binary64 values *)

Lemma SFltb_irrefl (x : spec_float) : SFltb x x = false.
Proof.
  unfold SFltb. destruct x as [s|s| |s m e]; cbn [SFcompare]; try reflexivity.
  - destruct s; reflexivity.
  - destruct s; rewrite Z.compare_refl, Pos.compare_cont_refl; reflexivity.
Qed.

Lemma SFltb_trans (x y z : spec_float) :
  SFltb x y = true -> SFltb y z = true -> SFltb x z = true.
Proof.
  unfold SFltb.
  destruct x as [sx|sx| |sx mx ex], y as [sy|sy| |sy my ey], z as [sz|sz| |sz mz ez];
    cbn [SFcompare]; try discriminate; try reflexivity;
    try (destruct sx; try discriminate; destruct sy; try discriminate;
         destruct sz; try discriminate; reflexivity);
    try (destruct sx, sy; try discriminate; try reflexivity;
         destruct sz; try discriminate; reflexivity).
  all: destruct sx, sy, sz; try discriminate; try reflexivity.
  - destruct (Z.compare ex ey) eqn:E1; destruct (Z.compare ey ez) eqn:E2;
      destruct (Z.compare ex ez) eqn:E3;
      rewrite ?Pos.compare_cont_spec in *; cbn [Pos.switch_Eq CompOpp] in *;
      try discriminate; try reflexivity;
      try (apply Z.compare_eq in E1); try (apply Z.compare_eq in E2);
      try (apply Z.compare_eq in E3);
      rewrite ?Z.compare_lt_iff, ?Z.compare_gt_iff in *; try lia; subst.
    all: intros H1 H2.
    all: try (destruct (Pos.compare mx my) eqn:F1; try discriminate).
    all: try (destruct (Pos.compare my mz) eqn:F2; try discriminate).
    all: destruct (Pos.compare mx mz) eqn:F3; try reflexivity;
      rewrite ?Pos.compare_eq_iff, ?Pos.compare_lt_iff, ?Pos.compare_gt_iff in *; lia.
  - destruct (Z.compare ex ey) eqn:E1; destruct (Z.compare ey ez) eqn:E2;
      destruct (Z.compare ex ez) eqn:E3;
      rewrite ?Pos.compare_cont_spec in *; cbn [Pos.switch_Eq CompOpp] in *;
      try discriminate; try reflexivity;
      try (apply Z.compare_eq in E1); try (apply Z.compare_eq in E2);
      try (apply Z.compare_eq in E3);
      rewrite ?Z.compare_lt_iff, ?Z.compare_gt_iff in *; try lia; subst.
    all: intros H1 H2.
    all: try (destruct (Pos.compare mx my) eqn:F1; try discriminate).
    all: try (destruct (Pos.compare my mz) eqn:F2; try discriminate).
    all: destruct (Pos.compare mx mz) eqn:F3; try reflexivity;
      rewrite ?Pos.compare_eq_iff, ?Pos.compare_lt_iff, ?Pos.compare_gt_iff in *; lia.
Qed.

Lemma float_ltb_irrefl (x : float) : (x <? x)%float = false.
Proof. rewrite ltb_spec. apply SFltb_irrefl. Qed.

Lemma float_ltb_trans (x y z : float) :
  (x <? y)%float = true -> (y <? z)%float = true -> (x <? z)%float = true.
Proof. rewrite !ltb_spec. apply SFltb_trans. Qed.

(** *** The choice among the children *)

(** [best] is at least as good as [other]: more visits, or as many and a
    win rate that [other] does not exceed. *)
Definition preferredOver (best other : MCTSNode) : Prop :=
  (node_visits other <= node_visits best)%nat /\
  (node_visits other = node_visits best ->
   (winRate best <? winRate other)%float = false).

(** What the loop has found after the children in [seen]. *)
Definition pickInvariant (player : Player) (seen : list (MoveKey * MCTSNode))
  (pick : FinalPick) : Prop :=
  match pick_bestMove pick with
  | None => seen = [] /\ pick_bestVisits pick = -1
  | Some mv =>
      exists key child,
        In (key, child) seen /\
        mv = decodeMoveKey key player /\
        pick_bestVisits pick = Z.of_nat (node_visits child) /\
        pick_bestScore pick = winRate child /\
        forall key' child', In (key', child') seen -> preferredOver child child'
  end.

Lemma preferredOver_refl (c : MCTSNode) : preferredOver c c.
Proof. split; [lia|]. intros _. apply float_ltb_irrefl. Qed.

Lemma finalPickStep_invariant player seen pick entry :
  pickInvariant player seen pick ->
  pickInvariant player (seen ++ [entry]) (finalPickStep player pick entry).
Proof.
  destruct entry as [k c]. unfold pickInvariant, finalPickStep. cbn [fst snd].
  destruct (pick_bestMove pick) as [mv|] eqn:Emv.
  - intros (key & child & Hin & Hmv & Hv & Hs & Hbest).
    rewrite Hv, Hs.
    destruct ((Z.of_nat (node_visits child) <? Z.of_nat (node_visits c)) ||
              ((Z.of_nat (node_visits c) =? Z.of_nat (node_visits child)) &&
               (winRate child <? winRate c)%float)) eqn:E.
    + cbn [pick_bestMove pick_bestVisits pick_bestScore].
      exists k, c. split; [apply in_or_app; right; now left|].
      repeat split; try reflexivity.
      * apply in_app_or in H. destruct H as [H|[H|[]]].
        -- destruct (Hbest _ _ H) as [Hle _].
           apply orb_true_iff in E. destruct E as [E|E].
           ++ apply Z.ltb_lt in E. lia.
           ++ apply andb_true_iff in E. destruct E as [E _]. apply Z.eqb_eq in E. lia.
        -- inversion H. lia.
      * intros Heq. apply in_app_or in H. destruct H as [H|[H|[]]].
        -- destruct (Hbest _ _ H) as [Hle Hrate].
           apply orb_true_iff in E. destruct E as [E|E]; [apply Z.ltb_lt in E; lia|].
           apply andb_true_iff in E. destruct E as [Ev Er]. apply Z.eqb_eq in Ev.
           assert (Hsame : node_visits child' = node_visits child) by lia.
           specialize (Hrate Hsame).
           destruct (winRate c <? winRate child')%float eqn:F; [|reflexivity].
           rewrite (float_ltb_trans _ _ _ Er F) in Hrate. discriminate.
        -- inversion H. subst. apply float_ltb_irrefl.
    + rewrite Emv. exists key, child. split; [apply in_or_app; now left|].
      repeat split; try assumption.
      * apply in_app_or in H. destruct H as [H|[H|[]]]; [now apply (Hbest _ _ H)|].
        inversion H. subst. apply orb_false_iff in E. destruct E as [E _].
        apply Z.ltb_ge in E. lia.
      * intros Heq. apply in_app_or in H. destruct H as [H|[H|[]]];
          [now apply (Hbest _ _ H)|].
        inversion H. subst. apply orb_false_iff in E. destruct E as [_ E].
        rewrite Heq, Z.eqb_refl in E. exact E.
  - intros [-> Hv]. rewrite Hv.
    replace (-1 <? Z.of_nat (node_visits c)) with true by (symmetry; apply Z.ltb_lt; lia).
    cbn [orb pick_bestMove pick_bestVisits pick_bestScore app].
    exists k, c. split; [now left|]. repeat split; try reflexivity.
    + destruct H as [H|[]]. inversion H. lia.
    + intros _. destruct H as [H|[]]. inversion H. subst. apply float_ltb_irrefl.
Qed.

Lemma finalPick_invariant player children seen pick :
  pickInvariant player seen pick ->
  pickInvariant player (seen ++ children) (fold_left (finalPickStep player) children pick).
Proof.
  revert seen pick. induction children as [|entry children IH]; intros seen pick H.
  - now rewrite app_nil_r.
  - cbn [fold_left].
    replace (seen ++ entry :: children) with ((seen ++ [entry]) ++ children)
      by (now rewrite <- app_assoc).
    apply IH. now apply finalPickStep_invariant.
Qed.

(** C9: when [decideMove] returns, its move is the decoded key of a child of
    the root that no other child beats: none has more visits, and none with
    as many visits has a strictly higher win rate; the score returned is the
    win rate of that child, [wins / visits] as soon as it was visited.  The
    call throws only when the root has no child. *)
Theorem decideMoveFinal_most_visited :
  forall (rootNode : MCTSNode) (player : Player),
    (forall d, decideMoveFinal rootNode player = Ok d ->
       exists key child,
         In (key, child) (node_children rootNode) /\
         mcts_move d = decodeMoveKey key player /\
         mcts_score d = winRate child /\
         ((0 < node_visits child)%nat ->
          mcts_score d = (node_wins child / numZ (Z.of_nat (node_visits child)))%float) /\
         forall key' child', In (key', child') (node_children rootNode) ->
           (node_visits child' <= node_visits child)%nat /\
           (node_visits child' = node_visits child ->
            (winRate child <? winRate child')%float = false)) /\
    (node_children rootNode <> [] -> exists d, decideMoveFinal rootNode player = Ok d).
Proof.
  intros rootNode player.
  assert (Hinv := finalPick_invariant player (node_children rootNode) []
                    (mkPick None (-1) neg_infinity) (conj eq_refl eq_refl)).
  rewrite app_nil_l in Hinv. unfold decideMoveFinal. cbv zeta.
  set (pick := fold_left (finalPickStep player) (node_children rootNode) _) in *.
  unfold pickInvariant in Hinv. split.
  - intros d Hd. destruct (pick_bestMove pick) as [mv|]; [|discriminate].
    destruct Hinv as (key & child & Hin & Hmv & Hv & Hs & Hbest).
    injection Hd as <-. cbn [mcts_move mcts_score].
    exists key, child. repeat split; try assumption.
    + intros Hpos. rewrite Hs. unfold winRate.
      replace (0 <? node_visits child)%nat with true; [reflexivity|].
      symmetry. now apply Nat.ltb_lt.
    + now apply (Hbest _ _ H).
    + now apply (Hbest _ _ H).
  - intros Hne. destruct (pick_bestMove pick) as [mv|]; [eauto|].
    destruct Hinv as [Hnil _]. contradiction.
Qed.

Definition sampleChildren : list (MoveKey * MCTSNode) :=
  [ ((9, 9, 9, 10), mkNode createInitialState WHITE 4 3 0 [] false 0);
    ((8, 8, 8, 9), mkNode createInitialState WHITE 7 2 0 [] false 0);
    ((7, 7, 7, 8), mkNode createInitialState WHITE 7 5 0 [] false 0);
    ((6, 6, 6, 7), mkNode createInitialState WHITE 7 5 0 [] false 0) ].

Definition sampleRoot : MCTSNode :=
  mkNode createInitialState BLACK 18 9 0 sampleChildren true 0.

Definition sampleDecision : MCTSDecision :=
  mkMctsDecision (mkMove BLACK [mkPos 7 7; mkPos 7 8]) (5 / 7)%float 18.

Lemma decideMoveFinal_most_visited_witness :
  decideMoveFinal sampleRoot BLACK = Ok sampleDecision /\
  node_children sampleRoot <> [] /\
  (exists key child,
     In (key, child) (node_children sampleRoot) /\
     mcts_move sampleDecision = decodeMoveKey key BLACK /\
     mcts_score sampleDecision = winRate child /\
     forall key' child', In (key', child') (node_children sampleRoot) ->
       (node_visits child' <= node_visits child)%nat) /\
  exists d, decideMoveFinal sampleRoot BLACK = Ok d.
Proof.
  assert (Hd : decideMoveFinal sampleRoot BLACK = Ok sampleDecision)
    by (vm_compute; reflexivity).
  assert (Hne : node_children sampleRoot <> []) by discriminate.
  split; [exact Hd|]. split; [exact Hne|]. split.
  - destruct (proj1 (decideMoveFinal_most_visited sampleRoot BLACK) sampleDecision Hd)
      as (key & child & Hin & Hmv & Hs & _ & Hbest).
    exists key, child. repeat split; try assumption.
    intros key' child' H. exact (proj1 (Hbest key' child' H)).
  - exact (proj2 (decideMoveFinal_most_visited sampleRoot BLACK) Hne).
Defined.

Lemma decideMoveFinal_sample :
  option_map mcts_move
    (match decideMoveFinal sampleRoot BLACK with Ok d => Some d | Throw _ => None end)
  = Some (mkMove BLACK [mkPos 7 7; mkPos 7 8]).
Proof. vm_compute. reflexivity. Qed.

(* ===================================================================== *)
(** ** pvs_search.ts: a one-stone win at the root is played *)
(* ===================================================================== *)

(** *** Writing stones *)

Lemma nth_error_updateNth {A} (f : A -> A) (l : list A) : forall n m,
  nth_error (updateNth n f l) m =
  if (n =? m)%nat then option_map f (nth_error l m) else nth_error l m.
Proof.
  induction l as [|a l IH]; intros n m.
  - destruct n, m; cbn [updateNth nth_error option_map]; now destruct (_ =? _)%nat.
  - destruct n as [|n], m as [|m]; cbn [updateNth nth_error Nat.eqb option_map];
      try reflexivity. apply IH.
Qed.

Lemma length_updateNth {A} (f : A -> A) (l : list A) : forall n,
  length (updateNth n f l) = length l.
Proof.
  induction l as [|a l IH]; intros [|n]; cbn [updateNth length]; try reflexivity.
  now rewrite IH.
Qed.

(** Reading a board after [board[y][x] = v]. *)
Lemma cellAt_setCell b x y v x' y' :
  cellAt (setCell b x y v) x' y' =
  if (x' =? x) && (y' =? y)
  then match cellAt b x y with Some _ => Some v | None => None end
  else cellAt b x' y'.
Proof.
  unfold setCell, cellAt.
  destruct (x <? 0) eqn:Ex; cbn [orb].
  { destruct ((x' =? x) && (y' =? y)) eqn:E; [|reflexivity].
    apply andb_true_iff in E. destruct E as [E1 E2].
    apply Z.eqb_eq in E1. subst x'. rewrite Ex. reflexivity. }
  destruct (y <? 0) eqn:Ey; cbn [orb].
  { destruct ((x' =? x) && (y' =? y)) eqn:E; [|reflexivity].
    apply andb_true_iff in E. destruct E as [E1 E2].
    apply Z.eqb_eq in E2. subst y'. rewrite Ey, orb_true_r. reflexivity. }
  apply Z.ltb_ge in Ex, Ey.
  destruct (x' <? 0) eqn:Ex'; cbn [orb].
  { replace (x' =? x) with false; [reflexivity|].
    symmetry. apply Z.eqb_neq. apply Z.ltb_lt in Ex'. lia. }
  destruct (y' <? 0) eqn:Ey'; cbn [orb].
  { replace (y' =? y) with false; [now rewrite andb_false_r|].
    symmetry. apply Z.eqb_neq. apply Z.ltb_lt in Ey'. lia. }
  apply Z.ltb_ge in Ex', Ey'.
  rewrite nth_error_updateNth.
  destruct (Z.to_nat y =? Z.to_nat y')%nat eqn:Eyy.
  - apply Nat.eqb_eq in Eyy. assert (y' = y) by lia. subst y'.
    rewrite Z.eqb_refl, andb_true_r.
    destruct (nth_error b (Z.to_nat y)) as [row|]; cbn [option_map].
    + rewrite nth_error_updateNth.
      destruct (Z.to_nat x =? Z.to_nat x')%nat eqn:Exx.
      * apply Nat.eqb_eq in Exx. assert (x' = x) by lia. subst x'.
        rewrite Z.eqb_refl. now destruct (nth_error row (Z.to_nat x)).
      * apply Nat.eqb_neq in Exx.
        replace (x' =? x) with false; [reflexivity|].
        symmetry. apply Z.eqb_neq. intros ->. contradiction.
    + now destruct (x' =? x).
  - apply Nat.eqb_neq in Eyy.
    replace (y' =? y) with false; [now rewrite andb_false_r|].
    symmetry. apply Z.eqb_neq. intros ->. contradiction.
Qed.

Lemma wfBoard_setCell b x y v : wfBoard b -> wfBoard (setCell b x y v).
Proof.
  intros [Hl Hr]. unfold setCell. destruct ((x <? 0) || (y <? 0)); [now split|].
  split; [now rewrite length_updateNth|].
  apply Forall_forall. intros row Hrow.
  apply In_nth_error in Hrow. destruct Hrow as [n Hn].
  rewrite nth_error_updateNth in Hn. rewrite Forall_forall in Hr.
  destruct (Z.to_nat y =? n)%nat.
  - destruct (nth_error b n) as [row0|] eqn:E; [|discriminate].
    injection Hn as <-. rewrite length_updateNth. apply Hr. eapply nth_error_In; eauto.
  - apply Hr. eapply nth_error_In; eauto.
Qed.

Lemma wfBoard_placeStones ps v : forall b, wfBoard b -> wfBoard (placeStones b ps v).
Proof.
  unfold placeStones. induction ps as [|p ps IH]; intros b H; [exact H|].
  cbn [fold_left]. apply IH. now apply wfBoard_setCell.
Qed.

(** A cell that holds [v], or is written, holds [v] after the stones are
    placed; any other cell is unchanged. *)
Lemma cellAt_placeStones ps v : forall b x y,
  cellAt (placeStones b ps v) x y =
  match cellAt b x y with
  | Some c => if hasPos ps (mkPos x y) then Some v else Some c
  | None => None
  end.
Proof.
  unfold placeStones. induction ps as [|p ps IH]; intros b x y; cbn [fold_left].
  - cbn [hasPos existsb]. now destruct (cellAt b x y).
  - rewrite IH, cellAt_setCell. unfold hasPos. cbn [existsb].
    unfold pos_eqb at 2. cbn [pos_x pos_y].
    destruct ((x =? pos_x p) && (y =? pos_y p)) eqn:E; cbn [orb].
    + apply andb_true_iff in E. destruct E as [E1 E2].
      apply Z.eqb_eq in E1, E2. subst x y.
      destruct (cellAt b (pos_x p) (pos_y p)); [|reflexivity].
      now destruct (existsb _ ps).
    + reflexivity.
Qed.

Lemma cellAt_Some_inBoard b x y c :
  wfBoard b -> cellAt b x y = Some c -> inBoard x y = true.
Proof.
  intros [Hl Hr] H. unfold cellAt in H.
  destruct (x <? 0) eqn:Ex; [discriminate|]. destruct (y <? 0) eqn:Ey; [discriminate|].
  cbn [orb] in H. apply Z.ltb_ge in Ex, Ey.
  destruct (nth_error b (Z.to_nat y)) as [row|] eqn:Erow; [|discriminate].
  assert (Hy : (Z.to_nat y < length b)%nat) by (apply nth_error_Some; congruence).
  assert (Hx : (Z.to_nat x < length row)%nat) by (apply nth_error_Some; congruence).
  rewrite Forall_forall in Hr. rewrite (Hr row (nth_error_In _ _ Erow)) in Hx.
  rewrite Hl in Hy. unfold BOARD_SIZE in *. apply inBoard_iff. lia.
Qed.

(** *** The shape of the roads *)

Lemma allPosEq_eq : forall l1 l2,
  length l1 = length l2 -> allPosEq l1 l2 = true -> l1 = l2.
Proof.
  induction l1 as [|p l1 IH]; intros [|q l2] Hl H; try discriminate; [reflexivity|].
  cbn [allPosEq] in H. apply andb_true_iff in H. destruct H as [Hp H].
  apply pos_eqb_eq in Hp. subst q. f_equal. apply IH; [|exact H].
  now injection Hl.
Qed.

(** A road is a window of six cells of the board along one of [DIRS]. *)
Definition roadShapeOk (r : Road) : bool :=
  match cells r with
  | [] => false
  | c0 :: _ =>
      existsb
        (fun d : Z * Z =>
           (length (cells r) =? 6)%nat &&
           allPosEq (cells r) (windowCells (pos_x c0) (pos_y c0) (fst d) (snd d)))
        DIRS
      && forallb isInsideBoard (cells r)
  end.

Lemma ALL_ROADS_shape r :
  In r ALL_ROADS ->
  exists x y dx dy,
    In (dx, dy) DIRS /\ cells r = windowCells x y dx dy /\
    Forall (fun c => isInsideBoard c = true) (cells r).
Proof.
  intros Hr.
  assert (H : forallb roadShapeOk ALL_ROADS = true) by (vm_compute; reflexivity).
  assert (Hok := proj1 (forallb_forall _ _) H r Hr). clear H.
  unfold roadShapeOk in Hok. destruct (cells r) as [|c0 cs] eqn:Ec; [discriminate|].
  apply andb_true_iff in Hok. destruct Hok as [Hex Hin].
  apply existsb_exists in Hex. destruct Hex as [[dx dy] [Hd Heq]].
  apply andb_true_iff in Heq. destruct Heq as [Hlen Heq].
  apply Nat.eqb_eq in Hlen.
  exists (pos_x c0), (pos_y c0), dx, dy. split; [exact Hd|]. split.
  - apply allPosEq_eq; [|exact Heq]. rewrite Hlen. reflexivity.
  - apply Forall_forall. exact (proj1 (forallb_forall _ _) Hin).
Qed.

(** *** One-stone wins *)

(** A road on which [p] has five stones and the opponent none. *)
Definition mateRoad (s : GameState) (p : Player) (r : Road) : Prop :=
  In r ALL_ROADS /\
  countCells (stoneOf p) (roadValues s r) = 5 /\
  countCells (stoneOf (otherPlayer p)) (roadValues s r) = 0.

(** The single-point mate of [p]: the empty cell of such a road. *)
Definition mateCell (s : GameState) (p : Player) (c : Position) : Prop :=
  exists r, mateRoad s p r /\ In c (cells r) /\ cellAtPos (board s) c = Some Empty.

Lemma detectWinningMoves_In s p c :
  In c (detectWinningMoves s p) <-> mateCell s p c.
Proof.
  unfold detectWinningMoves, getAllRoads. cbv zeta.
  rewrite (fold_collect_In _
    (fun r e =>
       (countCells (stoneOf (otherPlayer p)) (roadValues s r) =? 0) &&
       (countCells (stoneOf p) (roadValues s r) =? 5) = true /\
       In e (roadEmpties s r))).
  - unfold mateCell, mateRoad, roadEmpties. split.
    + intros [[]|[r [Hr [Hc He]]]]. apply andb_true_iff in Hc. destruct Hc as [H0 H5].
      apply Z.eqb_eq in H0, H5. apply filter_In in He. destruct He as [He Hv].
      apply cellIs_eq in Hv. exists r. tauto.
    + intros [r [[Hr [H5 H0]] [He Hv]]]. right. exists r. split; [exact Hr|]. split.
      * rewrite H0, H5. reflexivity.
      * apply filter_In. split; [exact He|]. now apply cellIs_eq.
  - intros acc r e.
    destruct ((countCells (stoneOf (otherPlayer p)) (roadValues s r) =? 0) &&
              (countCells (stoneOf p) (roadValues s r) =? 5)).
    + rewrite fold_pushNew_In. tauto.
    + split; [auto|]. intros [H|[H _]]; [exact H|discriminate].
Qed.

(** *** The candidates are empty cells *)

Lemma fold_left_invariant {A B} (P : B -> Prop) (F : B -> A -> B) (l : list A) :
  (forall acc a, In a l -> P acc -> P (F acc a)) ->
  forall acc, P acc -> P (fold_left F l acc).
Proof.
  induction l as [|a l IH]; intros HF acc Hacc; [exact Hacc|].
  cbn [fold_left]. apply IH.
  - intros acc' a' Ha'. apply HF. now right.
  - apply HF; [now left|exact Hacc].
Qed.

Definition allEmpty (s : GameState) (l : list Position) : Prop :=
  forall e, In e l -> cellAtPos (board s) e = Some Empty.

Lemma allEmpty_pushNew s l p :
  allEmpty s l -> cellAtPos (board s) p = Some Empty -> allEmpty s (pushNew l p).
Proof.
  intros Hl Hp e He. apply pushNew_In in He. destruct He as [He| ->]; auto.
Qed.

Lemma computeRelevantZones_empty s radius : allEmpty s (computeRelevantZones s radius).
Proof.
  unfold computeRelevantZones. cbv zeta.
  destruct (filter _ allPositions) as [|o occupied].
  - intros e He. apply filter_In in He. now apply cellIs_eq.
  - apply fold_left_invariant; [|intros e []].
    intros acc p _ Hacc.
    apply fold_left_invariant; [|exact Hacc]. intros acc1 dy _ Hacc1.
    apply fold_left_invariant; [|exact Hacc1]. intros acc2 dx _ Hacc2.
    destruct (_ || _); [exact Hacc2|].
    destruct (cellIs (cellAt (board s) (pos_x p + dx) (pos_y p + dy)) Empty) eqn:E;
      cbn [negb]; [|exact Hacc2].
    apply allEmpty_pushNew; [exact Hacc2|]. now apply cellIs_eq.
Qed.

Lemma urgentInWindow_empty s x y dx dy : allEmpty s (urgentInWindow s x y dx dy).
Proof.
  unfold urgentInWindow. cbv zeta.
  assert (Hf : allEmpty s (filter (fun p => cellIs (cellAtPos (board s) p) Empty)
                             (windowCells x y dx dy))).
  { intros e He. apply filter_In in He. now apply cellIs_eq. }
  repeat match goal with
         | |- allEmpty _ (if ?c then _ else _) => destruct c
         end; try exact Hf; intros e [].
Qed.

Lemma findUrgentThreatBlocks_empty s : allEmpty s (findUrgentThreatBlocks s).
Proof.
  intros e He. apply findUrgentThreatBlocks_In in He.
  destruct He as (d & y & x & _ & _ & _ & He).
  exact (urgentInWindow_empty s x y (fst d) (snd d) e He).
Qed.

Lemma rzopStep_empty s urgent st pos :
  cellAtPos (board s) pos = Some Empty ->
  allEmpty s (rz_candidates st) -> allEmpty s (rz_candidates (rzopStep s urgent st pos)).
Proof.
  intros Hp H. unfold rzopStep.
  repeat match goal with
         | |- context [if ?c then _ else _] => destruct c; [exact H|]
         end.
  cbn [rz_candidates]. now apply allEmpty_pushNew.
Qed.

Lemma generateRZOPCandidates_empty s : allEmpty s (generateRZOPCandidates s).
Proof.
  unfold generateRZOPCandidates. cbv zeta.
  set (urgent := findUrgentThreatBlocks s).
  set (relevant := computeRelevantZones s 3).
  assert (Hrel : allEmpty s relevant) by apply computeRelevantZones_empty.
  assert (Hc : allEmpty s (rz_candidates
                 (fold_left (rzopStep s urgent) relevant
                    (mkRzopLoop (fold_left pushNew urgent []) [] [] [])))).
  { apply (fold_left_invariant (fun st => allEmpty s (rz_candidates st))).
    - intros acc pos Hpos Hacc. apply rzopStep_empty; [now apply Hrel|exact Hacc].
    - cbn [rz_candidates]. intros e He. apply fold_pushNew_In in He.
      destruct He as [[]|He]. now apply findUrgentThreatBlocks_empty. }
  destruct (rz_candidates _) as [|c cand]; [exact Hrel|].
  intros e He. apply sortBy_In in He. now apply Hc.
Qed.

(** The second stone is an empty cell whenever the first one is. *)
Lemma companionStone_empty s must :
  cellAtPos (board s) must = Some Empty ->
  cellAtPos (board s) (companionStone s must) = Some Empty.
Proof.
  intros Hm. unfold companionStone.
  destruct (filter _ (generateRZOPCandidates s)) as [|second rest] eqn:E; [exact Hm|].
  apply generateRZOPCandidates_empty.
  assert (H : In second (filter (fun p => negb (pos_eqb p must)) (generateRZOPCandidates s)))
    by (rewrite E; now left).
  apply filter_In in H. tauto.
Qed.

(** With no other candidate the first stone is repeated; otherwise the
    second stone is the first candidate of RZOP that differs from it. *)
Lemma companionStone_choice s must :
  (companionStone s must = must /\
   forall c, In c (generateRZOPCandidates s) -> c = must) \/
  (In (companionStone s must) (generateRZOPCandidates s) /\
   companionStone s must <> must).
Proof.
  unfold companionStone.
  destruct (filter _ (generateRZOPCandidates s)) as [|second rest] eqn:E.
  - left. split; [reflexivity|]. intros c Hc.
    destruct (pos_eqb c must) eqn:Ec; [now apply pos_eqb_eq|].
    assert (H : In c (filter (fun p => negb (pos_eqb p must)) (generateRZOPCandidates s)))
      by (apply filter_In; rewrite Ec; auto).
    rewrite E in H. destruct H.
  - right.
    assert (H : In second (filter (fun p => negb (pos_eqb p must)) (generateRZOPCandidates s)))
      by (rewrite E; now left).
    apply filter_In in H. destruct H as [Hin Hne]. split; [exact Hin|].
    intros ->. rewrite pos_eqb_refl in Hne. discriminate.
Qed.

(** *** The move wins *)

Lemma filter_length_all {A} (f : A -> bool) (l : list A) :
  length (filter f l) = length l -> forall a, In a l -> f a = true.
Proof.
  induction l as [|x l IH]; intros H a Ha; [destruct Ha|].
  cbn [filter] in H. pose proof (filter_length_le f l) as Hle.
  destruct (f x) eqn:Ex; cbn [length] in H; [|lia].
  destruct Ha as [<-|Ha]; [exact Ex|]. apply IH; [lia|exact Ha].
Qed.

(** All but one: when all cells but one pass a test that [a] fails, every
    cell other than [a] passes it. *)
Lemma filter_length_all_but_one {A} (f : A -> bool) (l : list A) (a : A) :
  S (length (filter f l)) = length l -> In a l -> f a = false ->
  forall b, In b l -> f b = true \/ b = a.
Proof.
  induction l as [|x l IH]; intros H Ha Hfa b Hb; [destruct Ha|].
  cbn [filter] in H. destruct (f x) eqn:Ex; cbn [length] in H.
  - destruct Ha as [->|Ha]; [congruence|].
    destruct Hb as [<-|Hb]; [now left|]. apply IH; auto.
  - assert (Hall := filter_length_all f l ltac:(lia)).
    destruct Ha as [->|Ha]; [|rewrite (Hall a Ha) in Hfa; discriminate].
    destruct Hb as [<-|Hb]; [now right|]. left. now apply Hall.
Qed.

(** On a road with five stones of [p], every cell but the mate cell holds
    a stone of [p]. *)
Lemma mateRoad_cells s p r c :
  mateRoad s p r -> In c (cells r) -> cellAtPos (board s) c = Some Empty ->
  forall q, In q (cells r) -> cellAtPos (board s) q = Some (stoneOf p) \/ q = c.
Proof.
  intros (Hr & H5 & _) Hc He q Hq.
  unfold roadValues in H5. rewrite countCells_map_filter in H5.
  assert (Hlen : length (cells r) = 6%nat).
  { exact (proj1 (Forall_forall _ _) ALL_ROADS_six_cells r Hr). }
  assert (Hfc : cellIs (cellAtPos (board s) c) (stoneOf p) = false).
  { rewrite He. now destruct p. }
  assert (Hcount : S (length (filter (fun q => cellIs (cellAtPos (board s) q) (stoneOf p))
                                (cells r))) = length (cells r)) by lia.
  destruct (filter_length_all_but_one _ (cells r) c Hcount Hc Hfc q Hq) as [H|H].
  - left. now apply cellIs_eq.
  - now right.
Qed.

(** Placing the mate cell (with any second stone) fills the road. *)
Lemma mateCell_makes_six s p c second :
  mateCell s p c ->
  hasSix (placeStones (board s) [c; second] (stoneOf p)) p.
Proof.
  intros (r & Hroad & Hc & He).
  destruct (ALL_ROADS_shape r (proj1 Hroad)) as (x & y & dx & dy & Hd & Hcells & Hin).
  exists x, y, dx, dy. split; [exact Hd|]. intros k Hk.
  assert (Hq : In (mkPos (x + dx * k) (y + dy * k)) (cells r)).
  { rewrite Hcells. apply windowCells_In. eauto. }
  rewrite !(Z.mul_comm k). split.
  - rewrite Forall_forall in Hin. specialize (Hin _ Hq).
    apply isInsideBoard_iff in Hin. apply inBoard_iff. exact Hin.
  - rewrite cellAt_placeStones.
    destruct (mateRoad_cells s p r c Hroad Hc He _ Hq) as [Hown|Heq].
    + unfold cellAtPos in Hown. cbn [pos_x pos_y] in Hown. rewrite Hown.
      now destruct (hasPos _ _).
    + rewrite Heq. unfold cellAtPos in He.
      destruct c as [cx cy]. cbn [pos_x pos_y] in *. injection Heq as -> ->.
      rewrite He. unfold hasPos. cbn [existsb]. now rewrite pos_eqb_refl.
Qed.

Lemma cellAtPos_empty_inside b c :
  wfBoard b -> cellAtPos b c = Some Empty -> isInsideBoard c = true /\ emptyAt b c.
Proof.
  intros Hwf He. split; [|exact He].
  apply isInsideBoard_iff, inBoard_iff. eapply cellAt_Some_inBoard; eauto.
Qed.

(** The winning move is accepted, and the state it leads to has a winner. *)
Lemma mateMove_applies s p c :
  wfBoard (board s) -> p = currentPlayer s -> moveNumber s <> 0 ->
  mateCell s p c ->
  exists next w,
    applyMoveWithWinner s (mkMove p [c; companionStone s c]) = Ok next /\
    winner next = Some w.
Proof.
  intros Hwf Hp Hm Hmate.
  assert (He : cellAtPos (board s) c = Some Empty) by now destruct Hmate as (r & _ & _ & He).
  destruct (proj2 (applyMoveWithWinner_Ok_iff s (mkMove p [c; companionStone s c])))
    as [next Hnext].
  { split; [exact Hp|]. split.
    - cbn [positions length player]. unfold getStonesToPlace.
      replace (moveNumber s =? 0) with false by (symmetry; now apply Z.eqb_neq).
      reflexivity.
    - cbn [positions]. apply Forall_cons; [|apply Forall_cons; [|apply Forall_nil]].
      + now apply cellAtPos_empty_inside.
      + apply cellAtPos_empty_inside; [exact Hwf|]. now apply companionStone_empty. }
  destruct (applyMoveWithWinner_successor _ _ _ Hnext) as (Hb & _ & _ & _ & Hw).
  cbn [positions player] in Hb.
  assert (Hsix : hasSix (board next) p).
  { rewrite Hb. now apply mateCell_makes_six. }
  assert (Hwf' : wfBoard (board next)).
  { rewrite Hb. now apply wfBoard_placeStones. }
  destruct (scan_finds _ _ Hwf' Hsix) as [q Hq].
  exists next, (Won q). split; [exact Hnext|].
  rewrite Hw. unfold checkWinner. cbv zeta. rewrite Hq. reflexivity.
Qed.

(** *** The root decision *)

Lemma threatEmpties_single s c :
  cellAtPos (board s) c = Some Empty ->
  threatEmpties s (mkThreat [c] true 0) = [c].
Proof.
  intros He. unfold threatEmpties. cbn [threat_positions fold_left].
  rewrite He. reflexivity.
Qed.

Lemma detectVCDT_first_win s p c rest :
  detectWinningMoves s p = c :: rest ->
  find (isLevel true 0) (detectVCDT s p) = Some (mkThreat [c] true 0).
Proof.
  intros H. unfold detectVCDT. cbv zeta. rewrite H. reflexivity.
Qed.

Lemma findVcdtRootMove_step1 s p t :
  find (isLevel true 0) (detectVCDT s p) = Some t ->
  findVcdtRootMove s p = Ok (Some (buildTwoStoneMoveFromThreat s p t, own_win)).
Proof. intros H. unfold findVcdtRootMove. rewrite H. reflexivity. Qed.

Lemma buildTwoStoneMoveFromThreat_single s p c :
  cellAtPos (board s) c = Some Empty ->
  buildTwoStoneMoveFromThreat s p (mkThreat [c] true 0) =
  mkMove p [c; companionStone s c].
Proof.
  intros He. unfold buildTwoStoneMoveFromThreat. cbv zeta.
  rewrite (threatEmpties_single s c He). reflexivity.
Qed.

(** With a one-stone win on the board, step 1 of [findVcdtRootMove] returns
    the first winning cell and its companion. *)
Lemma findVcdtRootMove_own_win s p c :
  mateCell s p c ->
  exists must,
    mateCell s p must /\
    findVcdtRootMove s p =
    Ok (Some (mkMove p [must; companionStone s must], own_win)).
Proof.
  intros Hmate. apply (proj2 (detectWinningMoves_In s p c)) in Hmate.
  destruct (detectWinningMoves s p) as [|must rest] eqn:E; [destruct Hmate|].
  assert (Hmust : mateCell s p must).
  { apply (proj1 (detectWinningMoves_In s p must)). rewrite E. now left. }
  exists must. split; [exact Hmust|].
  rewrite (findVcdtRootMove_step1 s p _ (detectVCDT_first_win s p must rest E)).
  rewrite buildTwoStoneMoveFromThreat_single; [reflexivity|].
  now destruct Hmust as (r & _ & _ & He).
Qed.

(** *** The search below a decided position *)

Section RootWin.

Variable clock : nat -> float.

(** On a state whose [winner] is set, [pvs] returns at once: the static
    evaluation when the deadline has passed, the win score otherwise. *)
Lemma pvs_decided state w fuel rootPlayer toMove alpha beta depth weights deadline isPV st :
  winner state = Some w ->
  exists v st',
    pvs clock (S fuel) state rootPlayer toMove alpha beta depth weights deadline isPV st
    = (Ok v, st') /\
    transpositionTable st' = transpositionTable st /\
    historyTable st' = historyTable st.
Proof.
  intros Hw. cbn [pvs]. unfold bind at 1. unfold modify at 1.
  unfold bind at 1. unfold getCurrentTime at 1.
  cbn [setNodeCount clockReads lastSearchNodeCount].
  destruct (deadline <? clock (clockReads st))%float.
  - unfold ret. eexists _, _. split; [reflexivity|]. split; reflexivity.
  - rewrite Hw. unfold ret. eexists _, _. split; [reflexivity|]. split; reflexivity.
Qed.

End RootWin.

(** X22: on a 19x19 board in the course of a game ([moveNumber] is not 0),
    when the side to move has a single-point mate (an empty cell of a road
    with five of its stones and no enemy stone), [pvsSearchBestMove]
    returns, whatever the clock, the weights, the configuration and the
    tables hold; the move it returns consists of a mate cell (the mate cell,
    when there is only one) and of the companion stone chosen from the RZOP
    candidates: the first candidate other than the mate cell, or, with no
    other candidate, the mate cell once more. *)
Theorem pvsSearchBestMove_plays_mate :
  forall (clock : nat -> float) (s : GameState) (p : Player)
         (weights : EvaluationWeights) (config : SearchConfig) (st : EngineState)
         (c : Position),
    wfBoard (board s) -> p = currentPlayer s -> moveNumber s <> 0 ->
    mateCell s p c ->
    exists must d st',
      pvsSearchBestMove clock s p weights config st = (Ok d, st') /\
      mateCell s p must /\
      ((forall c', mateCell s p c' -> c' = c) -> must = c) /\
      In must (positions (dec_move d)) /\
      dec_move d = mkMove p [must; companionStone s must] /\
      ((companionStone s must = must /\
        forall e, In e (generateRZOPCandidates s) -> e = must) \/
       (In (companionStone s must) (generateRZOPCandidates s) /\
        companionStone s must <> must)) /\
      dbg_mode (dec_debugInfo d) = vcdt_root /\
      dbg_reason (dec_debugInfo d) = Some own_win.
Proof.
  intros clock s p weights config st c Hwf Hp Hm Hmate.
  destruct (findVcdtRootMove_own_win s p c Hmate) as (must & Hmust & Hfind).
  destruct (mateMove_applies s p must Hwf Hp Hm Hmust) as (next & w & Happly & Hwin).
  exists must.
  assert (Hrun : exists d st',
    pvsSearchBestMove clock s p weights config st = (Ok d, st') /\
    dec_move d = mkMove p [must; companionStone s must] /\
    dbg_mode (dec_debugInfo d) = vcdt_root /\
    dbg_reason (dec_debugInfo d) = Some own_win).
  { unfold pvsSearchBestMove, resetKillers, bind, modify, getCurrentTime, liftR, gets, ret.
    rewrite Hfind. cbv beta iota zeta. rewrite Happly. cbv beta iota zeta.
    destruct (0 <? Z.max 0 (Z.max 1 (maxDepth config) - 1)).
    - unfold pvsFuel.
      match goal with
      | |- context [pvs clock (S ?f) next ?rp ?tm ?a ?b ?d ?wt ?dl ?pv ?st0] =>
          destruct (pvs_decided clock next w f rp tm a b d wt dl pv st0 Hwin)
            as (v & st1 & Hpvs & _)
      end.
      rewrite Hpvs. eexists _, _. repeat split.
    - eexists _, _. repeat split. }
  destruct Hrun as (d & st' & Hd & Hmv & Hmode & Hreason).
  exists d, st'. split; [exact Hd|]. split; [exact Hmust|].
  split; [intros Huniq; now apply Huniq|].
  split; [rewrite Hmv; now left|]. split; [exact Hmv|].
  split; [apply companionStone_choice|]. split; assumption.
Qed.

(** Black has five stones on column 9, closed by White at (9,10); the one
    mate cell is (9,4).  Black is to move. *)
Definition mateState : GameState :=
  {| board := placeStones
                (placeStones createEmptyBoard
                   [mkPos 9 5; mkPos 9 6; mkPos 9 7; mkPos 9 8; mkPos 9 9] Black)
                [mkPos 9 10; mkPos 8 5; mkPos 8 6; mkPos 10 7; mkPos 10 8; mkPos 3 3] White;
     currentPlayer := BLACK;
     moveNumber := 6;
     lastMove := None;
     winner := None |}.

(** A clock that advances by one millisecond at every reading. *)
Definition msClock (n : nat) : float := numZ (Z.of_nat n).

Lemma mateState_winning_cells : detectWinningMoves mateState BLACK = [mkPos 9 4].
Proof. vm_compute. reflexivity. Qed.

Lemma pvsSearchBestMove_plays_mate_witness :
  wfBoard (board mateState) /\
  mateCell mateState BLACK (mkPos 9 4) /\
  exists d st',
    pvsSearchBestMove msClock mateState BLACK sampleWeights (mkConfig 2 3000 false)
      initialEngine = (Ok d, st') /\
    In (mkPos 9 4) (positions (dec_move d)).
Proof.
  assert (Hwf : wfBoard (board mateState)) by (apply wfBoardb_true; vm_compute; reflexivity).
  assert (Hmate : mateCell mateState BLACK (mkPos 9 4)).
  { apply (proj1 (detectWinningMoves_In mateState BLACK (mkPos 9 4))).
    rewrite mateState_winning_cells. left. reflexivity. }
  assert (Hm : moveNumber mateState <> 0) by discriminate.
  split; [exact Hwf|]. split; [exact Hmate|].
  destruct (pvsSearchBestMove_plays_mate msClock mateState BLACK sampleWeights
              (mkConfig 2 3000 false) initialEngine (mkPos 9 4) Hwf eq_refl Hm Hmate)
    as (must & d & st' & Hd & _ & Huniq & Hin & _).
  exists d, st'. split; [exact Hd|].
  assert (Honly : forall c', mateCell mateState BLACK c' -> c' = mkPos 9 4).
  { intros c' Hc'. apply (proj2 (detectWinningMoves_In mateState BLACK c')) in Hc'.
    rewrite mateState_winning_cells in Hc'. destruct Hc' as [<-|[]]. reflexivity. }
  rewrite <- (Huniq Honly).
  exact Hin.
Defined.

(* ===================================================================== *)
(** ** rules.ts and game_state.ts: what an accepted move changes *)
(* ===================================================================== *)

Lemma checkPositions_hasPos b ps p :
  checkPositions b ps = Ok tt -> hasPos ps p = true ->
  cellAt b (pos_x p) (pos_y p) = Some Empty.
Proof.
  intros Hc Hp. apply checkPositions_Ok in Hc. apply hasPos_In in Hp.
  rewrite Forall_forall in Hc. exact (proj2 (Hc p Hp)).
Qed.

Lemma applyMoveWithWinner_checked s m s' :
  applyMoveWithWinner s m = Ok s' -> checkPositions (board s) (positions m) = Ok tt.
Proof.
  intros H. assert (Hacc : acceptedMove s m) by (apply applyMoveWithWinner_Ok_iff; eauto).
  apply checkPositions_Ok. exact (proj2 (proj2 Hacc)).
Qed.

(** X1: an accepted move writes the mover's stone on exactly the cells of
    the move and leaves every other cell as it was; the turn passes to the
    other player, one more move is counted, the move is recorded as the last
    one, the board keeps its 19x19 shape, the fields other than [winner] are
    those [applyMove] computes, and a winner that was already set is never
    cleared. *)
Theorem applyMoveWithWinner_frame :
  forall (s : GameState) (m : Move) (s' : GameState),
    applyMoveWithWinner s m = Ok s' ->
    (forall x y,
       cellAt (board s') x y =
       if hasPos (positions m) (mkPos x y) then Some (stoneOf (player m))
       else cellAt (board s) x y) /\
    board s' = board (applyMove s m) /\
    currentPlayer s' = otherPlayer (currentPlayer s) /\
    currentPlayer s' = currentPlayer (applyMove s m) /\
    moveNumber s' = moveNumber s + 1 /\
    lastMove s' = Some m /\
    (wfBoard (board s) -> wfBoard (board s')) /\
    (winner s <> None -> winner s' <> None).
Proof.
  intros s m s' H.
  pose proof (applyMoveWithWinner_checked s m s' H) as Hchk.
  assert (Hacc : acceptedMove s m) by (apply applyMoveWithWinner_Ok_iff; eauto).
  destruct (applyMoveWithWinner_successor s m s' H) as (Hb & Hp & Hn & Hl & Hw).
  split; [|split; [|split; [|split; [|split; [|split; [|split]]]]]].
  - intros x y. rewrite Hb, cellAt_placeStones.
    destruct (hasPos (positions m) (mkPos x y)) eqn:E.
    + pose proof (checkPositions_hasPos _ _ _ Hchk E) as He. cbn [pos_x pos_y] in He.
      rewrite He. reflexivity.
    + now destruct (cellAt (board s) x y).
  - rewrite Hb. unfold applyMove. cbn [board]. now rewrite cloneState_id.
  - rewrite Hp. f_equal. exact (proj1 Hacc).
  - rewrite Hp. reflexivity.
  - exact Hn.
  - exact Hl.
  - intros Hwf. rewrite Hb. now apply wfBoard_placeStones.
  - intros Hs. rewrite Hw. destruct (checkWinner s'); [discriminate|exact Hs].
Qed.

Definition secondMove : Move := mkMove WHITE [mkPos 8 9; mkPos 10 10].

Lemma applyMoveWithWinner_frame_witness :
  exists s',
    applyMoveWithWinner stateAfterOpening secondMove = Ok s' /\
    cellAt (board s') 8 9 = Some White /\
    cellAt (board s') 9 9 = cellAt (board stateAfterOpening) 9 9 /\
    moveNumber s' = 2.
Proof.
  destruct (applyMoveWithWinner stateAfterOpening secondMove) as [s'|e] eqn:E;
    [|vm_compute in E; discriminate E].
  exists s'. split; [reflexivity|].
  destruct (applyMoveWithWinner_frame stateAfterOpening secondMove s' E)
    as (Hcell & _ & _ & _ & Hn & _).
  split; [|split].
  - rewrite (Hcell 8 9). reflexivity.
  - rewrite (Hcell 9 9). reflexivity.
  - rewrite Hn. reflexivity.
Defined.

(* ===================================================================== *)
(** ** road_encoding.ts: the two-bit code of a road *)
(* ===================================================================== *)

Lemma cellBits_range c : 0 <= cellBits c < 4.
Proof. unfold cellBits. destruct (cellIs c Black), (cellIs c White); lia. Qed.

Lemma encodeCells_shift cs : forall i code,
  0 <= i ->
  encodeCells i cs code = Z.lor code (Z.shiftl (encodeCells 0 cs 0) (i * 2)).
Proof.
  induction cs as [|c cs IH]; intros i code Hi; cbn [encodeCells].
  - now rewrite Z.shiftl_0_l, Z.lor_0_r.
  - rewrite (IH (i + 1)) by lia. rewrite (IH (0 + 1)) by lia.
    rewrite Z.lor_0_l, Z.shiftl_0_r, Z.shiftl_lor, Z.shiftl_shiftl by lia.
    rewrite Z.lor_assoc. f_equal. f_equal. lia.
Qed.

Lemma encodeCells_cons c cs :
  encodeCells 0 (c :: cs) 0 = Z.lor (cellBits c) (Z.shiftl (encodeCells 0 cs 0) 2).
Proof.
  cbn [encodeCells]. rewrite (encodeCells_shift cs (0 + 1)) by lia.
  now rewrite Z.lor_0_l, Z.shiftl_0_r.
Qed.

Lemma encodeCells_nonneg cs : 0 <= encodeCells 0 cs 0.
Proof.
  induction cs as [|c cs IH]; [cbn; lia|].
  rewrite encodeCells_cons. apply Z.lor_nonneg. split.
  - apply cellBits_range.
  - now apply Z.shiftl_nonneg.
Qed.

Lemma small_shiftr b n : 0 <= b < 4 -> 2 <= n -> Z.shiftr b n = 0.
Proof.
  intros Hb Hn. apply Z.shiftr_eq_0; [lia|].
  destruct (Z.eq_dec b 0) as [->|Hne]; [cbn; lia|].
  assert (Z.log2 b < 2); [|lia].
  apply Z.log2_lt_pow2; [lia|]. change (2 ^ 2) with 4. lia.
Qed.

Lemma land_3_small b : 0 <= b < 4 -> Z.land b 3 = b.
Proof.
  intros Hb. change 3 with (Z.ones 2). rewrite Z.land_ones by lia.
  change (2 ^ 2) with 4. now apply Z.mod_small.
Qed.

Lemma land_3_shiftl x : Z.land (Z.shiftl x 2) 3 = 0.
Proof.
  change 3 with (Z.ones 2). rewrite Z.land_ones, Z.shiftl_mul_pow2 by lia.
  apply Z.mod_mul. change (2 ^ 2) with 4. lia.
Qed.

(** Reading the [k]-th pair of bits back. *)
Lemma encodeCells_decode cs : forall k,
  (k < length cs)%nat ->
  Z.land (Z.shiftr (encodeCells 0 cs 0) (Z.of_nat k * 2)) 3 = cellBits (nth k cs None).
Proof.
  induction cs as [|c cs IH]; intros k Hk; [cbn [length] in Hk; lia|].
  rewrite encodeCells_cons. destruct k as [|k].
  - cbn [nth]. change (Z.of_nat 0 * 2) with 0. rewrite Z.shiftr_0_r, Z.land_lor_distr_l.
    rewrite land_3_shiftl, Z.lor_0_r. apply land_3_small, cellBits_range.
  - cbn [nth]. cbn [length] in Hk. rewrite Z.shiftr_lor.
    rewrite small_shiftr by (try apply cellBits_range; lia). rewrite Z.lor_0_l.
    rewrite Z.shiftr_shiftl_r by lia.
    replace (Z.of_nat (S k) * 2 - 2) with (Z.of_nat k * 2) by lia.
    apply IH. lia.
Qed.

Lemma lor_lt_pow2 a b n :
  0 <= n -> 0 <= a < 2 ^ n -> 0 <= b < 2 ^ n -> Z.lor a b < 2 ^ n.
Proof.
  intros Hn Ha Hb.
  assert (H : Z.shiftr (Z.lor a b) n = 0).
  { rewrite Z.shiftr_lor, !Z.shiftr_div_pow2 by lia.
    rewrite (Z.div_small a), (Z.div_small b) by lia. reflexivity. }
  rewrite Z.shiftr_div_pow2 in H by lia.
  assert (Hp : 0 < 2 ^ n) by (apply Z.pow_pos_nonneg; lia).
  apply Z.div_small_iff in H; [|lia].
  assert (0 <= Z.lor a b) by (apply Z.lor_nonneg; lia). lia.
Qed.

Lemma encodeCells_bound cs : encodeCells 0 cs 0 < 2 ^ (2 * Z.of_nat (length cs)).
Proof.
  induction cs as [|c cs IH]; [cbn; lia|].
  rewrite encodeCells_cons. cbn [length].
  pose proof (cellBits_range c) as Hc. pose proof (encodeCells_nonneg cs) as Hn.
  replace (2 * Z.of_nat (S (length cs))) with (2 * Z.of_nat (length cs) + 2) by lia.
  assert (Hp : 0 < 2 ^ (2 * Z.of_nat (length cs))) by (apply Z.pow_pos_nonneg; lia).
  assert (Hpow : 2 ^ (2 * Z.of_nat (length cs) + 2) = 2 ^ (2 * Z.of_nat (length cs)) * 4).
  { rewrite Z.pow_add_r by lia. reflexivity. }
  apply lor_lt_pow2; [lia| |].
  - rewrite Hpow. lia.
  - rewrite Z.shiftl_mul_pow2 by lia. change (2 ^ 2) with 4. rewrite Hpow. lia.
Qed.

(** X2: the code of a road of six cells is a number below 4096 = 2^12
    whose [i]-th pair of bits, read back as [(code >> (i * 2)) & 3], is 1
    for a black stone, 2 for a white stone and 0 otherwise on the [i]-th
    cell of the road; so two states give a road the same code exactly when
    they agree on its six cells. *)
Theorem encodeRoad_decode :
  forall (s : GameState) (r : Road),
    length (cells r) = 6%nat ->
    0 <= encodeRoad s r < 4096 /\
    (forall i, 0 <= i < 6 ->
       Z.land (Z.shiftr (encodeRoad s r) (i * 2)) 3 =
       cellBits (cellAtPos (board s) (nth (Z.to_nat i) (cells r) (mkPos 0 0)))) /\
    (forall s',
       encodeRoad s r = encodeRoad s' r <->
       forall c, In c (cells r) ->
         cellBits (cellAtPos (board s) c) = cellBits (cellAtPos (board s') c)).
Proof.
  intros s r Hlen.
  assert (Hvals : forall t, length (roadValues t r) = 6%nat).
  { intros t. unfold roadValues. now rewrite length_map. }
  assert (Hdec : forall t i, 0 <= i < 6 ->
            Z.land (Z.shiftr (encodeRoad t r) (i * 2)) 3 =
            cellBits (cellAtPos (board t) (nth (Z.to_nat i) (cells r) (mkPos 0 0)))).
  { intros t i Hi. unfold encodeRoad.
    rewrite <- (Z2Nat.id i) at 1 by lia.
    rewrite encodeCells_decode by (rewrite Hvals; lia).
    unfold roadValues.
    rewrite (nth_indep _ None (cellAtPos (board t) (mkPos 0 0)))
      by (rewrite length_map; lia).
    now rewrite map_nth. }
  split; [|split].
  - unfold encodeRoad. split; [apply encodeCells_nonneg|].
    pose proof (encodeCells_bound (roadValues s r)) as Hb. rewrite Hvals in Hb.
    exact Hb.
  - apply Hdec.
  - intros s'. split.
    + intros Heq c Hc. apply In_nth with (d := mkPos 0 0) in Hc.
      destruct Hc as (n & Hn & <-).
      rewrite <- (Nat2Z.id n).
      rewrite <- !Hdec by lia. now rewrite Heq.
    + intros Hall. unfold encodeRoad, roadValues.
      assert (Hmap : forall cs,
        (forall c, In c cs ->
           cellBits (cellAtPos (board s) c) = cellBits (cellAtPos (board s') c)) ->
        encodeCells 0 (map (cellAtPos (board s)) cs) 0 =
        encodeCells 0 (map (cellAtPos (board s')) cs) 0).
      { induction cs as [|c cs IH]; intros H; [reflexivity|].
        cbn [map]. rewrite !encodeCells_cons. rewrite IH.
        - rewrite (H c) by now left. reflexivity.
        - intros c' Hc'. apply H. now right. }
      now apply Hmap.
Qed.

Lemma encodeRoad_decode_witness :
  0 <= encodeRoad openFourState (mkRoad 0 (windowCells 2 3 1 0)) < 4096 /\
  Z.land (Z.shiftr (encodeRoad openFourState (mkRoad 0 (windowCells 2 3 1 0))) (1 * 2)) 3 = 2.
Proof.
  destruct (encodeRoad_decode openFourState (mkRoad 0 (windowCells 2 3 1 0)) eq_refl)
    as (Hrange & Hdec & _).
  split; [exact Hrange|]. rewrite (Hdec 1) by lia. reflexivity.
Defined.

(* ===================================================================== *)
(** ** road_encoding.ts: the table of roads *)
(* ===================================================================== *)

Definition roadIdsOk (roads : list Road) : bool :=
  forallb (fun ir : nat * Road => road_id (snd ir) =? Z.of_nat (fst ir))
    (combine (seq 0 (length roads)) roads).

(** Every window of six cells inside the board is the cell list of a road. *)
Definition windowsCovered (roads : list Road) : bool :=
  forallb
    (fun d : Z * Z =>
       forallb
         (fun y =>
            forallb
              (fun x =>
                 let w := windowCells x y (fst d) (snd d) in
                 negb (forallb isInsideBoard w) ||
                 existsb (fun r => (length (cells r) =? 6)%nat && allPosEq (cells r) w) roads)
              (range BOARD_SIZE))
         (range BOARD_SIZE))
    DIRS.

Lemma combine_seq_nth_error {A} (l : list A) : forall start i a,
  nth_error l i = Some a -> In ((start + i)%nat, a) (combine (seq start (length l)) l).
Proof.
  induction l as [|x l IH]; intros start [|i] a H; try discriminate.
  - injection H as <-. cbn [length seq combine]. left. f_equal. lia.
  - cbn [length seq combine nth_error] in *. right.
    replace (start + S i)%nat with (S start + i)%nat by lia. now apply IH.
Qed.

(** X3: [precomputeRoads] yields 924 roads numbered 0, 1, ... in order;
    each is a window of six cells of the board along one of the four
    directions, and every such window that lies inside the board is a road. *)
Theorem precomputeRoads_table :
  length ALL_ROADS = 924%nat /\
  (forall i r, nth_error ALL_ROADS i = Some r -> road_id r = Z.of_nat i) /\
  (forall r, In r ALL_ROADS ->
     exists x y dx dy,
       In (dx, dy) DIRS /\ cells r = windowCells x y dx dy /\
       Forall (fun c => isInsideBoard c = true) (cells r)) /\
  (forall x y dx dy,
     In (dx, dy) DIRS ->
     Forall (fun c => isInsideBoard c = true) (windowCells x y dx dy) ->
     exists r, In r ALL_ROADS /\ cells r = windowCells x y dx dy).
Proof.
  split; [vm_compute; reflexivity|]. split; [|split].
  - intros i r Hr.
    assert (H : roadIdsOk ALL_ROADS = true) by (vm_compute; reflexivity).
    unfold roadIdsOk in H.
    pose proof (combine_seq_nth_error ALL_ROADS 0 i r Hr) as Hin.
    pose proof (proj1 (forallb_forall _ _) H _ Hin) as Hid.
    cbn [fst snd] in Hid. now apply Z.eqb_eq in Hid.
  - exact ALL_ROADS_shape.
  - intros x y dx dy Hd Hin.
    assert (H : windowsCovered ALL_ROADS = true) by (vm_compute; reflexivity).
    unfold windowsCovered in H.
    pose proof (proj1 (forallb_forall _ _) H _ Hd) as Hy. cbn [fst snd] in Hy. clear H.
    assert (Hstart : isInsideBoard (mkPos x y) = true).
    { rewrite Forall_forall in Hin. apply Hin. apply windowCells_In. exists 0.
      split; [lia|]. f_equal; lia. }
    apply isInsideBoard_iff in Hstart. cbn [pos_x pos_y] in Hstart.
    assert (Hyr : In y (range BOARD_SIZE)) by (apply range_In; unfold BOARD_SIZE; lia).
    assert (Hxr : In x (range BOARD_SIZE)) by (apply range_In; unfold BOARD_SIZE; lia).
    pose proof (proj1 (forallb_forall _ _) (proj1 (forallb_forall _ _) Hy y Hyr) x Hxr) as Hw.
    cbv zeta in Hw. apply orb_true_iff in Hw. destruct Hw as [Hw|Hw].
    + apply negb_true_iff in Hw.
      assert (Hall : forallb isInsideBoard (windowCells x y dx dy) = true).
      { apply forallb_forall. now apply Forall_forall. }
      rewrite Hall in Hw. discriminate.
    + apply existsb_exists in Hw. destruct Hw as (r & Hr & Heq).
      apply andb_true_iff in Heq. destruct Heq as [Hlen Heq]. apply Nat.eqb_eq in Hlen.
      exists r. split; [exact Hr|]. apply allPosEq_eq; [|exact Heq].
      rewrite Hlen. reflexivity.
Qed.

Lemma precomputeRoads_table_witness :
  exists r, In r ALL_ROADS /\ cells r = windowCells 13 5 1 (-1).
Proof.
  apply (proj2 (proj2 (proj2 precomputeRoads_table)) 13 5 1 (-1)).
  - right. right. right. left. reflexivity.
  - unfold windowCells. cbn [map range seq Z.to_nat Pos.to_nat Pos.iter_op Nat.add].
    repeat (apply Forall_cons; [reflexivity|]). apply Forall_nil.
Defined.

(* ===================================================================== *)
(** ** vcdt.ts: what the detectors return *)
(* ===================================================================== *)

Lemma pushNew_NoDup l p : NoDup l -> NoDup (pushNew l p).
Proof.
  intros H. unfold pushNew. destruct (hasPos l p) eqn:E; [exact H|].
  apply NoDup_app; [exact H|repeat constructor; intros []|].
  - intros a Ha [<-|[]]. apply hasPos_In in Ha. congruence.
Qed.

Lemma fold_pushNew_NoDup xs : forall acc, NoDup acc -> NoDup (fold_left pushNew xs acc).
Proof.
  induction xs as [|x xs IH]; intros acc H; [exact H|].
  cbn [fold_left]. apply IH. now apply pushNew_NoDup.
Qed.

Lemma detectWinningMoves_NoDup s p : NoDup (detectWinningMoves s p).
Proof.
  unfold detectWinningMoves. cbv zeta.
  apply fold_left_invariant; [|constructor].
  intros acc r _ Hacc. destruct (_ && _); [|exact Hacc].
  now apply fold_pushNew_NoDup.
Qed.

(** X4: [detectWinningMoves] returns, without repetition, exactly the empty
    cells of the roads on which the player has five stones and the opponent
    none. *)
Theorem detectWinningMoves_exact :
  forall (s : GameState) (p : Player),
    NoDup (detectWinningMoves s p) /\
    forall c,
      In c (detectWinningMoves s p) <->
      exists r,
        In r ALL_ROADS /\
        countCells (stoneOf p) (roadValues s r) = 5 /\
        countCells (stoneOf (otherPlayer p)) (roadValues s r) = 0 /\
        In c (cells r) /\ cellAtPos (board s) c = Some Empty.
Proof.
  intros s p. split; [apply detectWinningMoves_NoDup|].
  intros c. rewrite detectWinningMoves_In. unfold mateCell, mateRoad. split.
  - intros (r & (Hr & H5 & H0) & Hc & He). exists r. tauto.
  - intros (r & Hr & H5 & H0 & Hc & He). exists r. tauto.
Qed.

(** *** Playing a detected win *)

Lemma mateCell_fills_road s p c ps :
  mateCell s p c -> In c ps ->
  hasSix (placeStones (board s) ps (stoneOf p)) p.
Proof.
  intros (r & Hroad & Hc & He) Hps.
  destruct (ALL_ROADS_shape r (proj1 Hroad)) as (x & y & dx & dy & Hd & Hcells & Hin).
  exists x, y, dx, dy. split; [exact Hd|]. intros k Hk.
  assert (Hq : In (mkPos (x + dx * k) (y + dy * k)) (cells r)).
  { rewrite Hcells. apply windowCells_In. eauto. }
  rewrite !(Z.mul_comm k). split.
  - rewrite Forall_forall in Hin. specialize (Hin _ Hq).
    apply isInsideBoard_iff in Hin. apply inBoard_iff. exact Hin.
  - rewrite cellAt_placeStones.
    destruct (mateRoad_cells s p r c Hroad Hc He _ Hq) as [Hown|Heq].
    + unfold cellAtPos in Hown. cbn [pos_x pos_y] in Hown. rewrite Hown.
      now destruct (hasPos _ _).
    + rewrite Heq. unfold cellAtPos in He.
      destruct c as [cx cy]. cbn [pos_x pos_y] in *. injection Heq as -> ->.
      rewrite He. now rewrite (proj2 (hasPos_In ps (mkPos cx cy)) Hps).
Qed.

(** Stones of [p] give the opponent no new line. *)
Lemma placeStones_no_six_for_opponent b ps p :
  hasSix (placeStones b ps (stoneOf p)) (otherPlayer p) -> hasSix b (otherPlayer p).
Proof.
  intros (x & y & dx & dy & Hd & Hsix). exists x, y, dx, dy. split; [exact Hd|].
  intros k Hk. destruct (Hsix k Hk) as [Hin Hc]. split; [exact Hin|].
  rewrite cellAt_placeStones in Hc.
  destruct (cellAt b (x + k * dx) (y + k * dy)) as [c|]; [|discriminate].
  destruct (hasPos ps _); [destruct p; discriminate|exact Hc].
Qed.

Lemma checkWinner_of_scan s q :
  firstSome (fun y => firstSome (fun x => winnerAt (board s) x y) (range BOARD_SIZE))
    (range BOARD_SIZE) = Some q ->
  checkWinner s = Some (Won q).
Proof. intros H. unfold checkWinner. cbv zeta. now rewrite H. Qed.

(** After an accepted move of [p] that completes a line of [p], the
    successor has a winner; it is [p] unless the opponent had a line. *)
Lemma winning_move_decides s m s' :
  wfBoard (board s) ->
  applyMoveWithWinner s m = Ok s' ->
  hasSix (placeStones (board s) (positions m) (stoneOf (player m))) (player m) ->
  (exists w, winner s' = Some w) /\
  (~ hasSix (board s) (otherPlayer (player m)) -> winner s' = Some (Won (player m))).
Proof.
  intros Hwf Happ Hsix.
  destruct (applyMoveWithWinner_successor s m s' Happ) as (Hb & _ & _ & _ & Hw).
  assert (Hwf' : wfBoard (board s')) by (rewrite Hb; now apply wfBoard_placeStones).
  rewrite <- Hb in Hsix.
  destruct (scan_finds _ _ Hwf' Hsix) as [q Hq].
  rewrite (checkWinner_of_scan s' q Hq) in Hw. split; [eauto|].
  intros Hopp. rewrite Hw. do 2 f_equal.
  pose proof (scan_Some _ _ Hwf' Hq) as Hqsix.
  assert (Hcases : q = player m \/ q = otherPlayer (player m))
    by (destruct q, (player m); auto).
  destruct Hcases as [->| ->]; [reflexivity|]. exfalso. apply Hopp.
  rewrite Hb in Hqsix. exact (placeStones_no_six_for_opponent _ _ _ Hqsix).
Qed.

(** X5: a cell returned by [detectWinningMoves] wins: every accepted move
    of the player that contains it leads to a state with [winner] set, and
    the winner is that player unless the opponent already had six in a row. *)
Theorem detectWinningMoves_sound :
  forall (s : GameState) (p : Player) (c : Position) (m : Move) (s' : GameState),
    wfBoard (board s) ->
    In c (detectWinningMoves s p) ->
    player m = p -> In c (positions m) ->
    applyMoveWithWinner s m = Ok s' ->
    (exists w, winner s' = Some w) /\
    (~ hasSix (board s) (otherPlayer p) -> winner s' = Some (Won p)).
Proof.
  intros s p c m s' Hwf Hc Hp Hin Happ. subst p.
  apply (winning_move_decides s m s' Hwf Happ).
  apply mateCell_fills_road with (c := c); [|exact Hin].
  now apply (proj1 (detectWinningMoves_In s (player m) c)).
Qed.

Lemma detectWinningMoves_sound_witness :
  exists s',
    applyMoveWithWinner mateState (mkMove BLACK [mkPos 0 0; mkPos 9 4]) = Ok s' /\
    winner s' = Some (Won BLACK).
Proof.
  assert (Hwf : wfBoard (board mateState)) by (apply wfBoardb_true; vm_compute; reflexivity).
  assert (Hc : In (mkPos 9 4) (detectWinningMoves mateState BLACK)).
  { rewrite mateState_winning_cells. left. reflexivity. }
  destruct (applyMoveWithWinner mateState (mkMove BLACK [mkPos 0 0; mkPos 9 4]))
    as [s'|e] eqn:E; [|vm_compute in E; discriminate E].
  exists s'. split; [reflexivity|].
  apply (proj2 (detectWinningMoves_sound mateState BLACK (mkPos 9 4)
                  (mkMove BLACK [mkPos 0 0; mkPos 9 4]) s' Hwf Hc eq_refl
                  (or_intror (or_introl eq_refl)) E)).
  intros (x & y & dx & dy & Hd & Hsix).
  assert (Hnone : firstSome (fun y => firstSome (fun x => winnerAt (board mateState) x y)
                                        (range BOARD_SIZE)) (range BOARD_SIZE) = None)
    by (vm_compute; reflexivity).
  destruct (scan_finds _ _ Hwf (ex_intro _ x (ex_intro _ y (ex_intro _ dx (ex_intro _ dy
             (conj Hd Hsix)))))) as [q Hq].
  rewrite Hnone in Hq. discriminate Hq.
Defined.

(** *** Two-stone wins *)

Lemma filter_two_classes_le {A} (f g : A -> bool) (l : list A) :
  (forall a, f a = true -> g a = false) ->
  (length (filter f l) + length (filter g l) <= length l)%nat.
Proof.
  intros Hfg. induction l as [|x l IH]; [cbn; lia|].
  cbn [filter]. destruct (f x) eqn:Ef.
  - rewrite (Hfg x Ef). cbn [length]. lia.
  - destruct (g x); cbn [length]; lia.
Qed.

Lemma filter_two_classes {A} (f g : A -> bool) (l : list A) :
  (forall a, f a = true -> g a = false) ->
  (length (filter f l) + length (filter g l) = length l)%nat ->
  forall a, In a l -> f a = true \/ g a = true.
Proof.
  intros Hfg. induction l as [|x l IH]; intros Hlen a Ha; [destruct Ha|].
  pose proof (filter_two_classes_le f g l Hfg) as Hle.
  cbn [filter] in Hlen. destruct (f x) eqn:Ef.
  - rewrite (Hfg x Ef) in Hlen. cbn [length] in Hlen.
    destruct Ha as [<-|Ha]; [now left|]. apply IH; [lia|exact Ha].
  - destruct (g x) eqn:Eg; cbn [length] in Hlen; [|lia].
    destruct Ha as [<-|Ha]; [now right|]. apply IH; [lia|exact Ha].
Qed.

(** A road on which [p] has four stones and the opponent none, with its two
    empty cells. *)
Definition fourTwoRoad (s : GameState) (p : Player) (r : Road) (e1 e2 : Position) : Prop :=
  In r ALL_ROADS /\
  roadEmpties s r = [e1; e2] /\
  countCells (stoneOf p) (roadValues s r) = 4 /\
  countCells (stoneOf (otherPlayer p)) (roadValues s r) = 0.

Lemma hasPair_true l a : hasPair l a = true <-> exists b, In b l /\ samePair a b = true.
Proof.
  unfold hasPair. rewrite existsb_exists. split; intros (b & H1 & H2); eauto.
Qed.

Lemma samePair_refl a : samePair a a = true.
Proof. unfold samePair. now rewrite !pos_eqb_refl. Qed.

Lemma fourPlusTwoPairs_sound s p e1 e2 :
  In (e1, e2) (fourPlusTwoPairs s p) -> exists r, fourTwoRoad s p r e1 e2.
Proof.
  unfold fourPlusTwoPairs, getAllRoads. cbv zeta.
  revert e1 e2.
  apply (fold_left_invariant
           (fun acc => forall e1 e2, In (e1, e2) acc -> exists r, fourTwoRoad s p r e1 e2));
    [|intros e1 e2 []].
  intros acc r Hr Hacc e1 e2.
  destruct (roadEmpties s r) as [|a [|b [|c rest]]] eqn:Ee; try apply Hacc.
  destruct ((countCells (stoneOf (otherPlayer p)) (roadValues s r) =? 0) &&
            (countCells (stoneOf p) (roadValues s r) =? 4)) eqn:Ec; [|apply Hacc].
  destruct (hasPair acc (a, b)); [apply Hacc|].
  intros Hin. apply in_app_or in Hin. destruct Hin as [Hin|[Heq|[]]]; [now apply Hacc|].
  injection Heq as <- <-. exists r.
  apply andb_true_iff in Ec. destruct Ec as [H0 H4]. apply Z.eqb_eq in H0, H4.
  exact (conj Hr (conj Ee (conj H4 H0))).
Qed.

Lemma fourPlusTwoPairs_complete s p r e1 e2 :
  fourTwoRoad s p r e1 e2 ->
  exists pr, In pr (fourPlusTwoPairs s p) /\ samePair (e1, e2) pr = true.
Proof.
  intros (Hr & Hemp & H4 & H0).
  unfold fourPlusTwoPairs, getAllRoads. cbv zeta.
  set (F := fun (pairs : list (Position * Position)) (road : Road) =>
             match roadEmpties s road with
             | [a; b] =>
                 if (countCells (stoneOf (otherPlayer p)) (roadValues s road) =? 0) &&
                    (countCells (stoneOf p) (roadValues s road) =? 4)
                 then if hasPair pairs (a, b) then pairs else pairs ++ [(a, b)]
                 else pairs
             | _ => pairs
             end).
  assert (Hkeep : forall l acc pr, In pr acc -> In pr (fold_left F l acc)).
  { induction l as [|x l IH]; intros acc pr Hpr; [exact Hpr|].
    cbn [fold_left]. apply IH. unfold F.
    destruct (roadEmpties s x) as [|a [|b [|c rest]]]; try exact Hpr.
    destruct (_ && _); [|exact Hpr].
    destruct (hasPair acc (a, b)); [exact Hpr|]. apply in_or_app. now left. }
  assert (Hadd : forall l acc, In r l ->
            exists pr, In pr (fold_left F l acc) /\ samePair (e1, e2) pr = true).
  { induction l as [|x l IH]; intros acc Hin; [destruct Hin|].
    cbn [fold_left]. destruct Hin as [->|Hin]; [|now apply IH].
    assert (Hstep : exists pr, In pr (F acc r) /\ samePair (e1, e2) pr = true).
    { unfold F. rewrite Hemp, H0, H4. cbn [Z.eqb andb Pos.eqb].
      destruct (hasPair acc (e1, e2)) eqn:Eh.
      - apply hasPair_true in Eh. exact Eh.
      - exists (e1, e2). split; [apply in_or_app; right; now left|apply samePair_refl]. }
    destruct Hstep as (pr & Hpr & Hsame). exists pr. split; [|exact Hsame].
    now apply Hkeep. }
  now apply Hadd.
Qed.

Definition roadCellsDistinct (r : Road) : bool :=
  forallb (fun ij : Position * Position => negb (pos_eqb (fst ij) (snd ij)))
    (orderedPairs (cells r)).

Lemma orderedPairs_NoDup (l : list Position) :
  forallb (fun ij : Position * Position => negb (pos_eqb (fst ij) (snd ij)))
    (orderedPairs l) = true -> NoDup l.
Proof.
  induction l as [|a l IH]; intros H; [constructor|].
  cbn [orderedPairs] in H. rewrite forallb_app in H.
  apply andb_true_iff in H. destruct H as [Ha Hl]. constructor; [|now apply IH].
  intros Hin. rewrite forallb_forall in Ha.
  specialize (Ha (a, a) (in_map _ _ _ Hin)). cbn [fst snd] in Ha.
  now rewrite pos_eqb_refl in Ha.
Qed.

Lemma ALL_ROADS_NoDup r : In r ALL_ROADS -> NoDup (cells r).
Proof.
  intros Hr.
  assert (H : forallb roadCellsDistinct ALL_ROADS = true) by (vm_compute; reflexivity).
  apply orderedPairs_NoDup. exact (proj1 (forallb_forall _ _) H r Hr).
Qed.

Lemma fourTwoRoad_cells s p r e1 e2 :
  fourTwoRoad s p r e1 e2 ->
  e1 <> e2 /\
  cellAtPos (board s) e1 = Some Empty /\ cellAtPos (board s) e2 = Some Empty /\
  forall q, In q (cells r) ->
    cellAtPos (board s) q = Some (stoneOf p) \/ q = e1 \/ q = e2.
Proof.
  intros (Hr & Hemp & H4 & _).
  assert (Hin : forall q, In q [e1; e2] <->
                          In q (cells r) /\ cellIs (cellAtPos (board s) q) Empty = true).
  { intros q. rewrite <- Hemp. unfold roadEmpties. apply filter_In. }
  assert (Hnd : NoDup [e1; e2]).
  { rewrite <- Hemp. unfold roadEmpties. apply NoDup_filter. now apply ALL_ROADS_NoDup. }
  split; [|split; [|split]].
  - intros ->. inversion Hnd as [|? ? Hn _]. apply Hn. now left.
  - apply cellIs_eq. apply (proj1 (Hin e1)). now left.
  - apply cellIs_eq. apply (proj1 (Hin e2)). right. now left.
  - intros q Hq.
    unfold roadValues in H4. rewrite countCells_map_filter in H4.
    assert (Hlen : length (cells r) = 6%nat)
      by exact (proj1 (Forall_forall _ _) ALL_ROADS_six_cells r Hr).
    assert (Hel : length (filter (fun q => cellIs (cellAtPos (board s) q) Empty) (cells r))
                  = 2%nat).
    { fold (roadEmpties s r). rewrite Hemp. reflexivity. }
    destruct (filter_two_classes
                (fun q => cellIs (cellAtPos (board s) q) (stoneOf p))
                (fun q => cellIs (cellAtPos (board s) q) Empty) (cells r)) with (a := q)
      as [H|H].
    + intros a Ha. apply cellIs_eq in Ha. rewrite Ha. now destruct p.
    + lia.
    + exact Hq.
    + left. now apply cellIs_eq.
    + right. assert (Hq' : In q [e1; e2]) by exact (proj2 (Hin q) (conj Hq H)).
      destruct Hq' as [Hq'|[Hq'|[]]]; [left|right]; symmetry; exact Hq'.
Qed.

Lemma fourTwoRoad_fills s p r e1 e2 :
  fourTwoRoad s p r e1 e2 ->
  hasSix (placeStones (board s) [e1; e2] (stoneOf p)) p.
Proof.
  intros Hroad.
  destruct (fourTwoRoad_cells s p r e1 e2 Hroad) as (_ & He1 & He2 & Hcells).
  destruct (ALL_ROADS_shape r (proj1 Hroad)) as (x & y & dx & dy & Hd & Hshape & Hin).
  exists x, y, dx, dy. split; [exact Hd|]. intros k Hk.
  assert (Hq : In (mkPos (x + dx * k) (y + dy * k)) (cells r)).
  { rewrite Hshape. apply windowCells_In. eauto. }
  rewrite !(Z.mul_comm k). split.
  - rewrite Forall_forall in Hin. specialize (Hin _ Hq).
    apply isInsideBoard_iff in Hin. apply inBoard_iff. exact Hin.
  - rewrite cellAt_placeStones.
    destruct (Hcells _ Hq) as [Hown|Heq].
    + unfold cellAtPos in Hown. cbn [pos_x pos_y] in Hown. rewrite Hown.
      now destruct (hasPos _ _).
    + assert (Hhas : hasPos [e1; e2] (mkPos (x + dx * k) (y + dy * k)) = true).
      { apply hasPos_In. destruct Heq as [->| ->]; [now left|right; now left]. }
      rewrite Hhas.
      assert (Hempty : cellAtPos (board s) (mkPos (x + dx * k) (y + dy * k)) = Some Empty)
        by (destruct Heq as [->| ->]; assumption).
      unfold cellAtPos in Hempty. cbn [pos_x pos_y] in Hempty. now rewrite Hempty.
Qed.

(** X6: a pair returned by [detectTwoStoneWinningPairs] consists of the two
    distinct empty cells of a road with four stones of the player and none
    of the opponent (and every such road has its pair in the list, in one
    order or the other); the move that plays both cells is accepted whenever
    the player is to move after the opening, and it leaves a state with
    [winner] set, the player's unless the opponent already had six in a
    row. *)
Theorem detectTwoStoneWinningPairs_sound :
  forall (s : GameState) (p : Player),
    wfBoard (board s) ->
    (forall e1 e2,
       In (e1, e2) (detectTwoStoneWinningPairs s p) ->
       e1 <> e2 /\
       cellAtPos (board s) e1 = Some Empty /\ cellAtPos (board s) e2 = Some Empty /\
       (exists r, fourTwoRoad s p r e1 e2) /\
       (p = currentPlayer s -> moveNumber s <> 0 ->
        exists s', applyMoveWithWinner s (mkMove p [e1; e2]) = Ok s') /\
       (forall s',
          applyMoveWithWinner s (mkMove p [e1; e2]) = Ok s' ->
          (exists w, winner s' = Some w) /\
          (~ hasSix (board s) (otherPlayer p) -> winner s' = Some (Won p)))) /\
    (forall r e1 e2,
       fourTwoRoad s p r e1 e2 ->
       In (e1, e2) (detectTwoStoneWinningPairs s p) \/
       In (e2, e1) (detectTwoStoneWinningPairs s p)).
Proof.
  intros s p Hwf. split.
  - intros e1 e2 Hin. unfold detectTwoStoneWinningPairs in Hin.
    destruct (fourPlusTwoPairs_sound s p e1 e2 Hin) as [r Hroad].
    destruct (fourTwoRoad_cells s p r e1 e2 Hroad) as (Hne & He1 & He2 & _).
    split; [exact Hne|]. split; [exact He1|]. split; [exact He2|].
    split; [eauto|]. split.
    + intros Hp Hm. apply (proj2 (applyMoveWithWinner_Ok_iff s (mkMove p [e1; e2]))).
      split; [exact Hp|]. split.
      * cbn [positions length player]. unfold getStonesToPlace.
        replace (moveNumber s =? 0) with false by (symmetry; now apply Z.eqb_neq).
        reflexivity.
      * cbn [positions]. apply Forall_cons; [|apply Forall_cons; [|apply Forall_nil]];
          now apply cellAtPos_empty_inside.
    + intros s' Happ.
      apply (winning_move_decides s (mkMove p [e1; e2]) s' Hwf Happ).
      cbn [positions player]. now apply fourTwoRoad_fills with (r := r).
  - intros r e1 e2 Hroad. unfold detectTwoStoneWinningPairs.
    destruct (fourPlusTwoPairs_complete s p r e1 e2 Hroad) as ([a b] & Hin & Hsame).
    unfold samePair in Hsame. cbn [fst snd] in Hsame.
    apply orb_true_iff in Hsame. destruct Hsame as [H|H];
      apply andb_true_iff in H; destruct H as [H1 H2];
      apply pos_eqb_eq in H1, H2; rewrite H1, H2; [left|right]; exact Hin.
Qed.

Lemma detectTwoStoneWinningPairs_sound_witness :
  wfBoard (board openFourState) /\
  exists w,
    winner
      (match applyMoveWithWinner
               {| board := board openFourState; currentPlayer := WHITE;
                  moveNumber := 5; lastMove := None; winner := None |}
               (mkMove WHITE [mkPos 2 3; mkPos 7 3]) with
       | Ok s' => s'
       | Throw _ => openFourState
       end) = Some w.
Proof.
  assert (Hwf : wfBoard (board openFourState))
    by (apply wfBoardb_true; vm_compute; reflexivity).
  split; [exact Hwf|].
  set (s := {| board := board openFourState; currentPlayer := WHITE;
               moveNumber := 5; lastMove := None; winner := None |}).
  assert (Hin : In (mkPos 2 3, mkPos 7 3) (detectTwoStoneWinningPairs s WHITE)).
  { vm_compute. right. left. reflexivity. }
  destruct (proj1 (detectTwoStoneWinningPairs_sound s WHITE Hwf) _ _ Hin)
    as (_ & _ & _ & _ & Hacc & Hwin).
  destruct (Hacc eq_refl ltac:(discriminate)) as [s' Hs'].
  rewrite Hs'. exact (proj1 (Hwin s' Hs')).
Defined.

(* ===================================================================== *)
(** ** rzop.ts: shape of the candidate list *)
(* ===================================================================== *)

(** *** The stable sort with a comparator *)

Section SortByOrder.

Context {A : Type} (after : A -> A -> bool).

Let le (a b : A) : Prop := after a b = false.

Hypothesis after_total : forall a b, after a b = true -> after b a = false.
Hypothesis le_trans : forall a b c, le a b -> le b c -> le a c.

Lemma insertBy_sorted a l :
  StronglySorted le l -> StronglySorted le (insertBy after a l).
Proof.
  induction 1 as [|b l Hl IH Hb]; cbn [insertBy].
  - constructor; constructor.
  - destruct (after a b) eqn:E.
    + constructor; [exact IH|].
      rewrite Forall_forall in *. intros c Hc.
      apply (Permutation_in _ (insertBy_Permutation after a l)) in Hc.
      destruct Hc as [<-|Hc]; [now apply after_total|now apply Hb].
    + constructor; [now constructor|]. constructor; [exact E|].
      rewrite Forall_forall in *. intros c Hc. apply (le_trans a b c E). now apply Hb.
Qed.

Lemma sortBy_sorted l : StronglySorted le (sortBy after l).
Proof.
  induction l as [|a l IH]; [constructor|].
  change (sortBy after (a :: l)) with (insertBy after a (sortBy after l)).
  now apply insertBy_sorted.
Qed.

End SortByOrder.

Lemma StronglySorted_weaken {A} (R Q : A -> A -> Prop) (l : list A) :
  (forall a b, R a b -> Q a b) -> StronglySorted R l -> StronglySorted Q l.
Proof.
  intros HRQ. induction 1 as [|a l Hl IH Ha]; constructor; [exact IH|].
  eapply Forall_impl; [|exact Ha]. intros b. apply HRQ.
Qed.

(** The order in which [generateRZOPCandidates] sorts: urgent cells first,
    then by distance to the centre. *)
Definition rzopOrder (urgent : list Position) (a b : Position) : Prop :=
  (In b urgent -> In a urgent) /\
  ((In a urgent <-> In b urgent) -> centerDistance a <= centerDistance b).

Lemma rzopCompare_order urgent a b :
  (0 <? rzopCompare urgent a b) = false <-> rzopOrder urgent a b.
Proof.
  unfold rzopCompare, rzopOrder. rewrite Z.ltb_ge.
  rewrite <- !hasPos_In.
  destruct (hasPos urgent a), (hasPos urgent b); cbv zeta; cbv [Z.eqb negb Pos.eqb].
  - split; [intros H; split; [auto|intros _; lia]|intros [_ H]].
    assert (centerDistance a <= centerDistance b) by (apply H; tauto). lia.
  - split; [intros H; split; [auto|intros [H1 _]; discriminate (H1 eq_refl)]|intros _; lia].
  - split; [intros H; exfalso; lia|intros [H _]; discriminate (H eq_refl)].
  - split; [intros H; split; [auto|intros _; lia]|intros [_ H]].
    assert (centerDistance a <= centerDistance b) by (apply H; tauto). lia.
Qed.

Lemma rzopOrder_trans urgent a b c :
  rzopOrder urgent a b -> rzopOrder urgent b c -> rzopOrder urgent a c.
Proof.
  unfold rzopOrder. rewrite <- !hasPos_In.
  destruct (hasPos urgent a), (hasPos urgent b), (hasPos urgent c);
    intros [H1 H2] [H3 H4]; split; try tauto; intros H5;
    try (assert (centerDistance a <= centerDistance b) by (apply H2; tauto);
         assert (centerDistance b <= centerDistance c) by (apply H4; tauto); lia);
    try (exfalso; destruct H5 as [H5 H6]; discriminate (H5 eq_refl) || discriminate (H6 eq_refl));
    try (exfalso; discriminate (H1 eq_refl)); try (exfalso; discriminate (H3 eq_refl)).
Qed.

Lemma sortBy_rzopOrder urgent l :
  StronglySorted (rzopOrder urgent) (sortBy (fun a b => 0 <? rzopCompare urgent a b) l).
Proof.
  apply (StronglySorted_weaken (fun a b => (0 <? rzopCompare urgent a b) = false)).
  - intros a b. apply rzopCompare_order.
  - apply sortBy_sorted.
    + intros a b H. apply rzopCompare_order.
      apply Z.ltb_lt in H. unfold rzopCompare, rzopOrder in *. rewrite <- !hasPos_In.
      destruct (hasPos urgent a), (hasPos urgent b); cbv zeta in *;
        cbv [Z.eqb negb Pos.eqb] in H; split; try tauto; try lia;
        try (intros _; lia); try (intros [H1 H2]; discriminate (H1 eq_refl) || discriminate (H2 eq_refl)).
    + intros a b c Hab Hbc. apply rzopCompare_order.
      apply rzopCompare_order in Hab, Hbc. now apply rzopOrder_trans with (b := b).
Qed.

(** *** No repetition *)

Lemma computeRelevantZones_NoDup s radius : NoDup (computeRelevantZones s radius).
Proof.
  unfold computeRelevantZones. cbv zeta.
  destruct (filter _ allPositions) as [|o occupied].
  - apply NoDup_filter.
    assert (H : forallb (fun ij : Position * Position => negb (pos_eqb (fst ij) (snd ij)))
                  (orderedPairs
                     (mkPos (BOARD_SIZE / 2) (BOARD_SIZE / 2) ::
                      flat_map
                        (fun d : Z * Z =>
                           let nx := BOARD_SIZE / 2 + fst d in
                           let ny := BOARD_SIZE / 2 + snd d in
                           if (nx <? 0) || (ny <? 0) || (BOARD_SIZE <=? nx) || (BOARD_SIZE <=? ny)
                           then [] else [mkPos nx ny])
                        [(1, 0); (0, 1); (-1, 0); (0, -1)])) = true)
      by (vm_compute; reflexivity).
    exact (orderedPairs_NoDup _ H).
  - apply fold_left_invariant; [|constructor].
    intros acc p _ Hacc.
    apply fold_left_invariant; [|exact Hacc]. intros acc1 dy _ Hacc1.
    apply fold_left_invariant; [|exact Hacc1]. intros acc2 dx _ Hacc2.
    destruct (_ || _); [exact Hacc2|].
    destruct (negb _); [exact Hacc2|]. now apply pushNew_NoDup.
Qed.

Lemma rzopStep_NoDup s urgent st pos :
  NoDup (rz_candidates st) -> NoDup (rz_candidates (rzopStep s urgent st pos)).
Proof.
  intros H. unfold rzopStep.
  repeat match goal with
         | |- context [if ?c then _ else _] => destruct c; [exact H|]
         end.
  cbn [rz_candidates]. now apply pushNew_NoDup.
Qed.

Lemma generateRZOPCandidates_NoDup s : NoDup (generateRZOPCandidates s).
Proof.
  unfold generateRZOPCandidates. cbv zeta.
  set (urgent := findUrgentThreatBlocks s).
  set (relevant := computeRelevantZones s 3).
  assert (Hc : NoDup (rz_candidates
                 (fold_left (rzopStep s urgent) relevant
                    (mkRzopLoop (fold_left pushNew urgent []) [] [] [])))).
  { apply (fold_left_invariant (fun st => NoDup (rz_candidates st))).
    - intros acc pos _ Hacc. now apply rzopStep_NoDup.
    - cbn [rz_candidates]. apply fold_pushNew_NoDup. constructor. }
  destruct (rz_candidates _) as [|c cand]; [apply computeRelevantZones_NoDup|].
  eapply Permutation_NoDup; [|exact Hc]. symmetry. apply sortBy_Permutation.
Qed.

Lemma generateRZOPCandidates_sorted s :
  StronglySorted (fun a b => In b (findUrgentThreatBlocks s) -> In a (findUrgentThreatBlocks s))
    (generateRZOPCandidates s).
Proof.
  destruct (rz_candidates
              (fold_left (rzopStep s (findUrgentThreatBlocks s)) (computeRelevantZones s 3)
                 (mkRzopLoop (fold_left pushNew (findUrgentThreatBlocks s) []) [] [] [])))
    as [|c cand] eqn:E.
  - destruct (generateRZOPCandidates_fallback s E) as [Hu Hg]. rewrite Hg, Hu.
    clear. generalize (computeRelevantZones s 3). intros l.
    induction l as [|a l IH]; constructor; [exact IH|].
    apply Forall_forall. intros b _ [].
  - unfold generateRZOPCandidates. cbv zeta. rewrite E.
    apply (StronglySorted_weaken (rzopOrder (findUrgentThreatBlocks s))).
    + intros a b [H _]. exact H.
    + apply sortBy_rzopOrder.
Qed.

(** Outside the fallback the list is sorted: urgent cells first, each
    group by increasing distance to the centre. *)
Lemma generateRZOPCandidates_sorted_by_distance s :
  rz_candidates
    (fold_left (rzopStep s (findUrgentThreatBlocks s)) (computeRelevantZones s 3)
       (mkRzopLoop (fold_left pushNew (findUrgentThreatBlocks s) []) [] [] [])) <> [] ->
  StronglySorted (rzopOrder (findUrgentThreatBlocks s)) (generateRZOPCandidates s).
Proof.
  intros Hne. unfold generateRZOPCandidates. cbv zeta.
  destruct (rz_candidates _) as [|c cand]; [contradiction|]. apply sortBy_rzopOrder.
Qed.

(** X7: the list returned by [generateRZOPCandidates] has no repetition,
    holds only empty cells (cells of the board, when the board is 19x19),
    and never has a cell that is not an urgent block before one that is;
    unless the unfiltered zone is returned as a fallback, each of the two
    groups is in order of increasing Manhattan distance to the centre. *)
Theorem generateRZOPCandidates_shape :
  forall (s : GameState),
    NoDup (generateRZOPCandidates s) /\
    (forall e, In e (generateRZOPCandidates s) -> cellAtPos (board s) e = Some Empty) /\
    (wfBoard (board s) ->
     forall e, In e (generateRZOPCandidates s) -> isInsideBoard e = true) /\
    StronglySorted
      (fun a b => In b (findUrgentThreatBlocks s) -> In a (findUrgentThreatBlocks s))
      (generateRZOPCandidates s) /\
    (rz_candidates
       (fold_left (rzopStep s (findUrgentThreatBlocks s)) (computeRelevantZones s 3)
          (mkRzopLoop (fold_left pushNew (findUrgentThreatBlocks s) []) [] [] [])) <> [] ->
     StronglySorted (rzopOrder (findUrgentThreatBlocks s)) (generateRZOPCandidates s)).
Proof.
  intros s. split; [apply generateRZOPCandidates_NoDup|].
  split; [apply generateRZOPCandidates_empty|].
  split; [|split; [apply generateRZOPCandidates_sorted
                  |apply generateRZOPCandidates_sorted_by_distance]].
  intros Hwf e He.
  exact (proj1 (cellAtPos_empty_inside _ _ Hwf (generateRZOPCandidates_empty s e He))).
Qed.

Lemma generateRZOPCandidates_shape_witness :
  wfBoard (board openFourState) /\
  isInsideBoard (mkPos 8 3) = true /\
  StronglySorted (rzopOrder (findUrgentThreatBlocks openFourState))
    (generateRZOPCandidates openFourState).
Proof.
  assert (Hwf : wfBoard (board openFourState))
    by (apply wfBoardb_true; vm_compute; reflexivity).
  destruct (generateRZOPCandidates_shape openFourState) as (_ & _ & Hin & _ & Hsorted).
  split; [exact Hwf|]. split.
  - apply (Hin Hwf). vm_compute. left. reflexivity.
  - apply Hsorted. vm_compute. discriminate.
Defined.

(* ===================================================================== *)
(** ** pvs_search.ts: reading back what was stored *)
(* ===================================================================== *)

Lemma mapGet_mapSet_same {V} (m : list (string * V)) k v :
  mapGet (mapSet m k v) k = Some v.
Proof.
  unfold mapGet. induction m as [|e m IH]; cbn [mapSet find fst snd].
  - now rewrite String.eqb_refl.
  - destruct (String.eqb (fst e) k) eqn:E; cbn [find fst snd].
    + now rewrite String.eqb_refl.
    + rewrite E. exact IH.
Qed.

Lemma mapGet_mapSet_other {V} (m : list (string * V)) k k' v :
  k' <> k -> mapGet (mapSet m k v) k' = mapGet m k'.
Proof.
  intros Hne. unfold mapGet. induction m as [|e m IH]; cbn [mapSet find fst snd].
  - replace (String.eqb k k') with false; [reflexivity|].
    symmetry. apply String.eqb_neq. congruence.
  - destruct (String.eqb (fst e) k) eqn:E; cbn [find fst snd].
    + apply String.eqb_eq in E. rewrite E.
      replace (String.eqb k k') with false; [reflexivity|].
      symmetry. apply String.eqb_neq. congruence.
    + destruct (String.eqb (fst e) k'); [reflexivity|exact IH].
Qed.

(** What [probeTT] answers for an entry with the given depth bound and
    window. *)
Definition usableEntry (entry : TTEntry) (depth : Z) (alpha beta : float) : option TTEntry :=
  if tt_depth entry <? depth then None
  else match tt_flag entry with
       | EXACT => Some entry
       | LOWER => if (beta <=? tt_score entry)%float then Some entry else None
       | UPPER => if (tt_score entry <=? alpha)%float then Some entry else None
       end.

Lemma probeTT_value state depth alpha beta st :
  probeTT state depth alpha beta st =
  (Ok (match mapGet (transpositionTable st) (hashState state) with
       | Some entry => usableEntry entry depth alpha beta
       | None => None
       end), st).
Proof.
  unfold probeTT, bind, gets, ret, usableEntry.
  destruct (mapGet (transpositionTable st) (hashState state)) as [entry|]; [|reflexivity].
  destruct (tt_depth entry <? depth); [reflexivity|].
  destruct (tt_flag entry); [reflexivity| |];
    now destruct (_ <=? _)%float.
Qed.

(** X8: [probeTT] never changes the engine state and answers nothing for a
    position that was never stored.  After [storeTT] has written an entry
    (no strictly deeper entry was there, and the table was below its cap),
    a probe of the same position at a depth no larger than the stored one
    returns that entry when its flag is EXACT, when it is LOWER and its
    score is at least the probing beta, or when it is UPPER and its score
    is at most the probing alpha, and nothing otherwise; probes of
    positions with another key answer as before the store. *)
Theorem storeTT_probeTT :
  forall (state : GameState) (depth : Z) (score alpha beta : float)
         (mv : option Move) (st : EngineState),
    let st' := snd (storeTT state depth score alpha beta mv st) in
    let entry := mkTTEntry depth score (flagOf score alpha beta) mv in
    (forall s d a b, snd (probeTT s d a b st) = st) /\
    (forall s d a b,
       mapGet (transpositionTable st) (hashState s) = None ->
       fst (probeTT s d a b st) = Ok None) /\
    ((forall e, mapGet (transpositionTable st) (hashState state) = Some e ->
                tt_depth e <= depth) ->
     mapSize (transpositionTable st) < MAX_TT_ENTRIES ->
     (forall d a b,
        fst (probeTT state d a b st') = Ok (usableEntry entry d a b)) /\
     (forall d a b, d <= depth -> flagOf score alpha beta = EXACT ->
        fst (probeTT state d a b st') = Ok (Some entry)) /\
     (forall s d a b, hashState s <> hashState state ->
        fst (probeTT s d a b st') = fst (probeTT s d a b st))).
Proof.
  intros state depth score alpha beta mv st st' entry.
  split; [intros; now rewrite probeTT_value|].
  split; [intros s d a b H; rewrite probeTT_value; cbn [fst]; now rewrite H|].
  intros Hstore Hsize.
  assert (Htbl : transpositionTable st' =
                 mapSet (transpositionTable st) (hashState state) entry).
  { subst st'. rewrite storeTT_table, storeTTtable_store by exact Hstore. cbv zeta.
    fold entry.
    replace (MAX_TT_ENTRIES <? mapSize (mapSet (transpositionTable st) (hashState state) entry))
      with false; [reflexivity|].
    symmetry. apply Z.ltb_ge.
    pose proof (mapSize_mapSet (transpositionTable st) (hashState state) entry). lia. }
  split; [|split].
  - intros d a b. rewrite probeTT_value. cbn [fst]. rewrite Htbl, mapGet_mapSet_same.
    reflexivity.
  - intros d a b Hd Hflag. rewrite probeTT_value. cbn [fst].
    rewrite Htbl, mapGet_mapSet_same. unfold usableEntry. subst entry.
    cbn [tt_depth tt_flag]. rewrite Hflag.
    replace (depth <? d) with false; [reflexivity|]. symmetry. apply Z.ltb_ge. lia.
  - intros s d a b Hne. rewrite !probeTT_value. cbn [fst].
    rewrite Htbl, mapGet_mapSet_other by exact Hne. reflexivity.
Qed.

Lemma storeTT_probeTT_witness :
  fst (probeTT createInitialState 2 0 1
         (snd (storeTT createInitialState 3 0.5 0 1 None initialEngine)))
  = Ok (Some (mkTTEntry 3 0.5 EXACT None)).
Proof.
  apply (proj2 (proj2 (storeTT_probeTT createInitialState 3 0.5 0 1 None initialEngine))).
  - intros e He. discriminate He.
  - vm_compute. reflexivity.
  - lia.
  - vm_compute. reflexivity.
Defined.

(* --------------------------------------------------------------------- *)
(** *** The history table *)

Lemma mapSet_In {V} (m : list (string * V)) k v e :
  In e (mapSet m k v) -> e = (k, v) \/ In e m.
Proof.
  induction m as [|x m IH]; cbn [mapSet].
  - intros [<-|[]]. now left.
  - destruct (String.eqb (fst x) k).
    + intros [<-|H]; [now left|right; now right].
    + intros [<-|H]; [right; now left|].
      destruct (IH H) as [->|H']; [now left|right; now right].
Qed.

Definition historyBounded (tbl : list (string * Z)) : Prop :=
  forall k v, In (k, v) tbl -> v <= 1000000.

Lemma mapSet_historyBounded tbl k v :
  historyBounded tbl -> v <= 1000000 -> historyBounded (mapSet tbl k v).
Proof.
  intros Ht Hv k' v' Hin. apply mapSet_In in Hin.
  destruct Hin as [[= -> ->]|Hin]; [exact Hv|now apply (Ht k')].
Qed.

Lemma pruneHistory_fold_bounded entries : forall acc,
  historyBounded entries -> historyBounded acc ->
  historyBounded
    (fold_left
       (fun acc e =>
          let aged := snd e / 2 in
          if MIN_HISTORY_THRESHOLD <? aged then mapSet acc (fst e) aged else acc)
       entries acc).
Proof.
  induction entries as [|[k v] entries IH]; intros acc He Hacc; [exact Hacc|].
  cbn [fold_left fst snd]. apply IH.
  - intros k' v' H. apply (He k'). now right.
  - cbv zeta. destruct (MIN_HISTORY_THRESHOLD <? v / 2); [|exact Hacc].
    apply mapSet_historyBounded; [exact Hacc|].
    assert (v <= 1000000) by (apply (He k); now left).
    apply Z.div_le_upper_bound; lia.
Qed.

Lemma pruneHistory_fold_size entries : forall acc,
  mapSize
    (fold_left
       (fun acc e =>
          let aged := snd e / 2 in
          if MIN_HISTORY_THRESHOLD <? aged then mapSet acc (fst e) aged else acc)
       entries acc) <= mapSize acc + mapSize entries.
Proof.
  induction entries as [|e entries IH]; intros acc; [unfold mapSize; cbn; lia|].
  cbn [fold_left]. etransitivity; [apply IH|].
  assert (Hstep : mapSize (if MIN_HISTORY_THRESHOLD <? snd e / 2
                           then mapSet acc (fst e) (snd e / 2) else acc) <= mapSize acc + 1).
  { destruct (MIN_HISTORY_THRESHOLD <? snd e / 2); [|lia].
    pose proof (mapSize_mapSet acc (fst e) (snd e / 2)). lia. }
  assert (Hcons : mapSize (e :: entries) = mapSize entries + 1).
  { unfold mapSize. cbn [length]. lia. }
  lia.
Qed.

Lemma pruneHistory_size tbl : mapSize (pruneHistory tbl) <= historyKeep.
Proof.
  unfold pruneHistory. cbv zeta. etransitivity; [apply pruneHistory_fold_size|].
  rewrite firstn_mapSize by (vm_compute; discriminate).
  unfold mapSize at 1. cbn [length]. lia.
Qed.

Lemma pruneHistory_bounded tbl : historyBounded tbl -> historyBounded (pruneHistory tbl).
Proof.
  intros H. unfold pruneHistory. cbv zeta. apply pruneHistory_fold_bounded; [|intros k v []].
  intros k v Hin. apply In_firstn in Hin. apply sortBy_In in Hin. now apply (H k).
Qed.

Lemma getHistoryScore_value player pos st :
  getHistoryScore player pos st =
  (Ok (match mapGet (historyTable st) (historyKey player pos) with
       | Some v => v
       | None => 0
       end), st).
Proof. reflexivity. Qed.

Lemma updateHistory_table player pos depth st :
  historyTable (snd (updateHistory player pos depth st)) =
  updateHistoryTable (historyTable st) player pos depth.
Proof. reflexivity. Qed.

Lemma updateHistoryTable_cap h player pos depth :
  mapSize h <= MAX_HISTORY_ENTRIES ->
  mapSize (updateHistoryTable h player pos depth) <= MAX_HISTORY_ENTRIES.
Proof.
  intros Hcap. unfold updateHistoryTable. cbv zeta.
  match goal with |- mapSize (if _ <? mapSize ?t then _ else _) <= _ => set (tbl1 := t) end.
  destruct (MAX_HISTORY_ENTRIES <? mapSize tbl1) eqn:E.
  - etransitivity; [apply pruneHistory_size|]. vm_compute. discriminate.
  - now apply Z.ltb_ge in E.
Qed.

Lemma updateHistoryTable_bounded h player pos depth :
  historyBounded h -> historyBounded (updateHistoryTable h player pos depth).
Proof.
  intros Hb. unfold updateHistoryTable. cbv zeta.
  match goal with |- historyBounded (if _ <? mapSize ?t then _ else _) => set (tbl1 := t) end.
  assert (Hb1 : historyBounded tbl1) by (apply mapSet_historyBounded; [exact Hb|lia]).
  destruct (MAX_HISTORY_ENTRIES <? mapSize tbl1); [now apply pruneHistory_bounded|exact Hb1].
Qed.

(** X9: [updateHistory] keeps the history table within 500,000 entries and
    every score within 1,000,000; reading never changes the table and gives
    0 for a key that was never written; and as long as the table is below
    its cap, the score read back for the updated key is the old score plus
    [depth * depth], capped at 1,000,000, while every other key reads as
    before. *)
Theorem updateHistory_policy :
  forall (player : Player) (pos : Position) (depth : Z) (st : EngineState),
    let st' := snd (updateHistory player pos depth st) in
    let old := match mapGet (historyTable st) (historyKey player pos) with
               | Some v => v
               | None => 0
               end in
    (mapSize (historyTable st) <= MAX_HISTORY_ENTRIES ->
     mapSize (historyTable st') <= MAX_HISTORY_ENTRIES) /\
    (historyBounded (historyTable st) -> historyBounded (historyTable st')) /\
    (forall p q, snd (getHistoryScore p q st) = st) /\
    (forall p q, mapGet (historyTable st) (historyKey p q) = None ->
                 fst (getHistoryScore p q st) = Ok 0) /\
    (mapSize (historyTable st) < MAX_HISTORY_ENTRIES ->
     fst (getHistoryScore player pos st') = Ok (Z.min (old + depth * depth) 1000000) /\
     forall p q, historyKey p q <> historyKey player pos ->
       fst (getHistoryScore p q st') = fst (getHistoryScore p q st)).
Proof.
  intros player pos depth st st' old.
  assert (Htbl : historyTable st' = updateHistoryTable (historyTable st) player pos depth)
    by reflexivity.
  pose proof Htbl as Htbl0.
  unfold updateHistoryTable in Htbl. cbv zeta in Htbl. fold old in Htbl.
  set (tbl1 := mapSet (historyTable st) (historyKey player pos)
                 (Z.min (old + depth * depth) 1000000)) in *.
  pose proof (mapSize_mapSet (historyTable st) (historyKey player pos)
                (Z.min (old + depth * depth) 1000000)) as Hsz. fold tbl1 in Hsz.
  split; [|split; [|split; [|split]]].
  - intros Hcap. rewrite Htbl0. now apply updateHistoryTable_cap.
  - intros Hb. rewrite Htbl0. now apply updateHistoryTable_bounded.
  - reflexivity.
  - intros p q H. rewrite getHistoryScore_value. cbn [fst]. now rewrite H.
  - intros Hcap.
    assert (Hno : (MAX_HISTORY_ENTRIES <? mapSize tbl1) = false) by (apply Z.ltb_ge; lia).
    rewrite Hno in Htbl. split.
    + rewrite getHistoryScore_value. cbn [fst]. rewrite Htbl. subst tbl1.
      now rewrite mapGet_mapSet_same.
    + intros p q Hne. rewrite !getHistoryScore_value. cbn [fst]. rewrite Htbl. subst tbl1.
      now rewrite mapGet_mapSet_other by exact Hne.
Qed.

Lemma updateHistory_policy_witness :
  mapSize (historyTable initialEngine) < MAX_HISTORY_ENTRIES /\
  fst (getHistoryScore BLACK (mkPos 9 9)
         (snd (updateHistory BLACK (mkPos 9 9) 3 initialEngine))) = Ok 9.
Proof.
  assert (H : mapSize (historyTable initialEngine) < MAX_HISTORY_ENTRIES)
    by (vm_compute; reflexivity).
  split; [exact H|].
  exact (proj1 (proj2 (proj2 (proj2 (proj2
           (updateHistory_policy BLACK (mkPos 9 9) 3 initialEngine)))) H)).
Defined.

(* --------------------------------------------------------------------- *)
(** *** Killer moves *)

Lemma nth_updateNth_same {A} (f : A -> A) (d : A) : forall (l : list A) n,
  (n < length l)%nat -> nth n (updateNth n f l) d = f (nth n l d).
Proof.
  induction l as [|a l IH]; intros [|n] H; cbn [length] in H; try lia;
    cbn [updateNth nth]; [reflexivity|]. apply IH. lia.
Qed.

Lemma nth_updateNth_other {A} (f : A -> A) (d : A) : forall (l : list A) n m,
  n <> m -> nth m (updateNth n f l) d = nth m l d.
Proof.
  induction l as [|a l IH]; intros [|n] [|m] H; cbn [updateNth nth]; try reflexivity;
    try contradiction. apply IH. congruence.
Qed.

Lemma allPosEq_refl l : allPosEq l l = true.
Proof.
  induction l as [|p l IH]; [reflexivity|]. cbn [allPosEq]. now rewrite pos_eqb_refl.
Qed.

Lemma sameMove_refl m : sameMove (Some m) m = true.
Proof. unfold sameMove. rewrite Nat.eqb_refl. cbn [negb]. apply allPosEq_refl. Qed.

Lemma findKillerBonus_value depth move st :
  findKillerBonus depth move st =
  (Ok (if (depth <=? 0) || (MAX_KILLER_DEPTH <? depth) then 0
       else if sameMove (fst (killerSlot (killerMoves st) depth)) move then 25000
       else if sameMove (snd (killerSlot (killerMoves st) depth)) move then 12000
       else 0), st).
Proof.
  unfold findKillerBonus. destruct ((depth <=? 0) || (MAX_KILLER_DEPTH <? depth));
    [reflexivity|].
  unfold bind, gets, ret. cbv zeta.
  destruct (sameMove (fst _) move); [reflexivity|].
  now destruct (sameMove (snd _) move).
Qed.

(** X10: with the 32 killer slots in place, [storeKiller] at a depth outside
    1..32 does nothing and [findKillerBonus] gives 0 there; at a depth
    within 1..32 the stored move is afterwards rewarded with 25,000 at that
    depth, a different first killer has moved to the second slot, the slots
    of the other depths are untouched, and neither table is changed.  After
    [resetKillers] no move gets a bonus at any depth. *)
Theorem storeKiller_findKillerBonus :
  forall (depth : Z) (move : Move) (st : EngineState),
    length (killerMoves st) = Z.to_nat MAX_KILLER_DEPTH ->
    let st' := snd (storeKiller depth move st) in
    (depth <= 0 \/ MAX_KILLER_DEPTH < depth ->
     st' = st /\ forall m st0, fst (findKillerBonus depth m st0) = Ok 0) /\
    (1 <= depth <= MAX_KILLER_DEPTH ->
     fst (findKillerBonus depth move st') = Ok 25000 /\
     (sameMove (fst (killerSlot (killerMoves st) depth)) move = false ->
      killerSlot (killerMoves st') depth =
      (Some move, fst (killerSlot (killerMoves st) depth))) /\
     (forall d, 1 <= d <= MAX_KILLER_DEPTH -> d <> depth ->
        killerSlot (killerMoves st') d = killerSlot (killerMoves st) d)) /\
    transpositionTable st' = transpositionTable st /\
    historyTable st' = historyTable st /\
    length (killerMoves st') = Z.to_nat MAX_KILLER_DEPTH /\
    (forall d m, fst (findKillerBonus d m (snd (resetKillers st))) = Ok 0).
Proof.
  intros depth move st Hlen st'. unfold MAX_KILLER_DEPTH in *.
  assert (Hout : depth <= 0 \/ 32 < depth -> (depth <=? 0) || (32 <? depth) = true).
  { intros [H|H]; apply orb_true_iff; [left; now apply Z.leb_le|right; now apply Z.ltb_lt]. }
  assert (Hin : 1 <= depth <= 32 -> (depth <=? 0) || (32 <? depth) = false).
  { intros H. apply orb_false_iff. split; [apply Z.leb_gt|apply Z.ltb_ge]; lia. }
  assert (Hst' : st' = if (depth <=? 0) || (32 <? depth) then st
                       else if negb (sameMove (fst (killerSlot (killerMoves st) depth)) move)
                            then setKillers
                                   (updateNth (Z.to_nat (depth - 1))
                                      (fun _ => (Some move,
                                                 fst (killerSlot (killerMoves st) depth)))
                                      (killerMoves st)) st
                            else st).
  { subst st'. unfold storeKiller, MAX_KILLER_DEPTH.
    destruct ((depth <=? 0) || (32 <? depth)); reflexivity. }
  split; [|split; [|split; [|split; [|split]]]].
  - intros H. rewrite Hst', (Hout H). split; [reflexivity|].
    intros m st0. rewrite findKillerBonus_value. unfold MAX_KILLER_DEPTH.
    now rewrite (Hout H).
  - intros H. rewrite Hst', (Hin H).
    assert (Hidx : (Z.to_nat (depth - 1) < length (killerMoves st))%nat)
      by (rewrite Hlen; lia).
    destruct (sameMove (fst (killerSlot (killerMoves st) depth)) move) eqn:Esame;
      cbn [negb].
    + split; [|split].
      * rewrite findKillerBonus_value. unfold MAX_KILLER_DEPTH. rewrite (Hin H).
        cbn [fst]. now rewrite Esame.
      * discriminate.
      * reflexivity.
    + split; [|split].
      * rewrite findKillerBonus_value. unfold MAX_KILLER_DEPTH. rewrite (Hin H).
        cbn [fst setKillers killerMoves]. unfold killerSlot at 1.
        rewrite nth_updateNth_same by exact Hidx. cbn [fst].
        now rewrite sameMove_refl.
      * intros _. cbn [setKillers killerMoves]. unfold killerSlot at 1.
        now rewrite nth_updateNth_same by exact Hidx.
      * intros d Hd Hne. cbn [setKillers killerMoves]. unfold killerSlot.
        apply nth_updateNth_other. lia.
  - rewrite Hst'. destruct (_ || _); [reflexivity|]. now destruct (negb _).
  - rewrite Hst'. destruct (_ || _); [reflexivity|]. now destruct (negb _).
  - rewrite Hst'. destruct (_ || _); [exact Hlen|]. destruct (negb _); [|exact Hlen].
    cbn [setKillers killerMoves]. now rewrite length_updateNth.
  - intros d m. rewrite findKillerBonus_value. cbn [fst].
    destruct ((d <=? 0) || (MAX_KILLER_DEPTH <? d)); [reflexivity|].
    unfold resetKillers, modify. cbn [snd setKillers killerMoves]. unfold killerSlot.
    assert (Hnone : forall (l : list (option Move * option Move)) n,
              nth n (map (fun _ => (@None Move, @None Move)) l) (None, None) = (None, None)).
    { induction l as [|a l IH]; intros [|n]; cbn [map nth]; auto. }
    rewrite Hnone. reflexivity.
Qed.

Lemma storeKiller_findKillerBonus_witness :
  length (killerMoves initialEngine) = Z.to_nat MAX_KILLER_DEPTH /\
  fst (findKillerBonus 3 secondMove (snd (storeKiller 3 secondMove initialEngine)))
  = Ok 25000.
Proof.
  assert (H : length (killerMoves initialEngine) = Z.to_nat MAX_KILLER_DEPTH)
    by (vm_compute; reflexivity).
  split; [exact H|].
  apply (proj1 (proj2 (storeKiller_findKillerBonus 3 secondMove initialEngine H))).
  unfold MAX_KILLER_DEPTH. lia.
Defined.

(* ===================================================================== *)
(** ** pvs_search.ts: what a search starts from *)
(* ===================================================================== *)

Lemma bind_modify {A} (f : EngineState -> EngineState) (k : unit -> M A) st :
  bind (modify f) k st = k tt (f st).
Proof. reflexivity. Qed.

Lemma map_const_length {A B} (b : B) (l1 l2 : list A) :
  length l1 = length l2 -> map (fun _ => b) l1 = map (fun _ => b) l2.
Proof.
  revert l2. induction l1 as [|a l1 IH]; intros [|a2 l2] H; try discriminate; [reflexivity|].
  cbn [map]. f_equal. apply IH. now injection H.
Qed.

(** X11: the killer moves and the node counter left behind by an earlier
    search have no influence on [pvsSearchBestMove]: the decision and the
    final engine state are the same whatever the 32 slots and the counter
    hold when it is called (the counter is set to 0 and every slot is
    emptied before anything else is done). *)
Theorem pvsSearchBestMove_fresh_killers :
  forall (clock : nat -> float) (s : GameState) (p : Player)
         (weights : EvaluationWeights) (config : SearchConfig) (st : EngineState)
         (km : list (option Move * option Move)) (nodes : Z),
    length km = length (killerMoves st) ->
    pvsSearchBestMove clock s p weights config (setNodeCount nodes (setKillers km st)) =
    pvsSearchBestMove clock s p weights config st.
Proof.
  intros clock s p weights config st km nodes Hlen.
  unfold pvsSearchBestMove, resetKillers. rewrite !bind_modify.
  assert (Heq : setKillers
                  (map (fun _ => (None, None))
                     (killerMoves (setNodeCount 0 (setNodeCount nodes (setKillers km st)))))
                  (setNodeCount 0 (setNodeCount nodes (setKillers km st))) =
                setKillers
                  (map (fun _ => (None, None)) (killerMoves (setNodeCount 0 st)))
                  (setNodeCount 0 st)).
  { unfold setKillers, setNodeCount.
    cbn [transpositionTable historyTable killerMoves lastSearchNodeCount
         lastSearchDepth clockReads].
    now rewrite (map_const_length (@None Move, @None Move) km (killerMoves st) Hlen). }
  rewrite Heq. reflexivity.
Qed.

Lemma pvsSearchBestMove_fresh_killers_witness :
  pvsSearchBestMove msClock mateState BLACK sampleWeights (mkConfig 2 3000 false)
    (setNodeCount 77
       (setKillers (repeat (Some secondMove, None) 32) initialEngine)) =
  pvsSearchBestMove msClock mateState BLACK sampleWeights (mkConfig 2 3000 false)
    initialEngine.
Proof.
  apply pvsSearchBestMove_fresh_killers. reflexivity.
Defined.

(* --------------------------------------------------------------------- *)
(** *** The generated two-stone moves *)

(** A move of [p] on two different empty cells, the smaller one (by [x],
    then [y]) first. *)
Definition twoStoneMove (s : GameState) (p : Player) (m : Move) : Prop :=
  player m = p /\
  exists a b,
    positions m = [a; b] /\
    cellAtPos (board s) a = Some Empty /\ cellAtPos (board s) b = Some Empty /\
    (pos_x a < pos_x b \/ (pos_x a = pos_x b /\ pos_y a < pos_y b)).

Definition moveGenInvariant (s : GameState) (p : Player) (maxCombos : Z) (g : MoveGen)
  : Prop :=
  Forall (twoStoneMove s p) (mg_moves g) /\
  (forall m, In m (mg_moves g) ->
     exists a b, positions m = [a; b] /\ In (a, b) (mg_seen g)) /\
  NoDup (map positions (mg_moves g)) /\
  Z.of_nat (length (mg_moves g)) <= Z.max 0 maxCombos.

Lemma samePairOrdered_refl a : samePairOrdered a a = true.
Proof. unfold samePairOrdered. now rewrite !pos_eqb_refl. Qed.

Lemma addMove_invariant s p maxCombos g p1 p2 :
  moveGenInvariant s p maxCombos g ->
  moveGenInvariant s p maxCombos (addMove s p maxCombos g p1 p2).
Proof.
  intros Hinv. unfold addMove.
  destruct (pos_eqb p1 p2) eqn:Eeq; [exact Hinv|].
  destruct (cellIs (cellAtPos (board s) p1) Empty) eqn:E1; cbn [negb]; [|exact Hinv].
  destruct (cellIs (cellAtPos (board s) p2) Empty) eqn:E2; cbn [negb]; [|exact Hinv].
  apply cellIs_eq in E1, E2. cbv zeta.
  set (p1First := (pos_x p1 <? pos_x p2) || ((pos_x p1 =? pos_x p2) && (pos_y p1 <=? pos_y p2))).
  set (a := if p1First then p1 else p2). set (b := if p1First then p2 else p1).
  destruct (existsb (samePairOrdered (a, b)) (mg_seen g)) eqn:Eseen; [exact Hinv|].
  assert (Hnew : ~ In (a, b) (mg_seen g)).
  { intros Hin. apply not_true_iff_false in Eseen. apply Eseen.
    apply existsb_exists. exists (a, b). split; [exact Hin|apply samePairOrdered_refl]. }
  destruct Hinv as (Hgood & Hseen & Hnd & Hlen).
  destruct (Z.of_nat (length (mg_moves g)) <? maxCombos) eqn:Ecap.
  - apply Z.ltb_lt in Ecap. split; [|split; [|split]]; cbn [mg_moves mg_seen].
    + apply Forall_app. split; [exact Hgood|]. apply Forall_cons; [|apply Forall_nil].
      split; [reflexivity|]. exists a, b. cbn [positions].
      assert (Hne : p1 <> p2).
      { intros ->. rewrite pos_eqb_refl in Eeq. discriminate. }
      assert (Hxy : forall q1 q2 : Position,
                pos_x q1 = pos_x q2 -> pos_y q1 = pos_y q2 -> q1 = q2).
      { intros [x1 y1] [x2 y2]. cbn [pos_x pos_y]. intros -> ->. reflexivity. }
      subst a b. destruct p1First eqn:Ef; subst p1First.
      * split; [reflexivity|]. split; [exact E1|]. split; [exact E2|].
        apply orb_true_iff in Ef. destruct Ef as [Ef|Ef].
        -- left. now apply Z.ltb_lt.
        -- apply andb_true_iff in Ef. destruct Ef as [Ex Ey].
           apply Z.eqb_eq in Ex. apply Z.leb_le in Ey. right. split; [exact Ex|].
           destruct (Z.eq_dec (pos_y p1) (pos_y p2)) as [Hy|Hy]; [|lia].
           exfalso. apply Hne. now apply Hxy.
      * split; [reflexivity|]. split; [exact E2|]. split; [exact E1|].
        apply orb_false_iff in Ef. destruct Ef as [Ef1 Ef2]. apply Z.ltb_ge in Ef1.
        destruct (Z.eq_dec (pos_x p1) (pos_x p2)) as [Hx|Hx]; [|left; lia].
        right. split; [lia|].
        rewrite (proj2 (Z.eqb_eq _ _) Hx) in Ef2. cbn [andb] in Ef2.
        apply Z.leb_gt in Ef2. exact Ef2.
    + intros m Hm. apply in_app_or in Hm. destruct Hm as [Hm|[<-|[]]].
      * destruct (Hseen m Hm) as (a' & b' & Hp & Hin). exists a', b'.
        split; [exact Hp|]. apply in_or_app. now left.
      * exists a, b. split; [reflexivity|]. apply in_or_app. right. now left.
    + rewrite map_app. cbn [map positions]. apply NoDup_app; [exact Hnd| |].
      * repeat constructor. intros [].
      * intros ps Hps [<-|[]]. apply in_map_iff in Hps. destruct Hps as (m & Hpm & Hm).
        destruct (Hseen m Hm) as (a' & b' & Hp & Hin). rewrite Hp in Hpm.
        injection Hpm as -> ->. contradiction.
    + rewrite length_app. cbn [length]. lia.
  - split; [|split; [|split]]; cbn [mg_moves mg_seen]; try assumption.
    intros m Hm. destruct (Hseen m Hm) as (a' & b' & Hp & Hin). exists a', b'.
    split; [exact Hp|]. apply in_or_app. now left.
Qed.

Lemma generateTwoStoneMoves_invariant s candidates p :
  Forall (twoStoneMove s p) (generateTwoStoneMoves s candidates p) /\
  NoDup (map positions (generateTwoStoneMoves s candidates p)) /\
  Z.of_nat (length (generateTwoStoneMoves s candidates p)) <=
  Z.max 0 (Z.min (Z.of_nat (length candidates) * (Z.of_nat (length candidates) - 1) / 2)
             1000).
Proof.
  unfold generateTwoStoneMoves. cbv zeta.
  set (mx := Z.min (Z.of_nat (length candidates) * (Z.of_nat (length candidates) - 1) / 2)
               1000).
  match goal with
  | |- context [fold_left (addMoveGuarded s p mx) ?pairs ?g0] =>
      generalize pairs; intros pairs0;
      assert (H : moveGenInvariant s p mx (fold_left (addMoveGuarded s p mx) pairs0 g0))
  end.
  { apply fold_left_invariant.
    - intros acc pr _ Hacc. unfold addMoveGuarded.
      destruct (_ <? _); [now apply addMove_invariant|exact Hacc].
    - split; [constructor|]. split; [intros m []|]. split; [constructor|].
      cbn [mg_moves length]. lia. }
  destruct H as (Hgood & _ & Hnd & Hlen).
  exact (conj Hgood (conj Hnd Hlen)).
Qed.

Lemma generateTwoStoneMoves_accepted s candidates p :
  wfBoard (board s) -> p = currentPlayer s -> moveNumber s <> 0 ->
  Forall (fun m => exists s', applyMoveWithWinner s m = Ok s')
    (generateTwoStoneMoves s candidates p).
Proof.
  intros Hwf Hp Hm.
  destruct (generateTwoStoneMoves_invariant s candidates p) as (Hgood & _ & _).
  eapply Forall_impl; [|exact Hgood].
  intros m (Hpl & a & b & Hpos & Ha & Hb & _).
  apply (proj2 (applyMoveWithWinner_Ok_iff s m)). split; [now rewrite Hpl|]. split.
  - rewrite Hpos. cbn [length]. unfold getStonesToPlace.
    replace (moveNumber s =? 0) with false by (symmetry; now apply Z.eqb_neq).
    reflexivity.
  - rewrite Hpos. apply Forall_cons; [|apply Forall_cons; [|apply Forall_nil]].
    + exact (cellAtPos_empty_inside _ _ Hwf Ha).
    + exact (cellAtPos_empty_inside _ _ Hwf Hb).
Qed.

(** X12: every move returned by [generateTwoStoneMoves] is a move of the
    given player on two different empty cells, listed with the smaller cell
    first; no pair of cells is returned twice; there are at most
    [min(n (n - 1) / 2, 1000)] moves for [n] candidates; and on a 19x19
    board each of them is accepted by [applyMoveWithWinner] when the player
    is to move after the opening. *)
Theorem generateTwoStoneMoves_moves :
  forall (s : GameState) (candidates : list Position) (p : Player),
    let moves := generateTwoStoneMoves s candidates p in
    let n := Z.of_nat (length candidates) in
    Forall (twoStoneMove s p) moves /\
    NoDup (map positions moves) /\
    Z.of_nat (length moves) <= Z.min (n * (n - 1) / 2) 1000 /\
    (wfBoard (board s) -> p = currentPlayer s -> moveNumber s <> 0 ->
     forall m, In m moves -> exists s', applyMoveWithWinner s m = Ok s').
Proof.
  intros s candidates p. cbv zeta.
  destruct (generateTwoStoneMoves_invariant s candidates p) as (Hgood & Hnd & Hlen).
  split; [exact Hgood|]. split; [exact Hnd|]. split.
  - revert Hlen. generalize (Z.of_nat (length (generateTwoStoneMoves s candidates p))).
    generalize (Nat2Z.is_nonneg (length candidates)).
    generalize (Z.of_nat (length candidates)). clear. intros n Hn k Hk.
    assert (0 <= n * (n - 1) / 2).
    { apply Z.div_pos; [|lia]. nia. }
    lia.
  - intros Hwf Hp Hm m Hin.
    exact (proj1 (Forall_forall _ _)
             (generateTwoStoneMoves_accepted s candidates p Hwf Hp Hm) m Hin).
Qed.

Lemma generateTwoStoneMoves_moves_witness :
  wfBoard (board mateState) /\
  exists s',
    applyMoveWithWinner mateState
      (nth 0 (generateTwoStoneMoves mateState (generateRZOPCandidates mateState) BLACK)
         (mkMove BLACK [])) = Ok s'.
Proof.
  assert (Hwf : wfBoard (board mateState)) by (apply wfBoardb_true; vm_compute; reflexivity).
  split; [exact Hwf|].
  apply (proj2 (proj2 (proj2 (generateTwoStoneMoves_moves mateState
                                (generateRZOPCandidates mateState) BLACK)))
           Hwf eq_refl ltac:(discriminate)).
  apply nth_In. vm_compute. apply Nat.leb_le. reflexivity.
Defined.

(* ===================================================================== *)
(** ** pvs_search.ts and self_play_optimizer.ts: the first move of a game *)
(* ===================================================================== *)

(** *** Steps of the engine monad *)

Lemma bind_liftR_Ok {A B} (a : A) (k : A -> M B) st :
  bind (liftR (Ok a)) k st = k a st.
Proof. reflexivity. Qed.

Lemma bind_liftR_Throw {A B} (e : Error) (k : A -> M B) st :
  bind (liftR (@Throw A e)) k st = (Throw e, st).
Proof. reflexivity. Qed.

Lemma bind_ret {A B} (a : A) (k : A -> M B) st :
  bind (ret a) k st = k a st.
Proof. reflexivity. Qed.

Lemma bind_gets {A B} (f : EngineState -> A) (k : A -> M B) st :
  bind (gets f) k st = k (f st) st.
Proof. reflexivity. Qed.

Lemma bind_Throw {A B} (m : M A) (k : A -> M B) st e st' :
  m st = (Throw e, st') -> bind m k st = (Throw e, st').
Proof. intros H. unfold bind. now rewrite H. Qed.

Lemma bind_Ok {A B} (m : M A) (k : A -> M B) st a st' :
  m st = (Ok a, st') -> bind m k st = k a st'.
Proof. intros H. unfold bind. now rewrite H. Qed.

(** The state after a reading of the clock. *)
Definition tick (st : EngineState) : EngineState :=
  mkEngine (transpositionTable st) (historyTable st) (killerMoves st)
    (lastSearchNodeCount st) (lastSearchDepth st) (S (clockReads st)).

Lemma bind_getCurrentTime {B} clock (k : float -> M B) st :
  bind (getCurrentTime clock) k st = k (clock (clockReads st)) (tick st).
Proof. reflexivity. Qed.

(** *** Two stones on the first move *)

(** The error raised for a two-stone move while [moveNumber] is 0. *)
Definition openingError (s : GameState) (m : Move) : Error :=
  if player_eqb (player m) (currentPlayer s)
  then WrongStoneCount 1 2
  else WrongPlayer (currentPlayer s) (player m).

Lemma applyMoveWithWinner_two_at_opening s m a b :
  moveNumber s = 0 -> positions m = [a; b] ->
  applyMoveWithWinner s m = Throw (openingError s m).
Proof.
  intros Hm Hp. unfold applyMoveWithWinner, openingError.
  destruct (player_eqb (player m) (currentPlayer s)); cbn [negb]; [|reflexivity].
  rewrite Hp, Hm. reflexivity.
Qed.

Lemma orderMoves_first_throws m ms state rootPlayer toMove weights depth st e :
  applyMoveWithWinner state m = Throw e ->
  orderMoves (m :: ms) state rootPlayer toMove weights depth st = (Throw e, st).
Proof.
  intros H. unfold orderMoves. cbn [mapM]. unfold scoreMoveForOrdering.
  apply bind_Throw. apply bind_Throw. apply bind_Throw. rewrite H. reflexivity.
Qed.

Lemma preselectRootMoves_first_throws state rootPlayer weights m ms e :
  applyMoveWithWinner state m = Throw e ->
  preselectRootMoves state rootPlayer weights (m :: ms) = Throw e.
Proof.
  intros H. unfold preselectRootMoves. rewrite H. reflexivity.
Qed.

Lemma deepening_depths n :
  1 <= n -> exists ds, map (fun k => k + 1) (range n) = 1 :: ds.
Proof.
  intros Hn. unfold range.
  destruct (Z.to_nat n) as [|k] eqn:E; [lia|].
  cbn [seq map]. eexists. reflexivity.
Qed.

Section Opening.

Variable clock : nat -> float.

Lemma deepeningLoop_cons rootState rootPlayer weights deadline moveCombos d ds cur st :
  deepeningLoop clock rootState rootPlayer weights deadline moveCombos (d :: ds) cur st =
  (if (deadline - clock (clockReads st) <? 100)%float then ret cur
   else
     sorted <- orderMoves moveCombos rootState rootPlayer rootPlayer weights d ;;
     it <- rootMoveLoop clock rootState rootPlayer weights deadline d
             (snd (rootWindow d (dp_bestScore cur))) sorted true
             (mkRootIter (fst (rootWindow d (dp_bestScore cur)))
                (dp_bestMove cur) neg_infinity false) ;;
     let cur' :=
       if negb (ri_failed it) || (d =? 1)
       then mkDeepening (ri_bestMove it) (ri_bestScore it) d
       else cur in
     deepeningLoop clock rootState rootPlayer weights deadline moveCombos ds cur')
    (tick st).
Proof.
  cbn [deepeningLoop]. rewrite bind_getCurrentTime.
  destruct (deadline - clock (clockReads st) <? 100)%float; reflexivity.
Qed.

(** The first iteration of the deepening loop when the first root move is
    rejected by the rules. *)
Lemma deepeningLoop_first_rejected rootState rootPlayer weights deadline m ms d ds cur st e :
  applyMoveWithWinner rootState m = Throw e ->
  deepeningLoop clock rootState rootPlayer weights deadline (m :: ms) (d :: ds) cur st =
  if (deadline - clock (clockReads st) <? 100)%float
  then (Ok cur, tick st) else (Throw e, tick st).
Proof.
  intros H. rewrite deepeningLoop_cons.
  destruct (deadline - clock (clockReads st) <? 100)%float; [reflexivity|].
  apply bind_Throw. now apply orderMoves_first_throws.
Qed.

(** The state in which the search starts: counter at 0, killers emptied. *)
Definition searchStart (st : EngineState) : EngineState :=
  setKillers (map (fun _ => (None, None)) (killerMoves (setNodeCount 0 st)))
    (setNodeCount 0 st).

(** The whole run when the first generated pair is rejected. *)
Lemma pvsSearchBestMove_first_rejected s p weights config st first rest e :
  findVcdtRootMove s p = Ok None ->
  generateTwoStoneMoves s (generateRZOPCandidates s) p = first :: rest ->
  applyMoveWithWinner s first = Throw e ->
  pvsSearchBestMove clock s p weights config st =
  if MAX_ROOT_MOVE_COMBOS <? Z.of_nat (length (first :: rest))
  then (Throw e, tick (searchStart st))
  else if (clock (clockReads (searchStart st)) + timeLimitMs config
           - clock (S (clockReads (searchStart st))) <? 100)%float
       then (Ok (mkDecision first neg_infinity
                   (mkDebug normal None 0 0 (mapSize (transpositionTable st)))),
             setSearchDepth 0 (tick (tick (searchStart st))))
       else (Throw e, tick (tick (searchStart st))).
Proof.
  intros Hvcdt Emoves Hfirst.
  destruct (deepening_depths (Z.max 1 (maxDepth config)) ltac:(lia)) as [ds Hds].
  unfold pvsSearchBestMove, resetKillers. rewrite !bind_modify. fold (searchStart st).
  rewrite bind_getCurrentTime, Hvcdt, bind_liftR_Ok, Emoves.
  destruct (MAX_ROOT_MOVE_COMBOS <? Z.of_nat (length (first :: rest))).
  - rewrite (preselectRootMoves_first_throws s p weights first rest _ Hfirst).
    rewrite bind_liftR_Throw. reflexivity.
  - rewrite bind_ret, Hds.
    pose proof (deepeningLoop_first_rejected s p weights
                  (clock (clockReads (searchStart st)) + timeLimitMs config)%float
                  first rest 1 ds
                  (mkDeepening (nth 0 (first :: rest) first) neg_infinity 0)
                  (tick (searchStart st)) _ Hfirst) as Hloop.
    change (clockReads (tick (searchStart st))) with (S (clockReads (searchStart st)))
      in Hloop.
    destruct (clock (clockReads (searchStart st)) + timeLimitMs config
              - clock (S (clockReads (searchStart st))) <? 100)%float.
    + rewrite (bind_Ok _ _ _ _ _ Hloop).
      rewrite bind_modify, bind_gets, bind_gets. reflexivity.
    + rewrite (bind_Throw _ _ _ _ _ Hloop). reflexivity.
Qed.

(** At move 0 every generated pair is rejected. *)
Lemma opening_pairs_rejected s p m :
  moveNumber s = 0 ->
  In m (generateTwoStoneMoves s (generateRZOPCandidates s) p) ->
  player m = p /\ applyMoveWithWinner s m = Throw (openingError s m).
Proof.
  intros Hm Hin.
  destruct (generateTwoStoneMoves_invariant s (generateRZOPCandidates s) p) as (Hgood & _ & _).
  destruct (proj1 (Forall_forall _ _) Hgood m Hin) as (Hp & a & b & Hpos & _).
  split; [exact Hp|]. now apply applyMoveWithWinner_two_at_opening with (a := a) (b := b).
Qed.

(** X13: when [moveNumber] is 0, no forcing root move exists and RZOP
    yields at least one pair, [pvsSearchBestMove] never returns a move that
    can be played.  If at least 100 ms of the time limit remain when the
    deepening loop starts, it throws the error with which
    [applyMoveWithWinner] rejects two stones on the first move (one stone
    expected); otherwise it returns, unsearched (depth 0, score -Infinity),
    the first generated pair, which [applyMoveWithWinner] rejects in the
    same way. *)
Theorem pvsSearchBestMove_first_move :
  forall (s : GameState) (p : Player) (weights : EvaluationWeights)
         (config : SearchConfig) (st : EngineState),
    moveNumber s = 0 ->
    findVcdtRootMove s p = Ok None ->
    generateTwoStoneMoves s (generateRZOPCandidates s) p <> [] ->
    let t0 := clock (clockReads (searchStart st)) in
    let t1 := clock (S (clockReads (searchStart st))) in
    let deadline := (t0 + timeLimitMs config)%float in
    ((deadline - t1 <? 100)%float = false ->
     exists m st',
       In m (generateTwoStoneMoves s (generateRZOPCandidates s) p) /\
       pvsSearchBestMove clock s p weights config st = (Throw (openingError s m), st')) /\
    (forall d st',
       pvsSearchBestMove clock s p weights config st = (Ok d, st') ->
       In (dec_move d) (generateTwoStoneMoves s (generateRZOPCandidates s) p) /\
       applyMoveWithWinner s (dec_move d) = Throw (openingError s (dec_move d)) /\
       dec_score d = neg_infinity /\
       dbg_depth (dec_debugInfo d) = 0) /\
    (forall e st',
       pvsSearchBestMove clock s p weights config st = (Throw e, st') ->
       exists m,
         In m (generateTwoStoneMoves s (generateRZOPCandidates s) p) /\
         e = openingError s m).
Proof.
  intros s p weights config st Hm Hvcdt Hne. cbv zeta.
  destruct (generateTwoStoneMoves s (generateRZOPCandidates s) p) as [|first rest] eqn:Emoves;
    [contradiction|].
  assert (Hfirst : applyMoveWithWinner s first = Throw (openingError s first)).
  { apply (opening_pairs_rejected s p first Hm). rewrite Emoves. now left. }
  pose proof (pvsSearchBestMove_first_rejected s p weights config st first rest _
                Hvcdt Emoves Hfirst) as Hrun.
  split; [|split].
  - intros Htime. exists first. rewrite Hrun.
    destruct (MAX_ROOT_MOVE_COMBOS <? Z.of_nat (length (first :: rest)));
      [eexists; split; [now left|reflexivity]|].
    rewrite Htime. eexists. split; [now left|reflexivity].
  - intros d st' Hd. rewrite Hrun in Hd.
    destruct (MAX_ROOT_MOVE_COMBOS <? Z.of_nat (length (first :: rest))); [discriminate|].
    destruct (_ <? 100)%float; [|discriminate].
    injection Hd as <- _. cbn [dec_move dec_score dec_debugInfo dbg_depth].
    split; [now left|]. split; [exact Hfirst|]. split; reflexivity.
  - intros e st' He. rewrite Hrun in He. exists first. split; [now left|].
    destruct (MAX_ROOT_MOVE_COMBOS <? Z.of_nat (length (first :: rest)));
      [now injection He as <- _|].
    destruct (_ <? 100)%float; [discriminate|]. now injection He as <- _.
Qed.

Lemma initial_no_root_move p : findVcdtRootMove createInitialState p = Ok None.
Proof. destruct p; vm_compute; reflexivity. Qed.

Lemma initial_moves_nonempty p :
  generateTwoStoneMoves createInitialState (generateRZOPCandidates createInitialState) p <> [].
Proof. destruct p; vm_compute; discriminate. Qed.

(** X14: [selfPlay] never produces a fitness: whatever the clock, the
    weights, the generation and the engine tables, it throws on the first
    move of its first match, with the error of [applyMoveWithWinner] for two
    stones where the opening move must have one.  (Either the search throws
    it while ordering its root moves, or, out of time, it returns a pair that
    [selfPlay] then fails to apply.) *)
Theorem selfPlay_throws :
  forall (weights : EvaluationWeights) (generation : Z) (st : EngineState),
    exists st', selfPlay clock weights generation st = (Throw (WrongStoneCount 1 2), st').
Proof.
  intros weights generation st.
  destruct (generateTwoStoneMoves createInitialState
              (generateRZOPCandidates createInitialState) BLACK) as [|first rest] eqn:Emoves;
    [exact (False_ind _ (initial_moves_nonempty BLACK Emoves))|].
  destruct (opening_pairs_rejected createInitialState BLACK first eq_refl) as [Hp Hfirst];
    [rewrite Emoves; now left|].
  assert (Herr : openingError createInitialState first = WrongStoneCount 1 2).
  { unfold openingError. rewrite Hp. reflexivity. }
  rewrite Herr in Hfirst.
  pose proof (pvsSearchBestMove_first_rejected createInitialState BLACK weights
                (mkConfig 2 120 false) st first rest _
                (initial_no_root_move BLACK) Emoves Hfirst) as Hrun.
  assert (Hloop : exists st',
            selfPlayLoop clock 36 weights createInitialState BLACK 0 st
            = (Throw (WrongStoneCount 1 2), st')).
  { change (selfPlayLoop clock 36 weights createInitialState BLACK 0) with
      (moveDecision <-
         pvsSearchBestMove clock createInitialState BLACK weights (mkConfig 2 120 false) ;;
       state' <- liftR (applyMoveWithWinner createInitialState (dec_move moveDecision)) ;;
       selfPlayLoop clock 35 weights state' WHITE (0 + 1)).
    destruct (MAX_ROOT_MOVE_COMBOS <? Z.of_nat (length (first :: rest))).
    - eexists. rewrite (bind_Throw _ _ _ _ _ Hrun). reflexivity.
    - destruct (_ <? 100)%float.
      + eexists. rewrite (bind_Ok _ _ _ _ _ Hrun). cbn [dec_move].
        rewrite Hfirst. reflexivity.
      + eexists. rewrite (bind_Throw _ _ _ _ _ Hrun). reflexivity. }
  destruct Hloop as [st' Hloop]. exists st'.
  unfold selfPlay. cbv zeta. change (range 4) with [0; 1; 2; 3].
  apply (bind_Throw (selfPlayMatches clock weights [0; 1; 2; 3] 0%float)).
  change (selfPlayMatches clock weights [0; 1; 2; 3] 0%float) with
    (r <- selfPlayLoop clock 36 weights createInitialState BLACK 0 ;;
     selfPlayMatches clock weights [1; 2; 3]
       (0 + matchScore weights (fst r) (snd r))%float).
  exact (bind_Throw _ _ _ _ _ Hloop).
Qed.

End Opening.

Lemma pvsSearchBestMove_first_move_witness :
  exists m st',
    pvsSearchBestMove msClock createInitialState BLACK sampleWeights
      (mkConfig 2 3000 false) initialEngine
    = (Throw (openingError createInitialState m), st').
Proof.
  destruct (proj1 (pvsSearchBestMove_first_move msClock createInitialState BLACK sampleWeights
                     (mkConfig 2 3000 false) initialEngine eq_refl
                     (initial_no_root_move BLACK) (initial_moves_nonempty BLACK)))
    as (m & st' & _ & H).
  - vm_compute. reflexivity.
  - exists m, st'. exact H.
Defined.


(* ===================================================================== *)
(** ** opening_book.ts *)
(* ===================================================================== *)

Definition boardEmpty (b : Board) : Prop :=
  forall x y c, cellAt b x y = Some c -> c = Empty.

Lemma hasStone_false b :
  existsb (fun row => existsb (fun c => negb (cell_eqb c Empty)) row) b = false ->
  boardEmpty b.
Proof.
  intros H x y c Hc. unfold cellAt in Hc.
  destruct ((x <? 0) || (y <? 0)); [discriminate|].
  destruct (nth_error b (Z.to_nat y)) as [row|] eqn:Erow; [|discriminate].
  apply nth_error_In in Erow, Hc.
  destruct (cell_eqb c Empty) eqn:E; [now apply cell_eqb_eq|]. exfalso.
  apply not_true_iff_false in H. apply H. apply existsb_exists. exists row.
  split; [exact Erow|]. apply existsb_exists. exists c. split; [exact Hc|]. now rewrite E.
Qed.

Lemma boardEmpty_hasStone b :
  wfBoard b -> boardEmpty b ->
  existsb (fun row => existsb (fun c => negb (cell_eqb c Empty)) row) b = false.
Proof.
  intros [Hl Hr] He. apply not_true_iff_false. intros H.
  apply existsb_exists in H. destruct H as (row & Hrow & H).
  apply existsb_exists in H. destruct H as (c & Hc & Hne).
  apply In_nth_error in Hrow. destruct Hrow as [y Hy].
  apply In_nth_error in Hc. destruct Hc as [x Hx].
  assert (Hcell : cellAt b (Z.of_nat x) (Z.of_nat y) = Some c).
  { unfold cellAt.
    replace ((Z.of_nat x <? 0) || (Z.of_nat y <? 0)) with false
      by (symmetry; apply orb_false_iff; split; apply Z.ltb_ge; lia).
    now rewrite !Nat2Z.id, Hy. }
  rewrite (He _ _ _ Hcell) in Hne. discriminate.
Qed.

(** A board with one stone has no six in a row. *)
Lemma single_stone_no_six b x0 y0 v p :
  boardEmpty b -> ~ hasSix (placeStones b [mkPos x0 y0] v) p.
Proof.
  intros He (x & y & dx & dy & Hd & Hsix).
  assert (Hcell : forall k, 0 <= k < 6 ->
            x + k * dx = x0 /\ y + k * dy = y0).
  { intros k Hk. destruct (Hsix k Hk) as [_ Hc]. rewrite cellAt_placeStones in Hc.
    destruct (cellAt b (x + k * dx) (y + k * dy)) as [c|] eqn:Ec; [|discriminate].
    unfold hasPos in Hc. cbn [existsb] in Hc. rewrite orb_false_r in Hc.
    destruct (pos_eqb (mkPos (x + k * dx) (y + k * dy)) (mkPos x0 y0)) eqn:Ep.
    - apply pos_eqb_eq in Ep. now injection Ep.
    - rewrite (He _ _ _ Ec) in Hc. destruct p; discriminate. }
  destruct (Hcell 0 ltac:(lia)) as [Hx0 Hy0]. destruct (Hcell 1 ltac:(lia)) as [Hx1 Hy1].
  cbn [In] in Hd. destruct Hd as [Hd|[Hd|[Hd|[Hd|[]]]]]; injection Hd as <- <-; lia.
Qed.

(** X15: [getOpeningMove] answers only for Black on move 0 of a board
    without stones whose centre cell exists, and then always with the single
    stone (9, 9); on a 19x19 board with Black to move that move is accepted
    by [applyMoveWithWinner], which leaves move 1 to White with a black
    stone on the centre and no winner declared.  In every other case the
    book has no move. *)
Theorem getOpeningMove_spec :
  forall (s : GameState) (p : Player),
    (forall m, getOpeningMove s p = Some m ->
       moveNumber s = 0 /\ p = BLACK /\ boardEmpty (board s) /\
       cellAt (board s) 9 9 = Some Empty /\ m = mkMove BLACK [mkPos 9 9]) /\
    (wfBoard (board s) ->
     (getOpeningMove s p <> None <->
      moveNumber s = 0 /\ p = BLACK /\ boardEmpty (board s))) /\
    (wfBoard (board s) -> currentPlayer s = BLACK ->
     forall m, getOpeningMove s p = Some m ->
       exists s',
         applyMoveWithWinner s m = Ok s' /\
         moveNumber s' = 1 /\ currentPlayer s' = WHITE /\
         cellAt (board s') 9 9 = Some Black /\ winner s' = winner s).
Proof.
  intros s p.
  assert (Hsome : forall m, getOpeningMove s p = Some m ->
            moveNumber s = 0 /\ p = BLACK /\ boardEmpty (board s) /\
            cellAt (board s) 9 9 = Some Empty /\ m = mkMove BLACK [mkPos 9 9]).
  { intros m H. unfold getOpeningMove in H.
    destruct (moveNumber s =? 0) eqn:Em; cbn [negb] in H; [|discriminate].
    destruct (player_eqb p BLACK) eqn:Ep; cbn [negb] in H; [|discriminate].
    cbv zeta in H.
    destruct (existsb _ (board s)) eqn:Es; [discriminate|].
    destruct (cellIs (cellAtPos (board s) centerPosition) Empty) eqn:Ec;
      cbn [negb] in H; [|discriminate].
    injection H as <-. apply Z.eqb_eq in Em. apply player_eqb_eq in Ep.
    apply cellIs_eq in Ec. repeat split; try assumption. now apply hasStone_false. }
  split; [exact Hsome|]. split.
  - intros Hwf. split.
    + intros Hne. destruct (getOpeningMove s p) as [m|] eqn:E; [|contradiction].
      destruct (Hsome m eq_refl) as (H1 & H2 & H3 & _). auto.
    + intros (Hm & Hp & He). unfold getOpeningMove.
      rewrite Hm, Hp. cbn [Z.eqb negb player_eqb]. cbv zeta.
      rewrite (boardEmpty_hasStone _ Hwf He).
      destruct (wf_cellAt (board s) 9 9 Hwf eq_refl) as [c Hc].
      unfold cellAtPos, centerPosition. cbv zeta.
      change (BOARD_SIZE / 2) with 9. cbn [pos_x pos_y]. rewrite Hc, (He _ _ _ Hc).
      discriminate.
  - intros Hwf Hcur m Hm.
    destruct (Hsome m Hm) as (Hn & Hp & He & Hc & ->).
    destruct (proj2 (applyMoveWithWinner_Ok_iff s (mkMove BLACK [mkPos 9 9])))
      as [s' Hs'].
    { split; [now rewrite Hcur|]. split.
      - cbn [positions length player]. rewrite Hn. reflexivity.
      - cbn [positions]. apply Forall_cons; [|apply Forall_nil]. split; [reflexivity|exact Hc]. }
    exists s'. split; [exact Hs'|].
    destruct (applyMoveWithWinner_successor _ _ _ Hs') as (Hb & Hpl & Hnum & _ & Hw).
    cbn [positions player] in Hb.
    split; [rewrite Hnum, Hn; reflexivity|]. split; [exact Hpl|]. split.
    + rewrite Hb, cellAt_placeStones, Hc. reflexivity.
    + rewrite Hw.
      assert (Hwf' : wfBoard (board s')) by (rewrite Hb; now apply wfBoard_placeStones).
      assert (Hscan : firstSome
                (fun y => firstSome (fun x => winnerAt (board s') x y) (range BOARD_SIZE))
                (range BOARD_SIZE) = None).
      { destruct (firstSome _ (range BOARD_SIZE)) as [q|] eqn:Eq; [|reflexivity].
        exfalso. apply scan_Some in Eq; [|exact Hwf']. rewrite Hb in Eq.
        exact (single_stone_no_six _ 9 9 Black q He Eq). }
      unfold checkWinner. cbv zeta. rewrite Hscan.
      destruct (hasEmptyCell (board s')) eqn:Ee; [reflexivity|].
      exfalso. apply hasEmptyCell_false in Ee.
      apply (Ee 0 0 eq_refl). rewrite Hb, cellAt_placeStones.
      destruct (wf_cellAt (board s) 0 0 Hwf eq_refl) as [c Hc0].
      rewrite Hc0, (He _ _ _ Hc0). reflexivity.
Qed.

Lemma getOpeningMove_spec_witness :
  wfBoard (board createInitialState) /\
  exists s',
    applyMoveWithWinner createInitialState (mkMove BLACK [mkPos 9 9]) = Ok s' /\
    moveNumber s' = 1.
Proof.
  assert (Hwf : wfBoard (board createInitialState))
    by (apply wfBoardb_true; vm_compute; reflexivity).
  split; [exact Hwf|].
  destruct (proj2 (proj2 (getOpeningMove_spec createInitialState BLACK)) Hwf eq_refl
              (mkMove BLACK [mkPos 9 9]))
    as (s' & Hs' & Hn & _).
  - vm_compute. reflexivity.
  - exists s'. split; assumption.
Defined.

(* ===================================================================== *)
(** ** hybrid_strategy.ts: the choice of engine *)
(* ===================================================================== *)

(** X16: [selectStrategy] never answers ['deep']; it answers ['hybrid']
    exactly for a step in 11..30 and a complexity that is above 0.6 or is
    not comparable with it (NaN), and ['traditional'] in every other case,
    in particular up to step 10 and from step 31 on. *)
Theorem selectStrategy_cases :
  forall (step : Z) (complexity : float),
    selectStrategy step complexity <> deep /\
    (selectStrategy step complexity = hybrid <->
     10 < step <= 30 /\
     ((0.6 <? complexity)%float = true \/ (complexity <=? 0.6)%float = false)) /\
    (step <= 10 \/ 30 < step -> selectStrategy step complexity = traditional).
Proof.
  intros step complexity. unfold selectStrategy.
  destruct (step <=? 10) eqn:E10.
  - apply Z.leb_le in E10. split; [discriminate|]. split; [|reflexivity].
    split; [discriminate|]. intros [H _]. lia.
  - apply Z.leb_gt in E10. destruct (step <=? 30) eqn:E30; cbn [andb].
    + apply Z.leb_le in E30.
      destruct (0.6 <? complexity)%float eqn:Egt.
      * split; [discriminate|]. split; [|intros [H|H]; lia].
        split; [intros _; split; [lia|now left]|reflexivity].
      * destruct (complexity <=? 0.6)%float eqn:Ele.
        -- split; [discriminate|]. split; [|intros [H|H]; lia].
           split; [discriminate|]. intros [_ [H|H]]; discriminate.
        -- replace (30 <? step) with false by (symmetry; apply Z.ltb_ge; lia).
           split; [discriminate|]. split; [|intros [H|H]; lia].
           split; [intros _; split; [lia|now right]|reflexivity].
    + apply Z.leb_gt in E30.
      replace (30 <? step) with true by (symmetry; apply Z.ltb_lt; lia).
      split; [discriminate|]. split; [|reflexivity].
      split; [discriminate|]. intros [H _]. lia.
Qed.

Lemma selectStrategy_cases_witness :
  selectStrategy 31 0.9 = traditional /\ selectStrategy 20 0.9 = hybrid.
Proof.
  split.
  - apply (proj2 (proj2 (selectStrategy_cases 31 0.9))). right. lia.
  - apply (proj2 (proj1 (proj2 (selectStrategy_cases 20 0.9)))).
    split; [lia|]. left. vm_compute. reflexivity.
Defined.

(* ===================================================================== *)
(** ** smart_defense.ts: the candidate nearest to the centre *)
(* ===================================================================== *)

Lemma pickBestLoop_first_minimum : forall rest pre best post,
  (forall q, In q pre -> centerDistance best < centerDistance q) ->
  (forall q, In q post -> centerDistance best <= centerDistance q) ->
  exists l1 l2,
    pre ++ best :: post ++ rest =
    l1 ++ pickBestLoop rest best (centerDistance best) :: l2 /\
    (forall q, In q l1 ->
       centerDistance (pickBestLoop rest best (centerDistance best)) < centerDistance q) /\
    (forall q, In q l2 ->
       centerDistance (pickBestLoop rest best (centerDistance best)) <= centerDistance q).
Proof.
  induction rest as [|p rest IH]; intros pre best post Hpre Hpost.
  - exists pre, post. cbn [pickBestLoop]. rewrite app_nil_r. auto.
  - cbn [pickBestLoop]. cbv zeta. destruct (centerDistance p <? centerDistance best) eqn:E.
    + apply Z.ltb_lt in E.
      destruct (IH (pre ++ best :: post) p []) as (l1 & l2 & Heq & H1 & H2).
      * intros q Hq. apply in_app_or in Hq. destruct Hq as [Hq|[<-|Hq]].
        -- specialize (Hpre q Hq). lia.
        -- exact E.
        -- specialize (Hpost q Hq). lia.
      * intros q [].
      * exists l1, l2. split; [|split; assumption].
        rewrite <- Heq. cbn [app]. rewrite <- app_assoc. reflexivity.
    + apply Z.ltb_ge in E.
      destruct (IH pre best (post ++ [p])) as (l1 & l2 & Heq & H1 & H2).
      * exact Hpre.
      * intros q Hq. apply in_app_or in Hq. destruct Hq as [Hq|[<-|[]]]; [now apply Hpost|exact E].
      * exists l1, l2. split; [|split; assumption].
        rewrite <- Heq. rewrite <- app_assoc. reflexivity.
Qed.

(** X17: [pickBestByCenter] throws on an empty list; otherwise it returns
    the first candidate at which the Manhattan distance to the centre is
    minimal: the candidates before it are strictly farther, those after it
    at least as far. *)
Theorem pickBestByCenter_first_minimum :
  pickBestByCenter [] = Throw EmptyCandidates /\
  forall (c : Position) (cs : list Position),
    exists best l1 l2,
      pickBestByCenter (c :: cs) = Ok best /\
      c :: cs = l1 ++ best :: l2 /\
      (forall q, In q l1 -> centerDistance best < centerDistance q) /\
      (forall q, In q l2 -> centerDistance best <= centerDistance q).
Proof.
  split; [reflexivity|]. intros c cs.
  destruct (pickBestLoop_first_minimum cs [] c []) as (l1 & l2 & Heq & H1 & H2);
    [intros q []|intros q []|].
  exists (pickBestLoop cs c (centerDistance c)), l1, l2.
  split; [reflexivity|]. split; [exact Heq|]. split; assumption.
Qed.

(* ===================================================================== *)
(** ** evaluation.ts: the positional term *)
(* ===================================================================== *)

Lemma fold_left_related {A B} (R : B -> B -> Prop) (F G : B -> A -> B) (l : list A) :
  (forall a b1 b2, In a l -> R b1 b2 -> R (F b1 a) (G b2 a)) ->
  forall b1 b2, R b1 b2 -> R (fold_left F l b1) (fold_left G l b2).
Proof.
  induction l as [|a l IH]; intros H b1 b2 Hb; [exact Hb|].
  cbn [fold_left]. apply IH.
  - intros a' c1 c2 Ha'. apply H. now right.
  - apply H; [now left|exact Hb].
Qed.

Lemma allPositions_In p :
  In p allPositions <-> 0 <= pos_x p < 19 /\ 0 <= pos_y p < 19.
Proof.
  unfold allPositions. rewrite in_flat_map. split.
  - intros (y & Hy & Hp). apply in_map_iff in Hp. destruct Hp as (x & <- & Hx).
    apply range_In in Hx, Hy. unfold BOARD_SIZE in *. cbn [pos_x pos_y]. lia.
  - intros [Hx Hy]. exists (pos_y p). split; [apply range_In; unfold BOARD_SIZE; lia|].
    apply in_map_iff. exists (pos_x p). split; [now destruct p|].
    apply range_In. unfold BOARD_SIZE. lia.
Qed.

Lemma allPositions_length : length allPositions = 361%nat.
Proof. vm_compute. reflexivity. Qed.

(** X18: the positional term of the evaluation is antisymmetric in the
    player, [evaluatePositional s p = - evaluatePositional s (other p)], and
    bounded by 36 points per cell of the board. *)
Theorem evaluatePositional_antisymmetric :
  forall (s : GameState) (p : Player),
    evaluatePositional s p = - evaluatePositional s (otherPlayer p) /\
    - 12996 <= evaluatePositional s p <= 12996.
Proof.
  intros s p. unfold evaluatePositional. cbv zeta. split.
  - apply (fold_left_related (fun a b => a = - b)); [|reflexivity].
    intros q b1 b2 _ ->.
    destruct (cellAtPos (board s) q) as [[| |]|]; destruct p; cbn; lia.
  - change ((BOARD_SIZE - 1) / 2) with 9.
    match goal with
    | |- _ <= fold_left ?F allPositions 0 <= _ =>
        assert (H : forall l acc,
                  (forall q, In q l -> In q allPositions) ->
                  - 36 * Z.of_nat (length l) + acc <= fold_left F l acc
                  <= 36 * Z.of_nat (length l) + acc)
    end.
    { induction l as [|q l IH]; intros acc Hl; [cbn [fold_left length]; lia|].
      cbn [fold_left].
      assert (Hq : 0 <= pos_x q < 19 /\ 0 <= pos_y q < 19)
        by (apply allPositions_In, Hl; now left).
      assert (Hl' : forall q', In q' l -> In q' allPositions)
        by (intros q' Hq'; apply Hl; now right).
      cbn [length]. rewrite Nat2Z.inj_succ.
      destruct (cellIs (cellAtPos (board s) q) Empty); cbv beta iota.
      - specialize (IH acc Hl'). lia.
      - destruct (cellIs (cellAtPos (board s) q) (stoneOf p)); cbv beta iota.
        + specialize (IH (acc + (9 * 2 - (Z.abs (pos_x q - 9) + Z.abs (pos_y q - 9))) * 2) Hl').
          lia.
        + destruct (cellIs (cellAtPos (board s) q) (stoneOf (otherPlayer p))); cbv beta iota.
          * specialize (IH (acc - (9 * 2 - (Z.abs (pos_x q - 9) + Z.abs (pos_y q - 9))) * 2) Hl').
            lia.
          * specialize (IH acc Hl'). lia. }
    specialize (H allPositions 0 (fun q Hq => Hq)). rewrite allPositions_length in H.
    lia.
Qed.

(* ===================================================================== *)
(** ** pvs_search.ts: move ordering *)
(* ===================================================================== *)

(** The sum of the history scores in [scoreMoveForOrdering] only reads. *)
Lemma historySum_reads toMove : forall ps s0 st,
  exists v,
    (fix sum (ps : list Position) (s : Z) : M Z :=
       match ps with
       | [] => ret s
       | p :: ps' => h <- getHistoryScore toMove p ;; sum ps' (s + h)
       end) ps s0 st = (Ok v, st).
Proof.
  induction ps as [|p ps IH]; intros s0 st.
  - exists s0. reflexivity.
  - rewrite (bind_Ok _ _ _ _ _ (getHistoryScore_value toMove p st)). apply IH.
Qed.

Lemma scoreMoveForOrdering_reads move state rootPlayer toMove weights depth st :
  match applyMoveWithWinner state move with
  | Ok _ => exists v, scoreMoveForOrdering move state rootPlayer toMove weights depth st
                      = (Ok v, st)
  | Throw e => scoreMoveForOrdering move state rootPlayer toMove weights depth st
               = (Throw e, st)
  end.
Proof.
  unfold scoreMoveForOrdering.
  destruct (applyMoveWithWinner state move) as [next|e]; [|reflexivity].
  rewrite bind_liftR_Ok.
  destruct (historySum_reads toMove (positions move) 0 st) as [h Hh].
  rewrite (bind_Ok _ _ _ _ _ Hh).
  rewrite (bind_Ok _ _ _ _ _ (findKillerBonus_value depth move st)).
  eexists. reflexivity.
Qed.

Lemma scoreAll_reads state rootPlayer toMove weights depth st : forall moves,
  (exists scored,
     mapM (fun m =>
             s <- scoreMoveForOrdering m state rootPlayer toMove weights depth ;;
             ret (m, s)) moves st = (Ok scored, st) /\
     map fst scored = moves /\
     Forall (fun m => exists s', applyMoveWithWinner state m = Ok s') moves) \/
  (exists e m,
     mapM (fun m =>
             s <- scoreMoveForOrdering m state rootPlayer toMove weights depth ;;
             ret (m, s)) moves st = (Throw e, st) /\
     In m moves /\ applyMoveWithWinner state m = Throw e).
Proof.
  induction moves as [|m moves IH].
  - left. exists []. repeat split. constructor.
  - cbn [mapM].
    pose proof (scoreMoveForOrdering_reads m state rootPlayer toMove weights depth st) as Hm.
    destruct (applyMoveWithWinner state m) as [next|e] eqn:Eapp.
    + destruct Hm as [v Hv].
      assert (Hstep : (s <- scoreMoveForOrdering m state rootPlayer toMove weights depth ;;
                       ret (m, s)) st = (Ok (m, v), st)).
      { rewrite (bind_Ok _ _ _ _ _ Hv). reflexivity. }
      rewrite (bind_Ok _ _ _ _ _ Hstep).
      destruct IH as [(scored & Hrun & Hfst & Hall)|(e & m' & Hrun & Hin & Hthrow)].
      * left. exists ((m, v) :: scored). split; [|split].
        -- rewrite (bind_Ok _ _ _ _ _ Hrun). reflexivity.
        -- cbn [map fst]. now rewrite Hfst.
        -- constructor; [eauto|exact Hall].
      * right. exists e, m'. split; [|split; [now right|exact Hthrow]].
        rewrite (bind_Throw _ _ _ _ _ Hrun). reflexivity.
    + right. exists e, m. split; [|split; [now left|exact Eapp]].
      assert (Hstep : (s <- scoreMoveForOrdering m state rootPlayer toMove weights depth ;;
                       ret (m, s)) st = (Throw e, st)).
      { rewrite (bind_Throw _ _ _ _ _ Hm). reflexivity. }
      rewrite (bind_Throw _ _ _ _ _ Hstep). reflexivity.
Qed.


(** X19: [orderMoves] leaves the engine state as it was (it reads the
    history table and the killers, and never the clock); when every move is
    accepted by [applyMoveWithWinner] on the given state it returns a
    permutation of the moves it was given, nothing dropped and nothing
    added; otherwise it throws the error of a rejected move. *)
Theorem orderMoves_permutation :
  forall (moves : list Move) (state : GameState) (rootPlayer toMove : Player)
         (weights : EvaluationWeights) (depth : Z) (st : EngineState),
    snd (orderMoves moves state rootPlayer toMove weights depth st) = st /\
    (forall l, fst (orderMoves moves state rootPlayer toMove weights depth st) = Ok l ->
       Permutation l moves /\
       Forall (fun m => exists s', applyMoveWithWinner state m = Ok s') moves) /\
    (forall e, fst (orderMoves moves state rootPlayer toMove weights depth st) = Throw e ->
       exists m, In m moves /\ applyMoveWithWinner state m = Throw e) /\
    (Forall (fun m => exists s', applyMoveWithWinner state m = Ok s') moves ->
     exists l, fst (orderMoves moves state rootPlayer toMove weights depth st) = Ok l).
Proof.
  intros moves state rootPlayer toMove weights depth st. unfold orderMoves.
  destruct (scoreAll_reads state rootPlayer toMove weights depth st moves)
    as [(scored & Hrun & Hfst & Hall)|(e & m & Hrun & Hin & Hthrow)].
  - rewrite (bind_Ok _ _ _ _ _ Hrun). unfold ret. cbn [fst snd].
    split; [reflexivity|]. split; [|split].
    + intros l [= <-]. split; [|exact Hall].
      rewrite <- Hfst. apply Permutation_map, sortBy_Permutation.
    + intros e [=].
    + intros _. eexists. reflexivity.
  - rewrite (bind_Throw _ _ _ _ _ Hrun). cbn [fst snd].
    split; [reflexivity|]. split; [|split].
    + intros l [=].
    + intros e' [= <-]. eauto.
    + intros Hall. exfalso. rewrite Forall_forall in Hall.
      destruct (Hall m Hin) as [s' Hs']. rewrite Hs' in Hthrow. discriminate.
Qed.

Lemma orderMoves_permutation_witness :
  exists l,
    fst (orderMoves
           (generateTwoStoneMoves mateState (generateRZOPCandidates mateState) BLACK)
           mateState BLACK BLACK sampleWeights 1 initialEngine) = Ok l.
Proof.
  apply (proj2 (proj2 (proj2 (orderMoves_permutation _ mateState BLACK BLACK sampleWeights 1
                                initialEngine)))).
  apply generateTwoStoneMoves_accepted.
  - apply wfBoardb_true. vm_compute. reflexivity.
  - reflexivity.
  - discriminate.
Defined.

(* ===================================================================== *)
(** ** pvs_search.ts: what a search does to the engine state *)
(* ===================================================================== *)

(** Every write of the engine is one of seven kinds.  A relation between
    the state before and after that is reflexive, transitive and holds for
    each kind of write therefore holds across any computation of the
    engine. *)
Section Frame.

Variable clock : nat -> float.
Variable R : EngineState -> EngineState -> Prop.

Hypothesis R_refl : forall st, R st st.
Hypothesis R_trans : forall a b c, R a b -> R b c -> R a c.
Hypothesis R_nodes : forall st n, R st (setNodeCount n st).
Hypothesis R_depth : forall st d, R st (setSearchDepth d st).
Hypothesis R_tick : forall st, R st (tick st).
Hypothesis R_storeTT : forall st hash depth score alpha beta mv,
  R st (setTT (storeTTtable (transpositionTable st) hash depth score alpha beta mv) st).
Hypothesis R_history : forall st player pos depth,
  R st (setHistory (updateHistoryTable (historyTable st) player pos depth) st).
Hypothesis R_killers : forall st km,
  length km = length (killerMoves st) -> R st (setKillers km st).




















End Frame.

(** *** The tables from one search to the next *)




















(* ===================================================================== *)
(** ** pvs_search.ts: the search returns *)
(* ===================================================================== *)

(** A position of a game in progress with [toMove] to play. *)
Definition validState (s : GameState) (toMove : Player) : Prop :=
  wfBoard (board s) /\ currentPlayer s = toMove /\ 1 <= moveNumber s.

Definition accepted (s : GameState) (m : Move) : Prop :=
  exists s', applyMoveWithWinner s m = Ok s'.

Lemma switchPlayer_otherPlayer p : switchPlayer p = otherPlayer p.
Proof. now destruct p. Qed.

Lemma validState_next s toMove m next :
  validState s toMove -> applyMoveWithWinner s m = Ok next ->
  validState next (switchPlayer toMove).
Proof.
  intros (Hwf & Hp & Hn) Happ.
  destruct (applyMoveWithWinner_successor s m next Happ) as (Hb & Hpl & Hnum & _).
  assert (Hacc : acceptedMove s m) by (apply applyMoveWithWinner_Ok_iff; eauto).
  split; [|split].
  - rewrite Hb. now apply wfBoard_placeStones.
  - rewrite Hpl, (proj1 Hacc), Hp. symmetry. apply switchPlayer_otherPlayer.
  - lia.
Qed.

Lemma generated_accepted s candidates toMove :
  validState s toMove -> Forall (accepted s) (generateTwoStoneMoves s candidates toMove).
Proof.
  intros (Hwf & Hp & Hn). apply generateTwoStoneMoves_accepted; [exact Hwf|now symmetry|lia].
Qed.

Lemma Forall_takeMoves {P : Move -> Prop} n l : Forall P l -> Forall P (takeMoves n l).
Proof.
  intros H. apply Forall_forall. intros m Hm. unfold takeMoves in Hm.
  apply In_firstn in Hm. exact (proj1 (Forall_forall _ _) H m Hm).
Qed.

(** *** Quiescence *)

Lemma quiescenceSearch_returns : forall fuel state rootPlayer toMove alpha beta weights depth,
  validState state toMove ->
  (Z.to_nat (QUIESCENCE_MAX_DEPTH - depth) < fuel)%nat ->
  exists v, quiescenceSearch fuel state rootPlayer toMove alpha beta weights depth = Ok v.
Proof.
  induction fuel as [|fuel IH]; intros state rootPlayer toMove alpha beta weights depth
                                       Hvalid Hfuel; [lia|].
  cbn [quiescenceSearch]. cbv zeta.
  destruct (QUIESCENCE_MAX_DEPTH <=? depth) eqn:Ed; [eauto|].
  destruct (beta <=? evaluateState state rootPlayer weights)%float; [eauto|].
  apply Z.leb_gt in Ed.
  pose proof (Forall_takeMoves MAX_CHILD_MOVE_COMBOS _
                (generated_accepted state (generateRZOPCandidates state) toMove Hvalid))
    as Hmoves.
  revert Hmoves.
  generalize (takeMoves MAX_CHILD_MOVE_COMBOS
                (generateTwoStoneMoves state (generateRZOPCandidates state) toMove)).
  generalize (if (alpha <? evaluateState state rootPlayer weights)%float
              then evaluateState state rootPlayer weights else alpha).
  intros alpha0 ms. revert alpha0.
  induction ms as [|move rest IHl]; intros alpha0 Hms; [eauto|].
  cbv beta iota fix. fold (quiescenceSearch fuel).
  inversion Hms as [|? ? [next Hnext] Hrest]; subst.
  rewrite Hnext. cbn [rbind].
  destruct (IH next rootPlayer (switchPlayer toMove) (- beta)%float (- alpha0)%float
              weights (depth + 1)) as [r Hr].
  - now apply validState_next with (s := state) (m := move).
  - unfold QUIESCENCE_MAX_DEPTH in *. lia.
  - rewrite Hr. cbn [rbind]. cbv zeta.
    destruct (beta <=? - r)%float; [eauto|]. now apply IHl.
Qed.

(** *** Computations that return *)

Definition returns {A} (P : A -> Prop) (m : M A) : Prop :=
  forall st, exists a st', m st = (Ok a, st') /\ P a.

Lemma returns_ret {A} (P : A -> Prop) (a : A) : P a -> returns P (ret a).
Proof. intros H st. exists a, st. now split. Qed.

Lemma returns_bind {A B} (P : A -> Prop) (Q : B -> Prop) (m : M A) (k : A -> M B) :
  returns P m -> (forall a, P a -> returns Q (k a)) -> returns Q (bind m k).
Proof.
  intros Hm Hk st. destruct (Hm st) as (a & st1 & Hrun & Ha).
  destruct (Hk a Ha st1) as (b & st2 & Hrun2 & Hb).
  exists b, st2. split; [|exact Hb]. now rewrite (bind_Ok _ _ _ _ _ Hrun).
Qed.

Lemma returns_weaken {A} (P Q : A -> Prop) (m : M A) :
  (forall a, P a -> Q a) -> returns P m -> returns Q m.
Proof.
  intros H Hm st. destruct (Hm st) as (a & st1 & Hrun & Ha). exists a, st1. auto.
Qed.

Lemma returns_liftR {A} (P : A -> Prop) (r : Result A) a :
  r = Ok a -> P a -> returns P (liftR r).
Proof. intros -> H st. exists a, st. now split. Qed.

Lemma returns_any_modify f : returns (fun _ : unit => True) (modify f).
Proof. intros st. exists tt, (f st). now split. Qed.

Lemma returns_any_gets {A} (f : EngineState -> A) : returns (fun _ => True) (gets f).
Proof. intros st. exists (f st), st. now split. Qed.

Lemma returns_any_getCurrentTime clock : returns (fun _ => True) (getCurrentTime clock).
Proof. intros st. eexists _, _. split; [reflexivity|exact I]. Qed.

Lemma returns_any_probeTT state depth alpha beta :
  returns (fun _ => True) (probeTT state depth alpha beta).
Proof. intros st. rewrite probeTT_value. eexists _, _. split; [reflexivity|exact I]. Qed.

Lemma returns_any_storeTT state depth score alpha beta mv :
  returns (fun _ => True) (storeTT state depth score alpha beta mv).
Proof. apply returns_any_modify. Qed.

Lemma returns_any_updateHistory player pos depth :
  returns (fun _ => True) (updateHistory player pos depth).
Proof. apply returns_any_modify. Qed.

Lemma returns_any_storeKiller depth move : returns (fun _ => True) (storeKiller depth move).
Proof.
  unfold storeKiller. destruct (_ || _); [now apply returns_ret|apply returns_any_modify].
Qed.

Lemma returns_any_forEachM {A} (body : A -> M unit) (l : list A) :
  (forall a, returns (fun _ => True) (body a)) -> returns (fun _ => True) (forEachM body l).
Proof.
  intros H. induction l as [|a l IH]; cbn [forEachM]; [now apply returns_ret|].
  apply returns_bind with (P := fun _ => True); [apply H|intros _ _; exact IH].
Qed.

Lemma returns_orderMoves moves state rootPlayer toMove weights depth :
  Forall (accepted state) moves ->
  returns (fun l => Permutation l moves)
    (orderMoves moves state rootPlayer toMove weights depth).
Proof.
  intros Hall st. unfold orderMoves.
  destruct (scoreAll_reads state rootPlayer toMove weights depth st moves)
    as [(scored & Hrun & Hfst & _)|(e & m & _ & Hin & Hthrow)].
  - rewrite (bind_Ok _ _ _ _ _ Hrun). eexists _, _. split; [reflexivity|].
    rewrite <- Hfst. apply Permutation_map, sortBy_Permutation.
  - exfalso. destruct (proj1 (Forall_forall _ _) Hall m Hin) as [s' Hs'].
    rewrite Hs' in Hthrow. discriminate.
Qed.

Lemma Forall_Permutation {A} (P : A -> Prop) (l l' : list A) :
  Permutation l' l -> Forall P l -> Forall P l'.
Proof.
  intros Hperm H. apply Forall_forall. intros a Ha.
  exact (proj1 (Forall_forall _ _) H a (Permutation_in _ Hperm Ha)).
Qed.

Lemma preselectRootMoves_returns rootState rootPlayer weights moveCombos :
  Forall (accepted rootState) moveCombos ->
  exists l, preselectRootMoves rootState rootPlayer weights moveCombos = Ok l /\
            incl l moveCombos.
Proof.
  intros Hall. unfold preselectRootMoves.
  match goal with |- context [rbind (?F moveCombos) _] =>
    assert (Hscore : exists scored, F moveCombos = Ok scored /\ map fst scored = moveCombos)
  end.
  { induction Hall as [|move rest [next Hnext] _ IH]; [now exists []|].
    destruct IH as (others & Hothers & Hfst).
    cbv beta iota fix. rewrite Hnext. cbn [rbind]. cbv zeta.
    match type of Hothers with ?lhs = _ =>
      match goal with |- context [rbind ?lhs' _] => change lhs' with lhs end end.
    rewrite Hothers. cbn [rbind]. eexists. split; [reflexivity|].
    cbn [map fst]. now rewrite Hfst. }
  destruct Hscore as (scored & Hscored & Hfst). rewrite Hscored. cbn [rbind].
  eexists. split; [reflexivity|].
  intros m Hm. apply in_map_iff in Hm. destruct Hm as (x & <- & Hx).
  apply In_firstn in Hx. rewrite <- Hfst. apply in_map.
  exact (Permutation_in _ (sortBy_Permutation _ _) Hx).
Qed.

Section Total.

Variable clock : nat -> float.

Ltac returns_any :=
  first [ apply returns_ret; exact I
        | apply returns_any_modify
        | apply returns_any_gets
        | apply returns_any_getCurrentTime
        | apply returns_any_probeTT
        | apply returns_any_storeTT
        | apply returns_any_storeKiller
        | apply returns_any_forEachM; intros ?; apply returns_any_updateHistory ].

Ltac returns_seq :=
  apply returns_bind with (P := fun _ => True); [returns_any|intros ? _].

(** *** The recursive search *)

Lemma pvs_returns : forall fuel state rootPlayer toMove alpha beta depth weights deadline isPV,
  validState state toMove ->
  (Z.to_nat depth < fuel)%nat ->
  returns (fun _ => True)
    (pvs clock fuel state rootPlayer toMove alpha beta depth weights deadline isPV).
Proof.
  induction fuel as [|fuel IH];
    intros state rootPlayer toMove alpha beta depth weights deadline isPV Hvalid Hfuel; [lia|].
  cbn [pvs].
  returns_seq. returns_seq.
  destruct (deadline <? _)%float; [returns_any|].
  destruct (winner state); [returns_any|].
  destruct (depth <=? 0) eqn:Ed.
  { destruct (quiescenceSearch_returns quiescenceFuel state rootPlayer toMove alpha beta
                weights 0 Hvalid) as [v Hv]; [unfold quiescenceFuel; lia|].
    now apply returns_liftR with v. }
  apply Z.leb_gt in Ed.
  returns_seq.
  match goal with |- returns _ (match ?e with Some _ => _ | None => _ end) =>
    destruct e; [returns_any|] end.
  pose proof (generated_accepted state (generateRZOPCandidates state) toMove Hvalid) as Hgen.
  destruct (generateTwoStoneMoves state (generateRZOPCandidates state) toMove)
    as [|m0 ms0].
  { cbv zeta. returns_seq. returns_any. }
  cbv zeta.
  match goal with |- returns _ (bind (orderMoves ?mv _ _ _ _ _) _) =>
    assert (Hmoves : Forall (accepted state) mv);
    [destruct (_ <? _); [apply Forall_takeMoves|]; exact Hgen|];
    generalize dependent mv; intros moves Hmoves end.
  apply returns_bind with (P := fun l => Forall (accepted state) l).
  { apply returns_weaken with (2 := returns_orderMoves _ _ rootPlayer toMove weights depth
                                     Hmoves).
    intros l Hperm. now apply Forall_Permutation with (l := moves). }
  intros ordered Hord.
  apply returns_bind with (P := fun _ => True).
  2: { intros res _. destruct (pl_bestMove res); [returns_seq|]; returns_any. }
  match goal with |- returns _ (?F ?o ?f ?b ?m ?a) =>
    assert (Hloop : forall ms, Forall (accepted state) ms ->
                    forall first bs bm la, returns (fun _ => True) (F ms first bs bm la));
    [|apply Hloop; exact Hord] end.
  induction ms as [|move rest IHms]; intros Hms first bs bm la;
    cbv beta iota fix; fold (pvs clock fuel); [returns_any|].
  inversion Hms as [|? ? [next Hnext] Hrest]; subst.
  apply returns_bind with (P := fun n => validState n (switchPlayer toMove)).
  { apply returns_liftR with next; [exact Hnext|].
    now apply validState_next with (s := state) (m := move). }
  intros n Hn.
  assert (Hrec : forall lo hi pv, returns (fun _ => True)
            (pvs clock fuel n rootPlayer (switchPlayer toMove) lo hi (depth - 1) weights
               deadline pv)).
  { intros lo hi pv. apply IH; [exact Hn|lia]. }
  apply returns_bind with (P := fun _ => True).
  { destruct (first || negb isPV).
    - apply returns_bind with (P := fun _ => True); [apply Hrec|intros ? _; returns_any].
    - apply returns_bind with (P := fun _ => True); [apply Hrec|intros r _].
      cbv zeta. destruct (_ && _); [|returns_any].
      apply returns_bind with (P := fun _ => True); [apply Hrec|intros ? _; returns_any]. }
  intros score _. cbv zeta.
  apply returns_bind with (P := fun _ => True).
  { destruct (la <? score)%float; [returns_seq|]; returns_any. }
  intros la' _.
  destruct (beta <=? la')%float; [returns_seq; returns_any|].
  apply IHms. exact Hrest.
Qed.

(** *** The root *)

Section Root.

Variables (rootState : GameState) (rootPlayer : Player) (weights : EvaluationWeights).
Variable good : Move -> Prop.

Hypothesis Hvalid : validState rootState rootPlayer.
Hypothesis Hgood : forall m, good m -> accepted rootState m.

Lemma rootMoveLoop_returns deadline d beta : forall ms first it,
  Forall good ms -> good (ri_bestMove it) ->
  returns (fun it' => good (ri_bestMove it'))
    (rootMoveLoop clock rootState rootPlayer weights deadline d beta ms first it).
Proof.
  induction ms as [|move rest IH]; intros first it Hms Hit; cbn [rootMoveLoop];
    [now apply returns_ret|].
  inversion Hms as [|? ? Hmove Hrest]; subst.
  destruct (Hgood move Hmove) as [next Hnext].
  apply returns_bind with (P := fun n => validState n (switchPlayer rootPlayer)).
  { apply returns_liftR with next; [exact Hnext|].
    now apply validState_next with (s := rootState) (m := move). }
  intros n Hn. cbv zeta.
  assert (Hrec : forall lo hi pv, returns (fun _ => True)
            (pvs clock (pvsFuel (d - 1)) n rootPlayer (switchPlayer rootPlayer) lo hi
               (d - 1) weights deadline pv)).
  { intros lo hi pv. apply pvs_returns; [exact Hn|unfold pvsFuel; lia]. }
  apply returns_bind with (P := fun _ => True).
  { destruct (first || ri_failed it).
    - apply returns_bind with (P := fun _ => True); [apply Hrec|intros ? _; returns_any].
    - apply returns_bind with (P := fun _ => True); [apply Hrec|intros r _].
      cbv zeta. destruct (_ && _); [|returns_any].
      apply returns_bind with (P := fun _ => True); [apply Hrec|intros ? _; returns_any]. }
  intros score _.
  match goal with |- returns _ (bind _ (fun _ => if _ then ret (mkRootIter _ (ri_bestMove ?i) _ _) else _)) =>
    assert (Hit' : good (ri_bestMove i)); [destruct (_ <? _)%float; assumption|];
    generalize dependent i; intros it' Hit' end.
  apply returns_bind with (P := fun _ => True); [returns_any|intros now _].
  destruct (deadline <? now)%float; [now apply returns_ret|].
  now apply IH.
Qed.

Lemma deepeningLoop_returns deadline moveCombos : forall ds cur,
  Forall good moveCombos -> good (dp_bestMove cur) ->
  returns (fun r => good (dp_bestMove r))
    (deepeningLoop clock rootState rootPlayer weights deadline moveCombos ds cur).
Proof.
  intros ds cur Hall. revert cur.
  induction ds as [|d ds IH]; intros cur Hcur; cbn [deepeningLoop];
    [now apply returns_ret|].
  apply returns_bind with (P := fun _ => True); [returns_any|intros now _].
  cbv zeta. destruct (_ <? 100)%float; [now apply returns_ret|].
  destruct (rootWindow d (dp_bestScore cur)) as [alpha beta].
  apply returns_bind with (P := fun l => Forall good l).
  { assert (Hacc : Forall (accepted rootState) moveCombos).
    { apply Forall_forall. intros m Hm.
      exact (Hgood m (proj1 (Forall_forall _ _) Hall m Hm)). }
    apply returns_weaken with (2 := returns_orderMoves _ _ rootPlayer rootPlayer weights d
                                     Hacc).
    intros l Hperm. now apply Forall_Permutation with (l := moveCombos). }
  intros sorted Hsorted.
  apply returns_bind with (P := fun it => good (ri_bestMove it)).
  { apply rootMoveLoop_returns; [exact Hsorted|exact Hcur]. }
  intros it Hit. cbv zeta. apply IH.
  destruct (_ || _); [exact Hit|exact Hcur].
Qed.

End Root.

End Total.

Lemma returns_any_resetKillers : returns (fun _ => True) resetKillers.
Proof. unfold resetKillers. apply returns_any_modify. Qed.

(** With no forced root move on a position of a game in progress,
    [pvsSearchBestMove] returns a decision whatever the clock, the
    configuration and the tables: the fallback move when the generator has
    no pair, and otherwise one of the generated pairs. *)
Lemma pvsSearchBestMove_unforced clock rootState rootPlayer weights config :
  validState rootState rootPlayer ->
  findVcdtRootMove rootState rootPlayer = Ok None ->
  returns
    (fun d =>
       match generateTwoStoneMoves rootState (generateRZOPCandidates rootState) rootPlayer
       with
       | [] => dec_move d = findFallbackTwoStoneMove rootState rootPlayer
       | (_ :: _) as moves => In (dec_move d) moves
       end)
    (pvsSearchBestMove clock rootState rootPlayer weights config).
Proof.
  intros Hvalid Hvcdt. unfold pvsSearchBestMove.
  apply returns_bind with (P := fun _ => True); [apply returns_any_modify|intros _ _].
  apply returns_bind with (P := fun _ => True); [apply returns_any_resetKillers|intros _ _].
  cbv zeta.
  apply returns_bind with (P := fun _ => True);
    [apply returns_any_getCurrentTime|intros t0 _].
  apply returns_bind with (P := fun r => r = None);
    [now apply returns_liftR with None|intros ? ->].
  pose proof (generated_accepted rootState (generateRZOPCandidates rootState) rootPlayer
                Hvalid) as Hgen.
  destruct (generateTwoStoneMoves rootState (generateRZOPCandidates rootState) rootPlayer)
    as [|first rest].
  { apply returns_bind with (P := fun _ => True); [apply returns_any_gets|intros tbl _].
    now apply returns_ret. }
  set (moves := first :: rest) in *.
  apply returns_bind with (P := fun l => incl l moves).
  { destruct (_ <? _).
    - destruct (preselectRootMoves_returns rootState rootPlayer weights moves Hgen)
        as (l & Hl & Hincl).
      now apply returns_liftR with l.
    - apply returns_ret. apply incl_refl. }
  intros moveCombos Hincl. cbv zeta.
  apply returns_bind with (P := fun r => In (dp_bestMove r) moves).
  { apply deepeningLoop_returns with (good := fun m => In m moves).
    - exact Hvalid.
    - intros m Hm. exact (proj1 (Forall_forall _ _) Hgen m Hm).
    - apply Forall_forall. exact Hincl.
    - cbn [dp_bestMove]. destruct moveCombos as [|m0 l]; cbn [nth].
      + now left.
      + apply Hincl. now left. }
  intros res Hres.
  apply returns_bind with (P := fun _ => True); [apply returns_any_modify|intros _ _].
  apply returns_bind with (P := fun _ => True); [apply returns_any_gets|intros nodes _].
  apply returns_bind with (P := fun _ => True); [apply returns_any_gets|intros tbl _].
  apply returns_ret. exact Hres.
Qed.

(** X21: on a position of a game in progress (a 19x19 board, one stone at
    least played, [rootPlayer] to move) for which [findVcdtRootMove] finds
    no forced move, [pvsSearchBestMove] never throws, whatever the clock, the
    configuration and the tables: it returns a decision.  When the generator
    has no pair the move is [findFallbackTwoStoneMove]'s; otherwise it is
    one of the generated pairs, and [applyMoveWithWinner] accepts it. *)
Theorem pvsSearchBestMove_returns clock rootState rootPlayer weights config st :
  wfBoard (board rootState) ->
  currentPlayer rootState = rootPlayer ->
  1 <= moveNumber rootState ->
  findVcdtRootMove rootState rootPlayer = Ok None ->
  exists d st',
    pvsSearchBestMove clock rootState rootPlayer weights config st = (Ok d, st') /\
    match generateTwoStoneMoves rootState (generateRZOPCandidates rootState) rootPlayer
    with
    | [] => dec_move d = findFallbackTwoStoneMove rootState rootPlayer
    | (_ :: _) as moves =>
        In (dec_move d) moves /\
        exists next, applyMoveWithWinner rootState (dec_move d) = Ok next
    end.
Proof.
  intros Hwf Hp Hn Hvcdt.
  assert (Hvalid : validState rootState rootPlayer) by (split; [|split]; assumption).
  destruct (pvsSearchBestMove_unforced clock rootState rootPlayer weights config
              Hvalid Hvcdt st) as (d & st' & Hrun & Hd).
  exists d, st'. split; [exact Hrun|].
  pose proof (generated_accepted rootState (generateRZOPCandidates rootState) rootPlayer
                Hvalid) as Hgen.
  destruct (generateTwoStoneMoves rootState (generateRZOPCandidates rootState) rootPlayer)
    as [|first rest]; [exact Hd|].
  split; [exact Hd|]. exact (proj1 (Forall_forall _ _) Hgen _ Hd).
Qed.

Lemma pvsSearchBestMove_returns_witness :
  exists d st',
    pvsSearchBestMove msClock stateAfterOpening WHITE sampleWeights
      (mkConfig 2 1000 false) initialEngine = (Ok d, st') /\
    exists next, applyMoveWithWinner stateAfterOpening (dec_move d) = Ok next.
Proof.
  assert (Hwf : wfBoard (board stateAfterOpening))
    by (apply wfBoardb_true; vm_compute; reflexivity).
  assert (Hvcdt : findVcdtRootMove stateAfterOpening WHITE = Ok None)
    by (vm_compute; reflexivity).
  assert (Hn : 1 <= moveNumber stateAfterOpening) by (vm_compute; discriminate).
  destruct (pvsSearchBestMove_returns msClock stateAfterOpening WHITE sampleWeights
              (mkConfig 2 1000 false) initialEngine Hwf eq_refl Hn Hvcdt)
    as (d & st' & Hrun & Hd).
  exists d, st'. split; [exact Hrun|].
  destruct (generateTwoStoneMoves stateAfterOpening
              (generateRZOPCandidates stateAfterOpening) WHITE) eqn:E;
    [vm_compute in E; discriminate E|].
  exact (proj2 Hd).
Defined.

(* ===================================================================== *)
(** ** core/mcts_ai_engine.ts: [selectChild] *)
(* ===================================================================== *)

(** What the loop of [selectChild] knows after the children [seen]. *)
Definition selectInvariant (ucb : float) (parentVisits : nat) (seen : list MCTSNode)
  (acc : option MCTSNode * float) : Prop :=
  (forall c, In c seen -> (snd acc <? uctScore ucb parentVisits c)%float = false) /\
  match fst acc with
  | Some best =>
      In best seen /\ uctScore ucb parentVisits best = snd acc /\
      (neg_infinity <? snd acc)%float = true
  | None => snd acc = neg_infinity
  end.

Lemma selectChild_loop ucb parentVisits : forall rest seen acc,
  selectInvariant ucb parentVisits seen acc ->
  selectInvariant ucb parentVisits (seen ++ map snd rest)
    (fold_left
       (fun (acc : option MCTSNode * float) (entry : MoveKey * MCTSNode) =>
          let child := snd entry in
          let score := uctScore ucb parentVisits child in
          if (snd acc <? score)%float then (Some child, score) else acc)
       rest acc).
Proof.
  induction rest as [|[key child] rest IH]; intros seen acc Hinv.
  - cbn [map fold_left]. now rewrite app_nil_r.
  - cbn [map fold_left snd]. cbv zeta.
    replace (seen ++ child :: map snd rest) with ((seen ++ [child]) ++ map snd rest)
      by (now rewrite <- app_assoc).
    apply IH. destruct Hinv as [Hmax Hbest].
    destruct (snd acc <? uctScore ucb parentVisits child)%float eqn:Elt.
    + split; cbn [fst snd].
      * intros c Hc. apply in_app_or in Hc. destruct Hc as [Hc|[<-|[]]].
        -- destruct (uctScore ucb parentVisits child <? uctScore ucb parentVisits c)%float
             eqn:E; [|reflexivity].
           rewrite <- (Hmax c Hc). symmetry.
           exact (float_ltb_trans _ _ _ Elt E).
        -- apply float_ltb_irrefl.
      * split; [apply in_or_app; right; now left|]. split; [reflexivity|].
        destruct (fst acc) as [best|].
        -- exact (float_ltb_trans _ _ _ (proj2 (proj2 Hbest)) Elt).
        -- rewrite <- Hbest. exact Elt.
    + split.
      * intros c Hc. apply in_app_or in Hc. destruct Hc as [Hc|[<-|[]]];
          [now apply Hmax|exact Elt].
      * destruct (fst acc); [|exact Hbest].
        split; [|exact (proj2 Hbest)]. apply in_or_app. left. exact (proj1 Hbest).
Qed.

(** X23: the child [selectChild] returns is one of the children of the node,
    its score [q + u] is above [-Infinity] and no child has a strictly
    greater score; it throws ('No child to select', here [None]) exactly
    when no child has a score above [-Infinity], in particular when the node
    has no children or every score is NaN. *)
Theorem selectChild_maximal (ucb : float) (node : MCTSNode) :
  let score := uctScore ucb (Nat.max 1 (node_visits node)) in
  (forall best, selectChild ucb node = Some best ->
     In best (map snd (node_children node)) /\
     (neg_infinity <? score best)%float = true /\
     forall c, In c (map snd (node_children node)) -> (score best <? score c)%float = false) /\
  (selectChild ucb node = None <->
   forall c, In c (map snd (node_children node)) -> (neg_infinity <? score c)%float = false).
Proof.
  cbv zeta. unfold selectChild. cbv zeta.
  pose proof (selectChild_loop ucb (Nat.max 1 (node_visits node)) (node_children node) []
                (None, neg_infinity)) as H.
  cbn [app] in H.
  destruct H as [Hmax Hbest]; [split; [intros c []|reflexivity]|].
  destruct (fst _) as [best|].
  - destruct Hbest as (Hin & Hscore & Habove). split.
    + intros b [= <-]. split; [exact Hin|]. split; [now rewrite Hscore|].
      intros c Hc. rewrite Hscore. now apply Hmax.
    + split; [discriminate|]. intros Hnone.
      rewrite <- Hscore, (Hnone best Hin) in Habove. discriminate.
  - split; [discriminate|]. split; [|reflexivity].
    intros _ c Hc. rewrite <- Hbest. now apply Hmax.
Qed.

(** A node whose only child has an undefined prior: its score is NaN. *)
Definition nanChild : MCTSNode :=
  mkNode createInitialState WHITE 0 0 nan [] false 0.

Definition nanParent : MCTSNode :=
  mkNode createInitialState BLACK 1 0 1 [((9, 9, 9, 10), nanChild)] true 1.

Lemma selectChild_maximal_witness :
  node_children nanParent <> [] /\ selectChild 1.4 nanParent = None.
Proof.
  split; [discriminate|].
  apply (proj2 (proj2 (selectChild_maximal 1.4 nanParent))).
  intros c [<-|[]]. vm_compute. reflexivity.
Defined.

(* ===================================================================== *)
(** ** pvs_search.ts: [findFallbackTwoStoneMove] *)
(* ===================================================================== *)

Lemma combine_seq_In {A} (l : list A) : forall start i a,
  In (i, a) (combine (seq start (length l)) l) ->
  (start <= i)%nat /\ nth_error l (i - start) = Some a.
Proof.
  induction l as [|x l IH]; intros start i a H; [destruct H|].
  cbn [length seq combine] in H. destruct H as [H|H].
  - injection H as <- <-. split; [lia|]. now rewrite Nat.sub_diag.
  - destruct (IH _ _ _ H) as [Hle Hnth]. split; [lia|].
    replace (i - start)%nat with (S (i - S start)) by lia. exact Hnth.
Qed.

Lemma combine_seq_fst {A} (l : list A) start :
  map fst (combine (seq start (length l)) l) = seq start (length l).
Proof.
  revert start. induction l as [|x l IH]; intros start; [reflexivity|].
  cbn [length seq combine map fst]. now rewrite IH.
Qed.

Lemma NoDup_map_inv_fst {A B} (l : list (A * B)) : NoDup (map fst l) -> NoDup l.
Proof.
  induction l as [|a l IH]; intros H; [constructor|].
  cbn [map] in H. inversion H as [|? ? Hnot Hrest]; subst.
  constructor; [|now apply IH]. intros Hin. apply Hnot. now apply in_map.
Qed.

Lemma NoDup_app_disjoint {A} (l l' : list A) :
  NoDup l -> NoDup l' -> (forall a, In a l -> ~ In a l') -> NoDup (l ++ l').
Proof.
  induction l as [|a l IH]; intros Hl Hl' Hdis; [exact Hl'|].
  inversion Hl as [|? ? Hnot Hrest]; subst. cbn [app]. constructor.
  - intros Hin. apply in_app_or in Hin. destruct Hin as [Hin|Hin]; [now apply Hnot|].
    apply (Hdis a); [now left|exact Hin].
  - apply IH; [exact Hrest|exact Hl'|]. intros b Hb. apply Hdis. now right.
Qed.

Lemma NoDup_flat_map_disjoint {A B} (f : A -> list B) (l : list A) :
  NoDup l ->
  (forall a, In a l -> NoDup (f a)) ->
  (forall a a' b, In a l -> In a' l -> In b (f a) -> In b (f a') -> a = a') ->
  NoDup (flat_map f l).
Proof.
  induction l as [|a l IH]; intros Hl Hf Hdis; [constructor|].
  inversion Hl as [|? ? Hnot Hrest]; subst. cbn [flat_map].
  apply NoDup_app_disjoint.
  - apply Hf. now left.
  - apply IH; [exact Hrest| |].
    + intros a' Ha'. apply Hf. now right.
    + intros a1 a2 b H1 H2. apply Hdis; now right.
  - intros b Hb Hin. apply in_flat_map in Hin. destruct Hin as (a' & Ha' & Hb').
    apply Hnot. rewrite (Hdis a a' b); [exact Ha'|now left|now right|exact Hb|exact Hb'].
Qed.

Lemma NoDup_map_injective_on {A B} (f : A -> B) (l : list A) :
  NoDup l -> (forall a a', In a l -> In a' l -> f a = f a' -> a = a') -> NoDup (map f l).
Proof.
  induction l as [|a l IH]; intros Hl Hinj; [constructor|].
  inversion Hl as [|? ? Hnot Hrest]; subst. cbn [map]. constructor.
  - intros Hin. apply in_map_iff in Hin. destruct Hin as (a' & Heq & Ha').
    apply Hnot. rewrite (Hinj a a'); [exact Ha'|now left|now right|now symmetry].
  - apply IH; [exact Hrest|]. intros a1 a2 H1 H2. apply Hinj; now right.
Qed.

Lemma NoDup_filter_list {A} (f : A -> bool) (l : list A) : NoDup l -> NoDup (filter f l).
Proof.
  induction 1 as [|a l Hnot _ IH]; cbn [filter]; [constructor|].
  destruct (f a); [|exact IH]. constructor; [|exact IH].
  intros Hin. apply filter_In in Hin. now apply Hnot.
Qed.

Lemma NoDup_firstn_list {A} n (l : list A) : NoDup l -> NoDup (firstn n l).
Proof.
  revert n. induction l as [|a l IH]; intros [|n] H; cbn [firstn]; try constructor.
  - inversion H as [|? ? Hnot _]; subst. intros Hin. apply Hnot.
    now apply In_firstn in Hin.
  - inversion H; subst. now apply IH.
Qed.

(** The cells the two loops visit are the cells of the board. *)
Lemma boardCells_In b p c :
  In (p, c) (boardCells b) <->
  0 <= pos_x p /\ 0 <= pos_y p /\ cellAt b (pos_x p) (pos_y p) = Some c.
Proof.
  unfold boardCells. rewrite in_flat_map. split.
  - intros ([y row] & Hrow & Hin). cbn [fst snd] in Hin.
    apply in_map_iff in Hin. destruct Hin as ([x c'] & Heq & Hx).
    cbn [fst snd] in Heq. injection Heq as <- <-. cbn [pos_x pos_y].
    destruct (combine_seq_In _ _ _ _ Hrow) as [_ Hy].
    destruct (combine_seq_In _ _ _ _ Hx) as [_ Hx'].
    rewrite Nat.sub_0_r in Hy, Hx'.
    split; [lia|]. split; [lia|]. unfold cellAt.
    replace (Z.of_nat x <? 0) with false by (symmetry; apply Z.ltb_ge; lia).
    replace (Z.of_nat y <? 0) with false by (symmetry; apply Z.ltb_ge; lia).
    cbn [orb]. now rewrite !Nat2Z.id, Hy.
  - intros (Hx & Hy & Hcell). unfold cellAt in Hcell.
    replace (pos_x p <? 0) with false in Hcell by (symmetry; apply Z.ltb_ge; lia).
    replace (pos_y p <? 0) with false in Hcell by (symmetry; apply Z.ltb_ge; lia).
    cbn [orb] in Hcell.
    destruct (nth_error b (Z.to_nat (pos_y p))) as [row|] eqn:Erow; [|discriminate].
    exists (Z.to_nat (pos_y p), row). split.
    + exact (combine_seq_nth_error b 0 _ _ Erow).
    + cbn [fst snd]. apply in_map_iff. exists (Z.to_nat (pos_x p), c). split.
      * cbn [fst snd]. rewrite !Z2Nat.id by lia. now destruct p.
      * exact (combine_seq_nth_error row 0 _ _ Hcell).
Qed.

Lemma boardCells_NoDup b : NoDup (map fst (boardCells b)).
Proof.
  apply NoDup_map_injective_on.
  - unfold boardCells. apply NoDup_flat_map_disjoint.
    + apply NoDup_map_inv_fst. rewrite combine_seq_fst. apply seq_NoDup.
    + intros [y row] _. cbn [fst snd]. apply NoDup_map_injective_on.
      * apply NoDup_map_inv_fst. rewrite combine_seq_fst. apply seq_NoDup.
      * intros [x c] [x' c'] _ _ Heq. cbn [fst snd] in Heq.
        injection Heq as Hx Hc. apply Nat2Z.inj in Hx. now subst.
    + intros [y row] [y' row'] [p c] Hrow Hrow' Hin Hin'. cbn [fst snd] in Hin, Hin'.
      apply in_map_iff in Hin, Hin'.
      destruct Hin as ([x1 c1] & Heq1 & _), Hin' as ([x2 c2] & Heq2 & _).
      cbn [fst snd] in Heq1, Heq2. injection Heq1 as <- _. injection Heq2 as _ Hy _.
      apply Nat2Z.inj in Hy. subst y'.
      destruct (combine_seq_In _ _ _ _ Hrow) as [_ H1].
      destruct (combine_seq_In _ _ _ _ Hrow') as [_ H2].
      rewrite H1 in H2. now injection H2 as <-.
  - intros [p c] [p' c'] Hin Hin' Heq. cbn [fst] in Heq. subst p'.
    apply boardCells_In in Hin, Hin'.
    destruct Hin as (_ & _ & H1), Hin' as (_ & _ & H2). rewrite H1 in H2.
    now injection H2 as <-.
Qed.

(** The empty cells in scan order. *)
Definition emptyCells (b : Board) : list Position :=
  map fst (filter (fun pc => cell_eqb (snd pc) Empty) (boardCells b)).

Lemma emptyCells_In b p :
  In p (emptyCells b) <-> 0 <= pos_x p /\ 0 <= pos_y p /\ emptyAt b p.
Proof.
  unfold emptyCells, emptyAt. rewrite in_map_iff. split.
  - intros ([p' c] & <- & Hin). apply filter_In in Hin. destruct Hin as [Hin Hc].
    cbn [fst snd] in *. destruct c; try discriminate. now apply boardCells_In.
  - intros H. exists (p, Empty). split; [reflexivity|]. apply filter_In.
    split; [now apply boardCells_In|reflexivity].
Qed.

Lemma emptyCells_NoDup b : NoDup (emptyCells b).
Proof.
  unfold emptyCells. apply NoDup_map_injective_on.
  - apply NoDup_filter_list, NoDup_map_inv_fst, boardCells_NoDup.
  - intros [p c] [p' c'] Hin Hin' Heq. cbn [fst] in Heq. subst p'.
    apply filter_In in Hin, Hin'. destruct Hin as [_ Hc], Hin' as [_ Hc'].
    cbn [snd] in Hc, Hc'. destruct c, c'; try discriminate; reflexivity.
Qed.

Lemma firstn_short_all {A} n (l : list A) :
  (length (firstn n l) < n)%nat -> firstn n l = l.
Proof.
  intros H. apply firstn_all2. rewrite length_firstn in H. lia.
Qed.

(** What the scan of [findFallbackTwoStoneMove] collects. *)
Lemma fallback_positions (state : GameState) (p : Player) :
  positions (findFallbackTwoStoneMove state p) = firstn 2 (emptyCells (board state)) /\
  player (findFallbackTwoStoneMove state p) = p.
Proof. split; reflexivity. Qed.

Lemma fallback_short_lists_all (state : GameState) (p : Player) (q : Position) :
  (length (positions (findFallbackTwoStoneMove state p)) < 2)%nat ->
  0 <= pos_x q -> 0 <= pos_y q -> emptyAt (board state) q ->
  In q (positions (findFallbackTwoStoneMove state p)).
Proof.
  rewrite (proj1 (fallback_positions state p)). intros Hshort Hx Hy Hq.
  rewrite (firstn_short_all _ _ Hshort). apply emptyCells_In. auto.
Qed.

Lemma fallback_cells_empty (state : GameState) (p : Player) :
  Forall (fun q => 0 <= pos_x q /\ 0 <= pos_y q /\ emptyAt (board state) q)
    (positions (findFallbackTwoStoneMove state p)).
Proof.
  rewrite (proj1 (fallback_positions state p)).
  apply Forall_forall. intros q Hq. apply In_firstn in Hq. now apply emptyCells_In.
Qed.

(** X24: [findFallbackTwoStoneMove] returns a move of the given player with
    at most two positions, all distinct, each an empty cell of the board;
    it has fewer than two only when it lists every empty cell of the
    board. *)
Theorem findFallbackTwoStoneMove_cells (state : GameState) (p : Player) :
  let mv := findFallbackTwoStoneMove state p in
  player mv = p /\
  (length (positions mv) <= 2)%nat /\
  NoDup (positions mv) /\
  Forall (fun q => 0 <= pos_x q /\ 0 <= pos_y q /\ emptyAt (board state) q)
    (positions mv) /\
  ((length (positions mv) < 2)%nat ->
   forall q, 0 <= pos_x q -> 0 <= pos_y q -> emptyAt (board state) q ->
             In q (positions mv)).
Proof.
  cbv zeta. split; [reflexivity|].
  split; [rewrite (proj1 (fallback_positions state p)); apply firstn_le_length|].
  split; [rewrite (proj1 (fallback_positions state p));
          apply NoDup_firstn_list, emptyCells_NoDup|].
  split; [apply fallback_cells_empty|].
  intros Hshort q. now apply fallback_short_lists_all.
Qed.

Lemma NoDup_two_length {A} (l : list A) (a b : A) :
  a <> b -> In a l -> In b l -> (2 <= length l)%nat.
Proof.
  intros Hab Ha Hb. destruct l as [|x [|y l]]; cbn [length]; [destruct Ha| |lia].
  destruct Ha as [<-|[]], Hb as [<-|[]]. now elim Hab.
Qed.

(** X25: in a game in progress with [p] to move and at least two empty
    cells on the board, [applyMoveWithWinner] accepts the move of
    [findFallbackTwoStoneMove], which has two stones. *)
Theorem findFallbackTwoStoneMove_accepted (state : GameState) (p : Player)
  (q1 q2 : Position) :
  wfBoard (board state) ->
  currentPlayer state = p ->
  1 <= moveNumber state ->
  q1 <> q2 ->
  0 <= pos_x q1 -> 0 <= pos_y q1 -> emptyAt (board state) q1 ->
  0 <= pos_x q2 -> 0 <= pos_y q2 -> emptyAt (board state) q2 ->
  length (positions (findFallbackTwoStoneMove state p)) = 2%nat /\
  exists next, applyMoveWithWinner state (findFallbackTwoStoneMove state p) = Ok next.
Proof.
  intros Hwf Hp Hn Hne Hx1 Hy1 He1 Hx2 Hy2 He2.
  pose proof (proj2 (fallback_positions state p)) as Hpl.
  pose proof (fallback_cells_empty state p) as Hall.
  assert (Hle : (length (positions (findFallbackTwoStoneMove state p)) <= 2)%nat)
    by (rewrite (proj1 (fallback_positions state p)); apply firstn_le_length).
  assert (Hlen : length (positions (findFallbackTwoStoneMove state p)) = 2%nat).
  { destruct (Nat.lt_ge_cases (length (positions (findFallbackTwoStoneMove state p))) 2)
      as [Hlt|Hge]; [|lia].
    pose proof (NoDup_two_length _ q1 q2 Hne
                  (fallback_short_lists_all state p q1 Hlt Hx1 Hy1 He1)
                  (fallback_short_lists_all state p q2 Hlt Hx2 Hy2 He2)). lia. }
  split; [exact Hlen|]. apply applyMoveWithWinner_Ok_iff. split; [|split].
  - now rewrite Hpl.
  - rewrite Hlen. unfold getStonesToPlace.
    replace (moveNumber state =? 0) with false by (symmetry; apply Z.eqb_neq; lia).
    reflexivity.
  - apply Forall_forall. intros q Hq.
    destruct (proj1 (Forall_forall _ _) Hall q Hq) as (_ & _ & He).
    split; [|exact He].
    exact (cellAt_Some_inBoard _ _ _ _ Hwf He).
Qed.

Lemma findFallbackTwoStoneMove_accepted_witness :
  positions (findFallbackTwoStoneMove stateAfterOpening WHITE) = [mkPos 0 0; mkPos 1 0] /\
  exists next,
    applyMoveWithWinner stateAfterOpening (findFallbackTwoStoneMove stateAfterOpening WHITE)
    = Ok next.
Proof.
  split; [vm_compute; reflexivity|].
  refine (proj2 (findFallbackTwoStoneMove_accepted stateAfterOpening WHITE
                   (mkPos 0 0) (mkPos 1 0) _ eq_refl _ _ _ _ _ _ _ _)).
  - apply wfBoardb_true. vm_compute. reflexivity.
  - vm_compute. discriminate.
  - discriminate.
  - vm_compute. discriminate.
  - vm_compute. discriminate.
  - vm_compute. reflexivity.
  - vm_compute. discriminate.
  - vm_compute. discriminate.
  - vm_compute. reflexivity.
Defined.

(* ===================================================================== *)
(** ** pvs_search.ts: [hashState] *)
(* ===================================================================== *)

(** The characters of a string. *)
Fixpoint chars (s : string) : list ascii :=
  match s with
  | EmptyString => []
  | String c s' => c :: chars s'
  end.

Lemma chars_append s t : chars (s ++ t) = chars s ++ chars t.
Proof. induction s as [|c s IH]; cbn [String.append chars app]; [|rewrite IH]; reflexivity. Qed.

(** Splitting at the first separator is unambiguous. *)
Lemma append_sep_inj (sep : ascii) : forall a a' b b',
  ~ In sep (chars a) -> ~ In sep (chars a') ->
  (a ++ String sep b = a' ++ String sep b')%string -> a = a' /\ b = b'.
Proof.
  induction a as [|c a IH]; intros [|c' a'] b b' Ha Ha' H; cbn [String.append chars] in *.
  - now injection H as <-.
  - injection H as <- _. elim Ha'. now left.
  - injection H as -> _. elim Ha. now left.
  - injection H as <- H. destruct (IH a' b b') as [<- <-]; [| |exact H|now split].
    + intros Hin. apply Ha. now right.
    + intros Hin. apply Ha'. now right.
Qed.

Lemma concat_sep_inj (sep : ascii) : forall l l' : list string,
  length l = length l' ->
  Forall (fun s => ~ In sep (chars s)) l -> Forall (fun s => ~ In sep (chars s)) l' ->
  String.concat (String sep EmptyString) l = String.concat (String sep EmptyString) l' ->
  l = l'.
Proof.
  induction l as [|x l IH]; intros [|x' l'] Hlen Hl Hl' H; try discriminate; [reflexivity|].
  inversion Hl as [|? ? Hx Hrest]; inversion Hl' as [|? ? Hx' Hrest']; subst.
  destruct l as [|y l], l' as [|y' l']; try discriminate.
  - cbn [String.concat] in H. now subst.
  - change ((x ++ String sep (String.concat (String sep EmptyString) (y :: l)))%string
            = (x' ++ String sep (String.concat (String sep EmptyString) (y' :: l')))%string)
      in H.
    destruct (append_sep_inj sep _ _ _ _ Hx Hx' H) as [<- Htail].
    f_equal. apply IH; [cbn [length] in *; lia|exact Hrest|exact Hrest'|exact Htail].
Qed.

Definition digitChar (c : Cell) : ascii :=
  match c with Empty => "0" | Black => "1" | White => "2" end%char.

(** [row.join('')] of a row of cells. *)
Lemma rowString_chars (row : list Cell) :
  chars (String.concat "" (map cellDigit row)) = map digitChar row.
Proof.
  induction row as [|c [|c' row] IH]; [reflexivity|now destruct c|].
  change (chars (cellDigit c ++ String.concat "" (map cellDigit (c' :: row)))
          = digitChar c :: map digitChar (c' :: row)).
  rewrite chars_append, IH. now destruct c.
Qed.

Lemma chars_inj s t : chars s = chars t -> s = t.
Proof.
  revert t. induction s as [|c s IH]; intros [|c' t] H; try discriminate; [reflexivity|].
  cbn [chars] in H. injection H as <- H. f_equal. now apply IH.
Qed.

Lemma digitChar_inj : forall row row', map digitChar row = map digitChar row' -> row = row'.
Proof.
  induction row as [|c row IH]; intros [|c' row'] H; try discriminate; [reflexivity|].
  cbn [map] in H. injection H as Hc H. f_equal; [|now apply IH].
  destruct c, c'; try discriminate; reflexivity.
Qed.

Lemma rowString_no_char (ch : ascii) (row : list Cell) :
  ch <> "0"%char -> ch <> "1"%char -> ch <> "2"%char ->
  ~ In ch (chars (String.concat "" (map cellDigit row))).
Proof.
  intros H0 H1 H2. rewrite rowString_chars. intros Hin.
  apply in_map_iff in Hin. destruct Hin as ([| |] & Hc & _); cbn [digitChar] in Hc;
    congruence.
Qed.

Lemma boardString_no_underscore (rows : list string) :
  Forall (fun s => ~ In "_"%char (chars s)) rows ->
  ~ In "_"%char (chars (String.concat "|" rows)).
Proof.
  induction rows as [|x [|y rows] IH]; intros Hall; [intros []|now inversion Hall|].
  inversion Hall as [|? ? Hx Hrest]; subst.
  change (~ In "_"%char (chars (x ++ String "|" (String.concat "|" (y :: rows))))).
  rewrite chars_append. intros Hin. apply in_app_or in Hin.
  destruct Hin as [Hin|[Hin|Hin]]; [now apply Hx|discriminate Hin|now apply IH].
Qed.

Lemma numString_inj z z' : numString z = numString z' -> z = z'.
Proof.
  unfold numString. intros H. apply DecimalZ.to_int_inj.
  assert (Hnz : forall n, Z.to_int n <> Decimal.Pos Decimal.Nil /\
                          Z.to_int n <> Decimal.Neg Decimal.Nil).
  { intros [|p|p]; cbn [Z.to_int]; split; try discriminate;
      intros Heq; injection Heq as Heq; exact (DecimalPos.Unsigned.to_uint_nonnil p Heq). }
  pose proof (NilZero.isi _ (proj1 (Hnz z)) (proj2 (Hnz z))) as H1.
  pose proof (NilZero.isi _ (proj1 (Hnz z')) (proj2 (Hnz z'))) as H2.
  rewrite H in H1. rewrite H1 in H2. now injection H2.
Qed.

(** X26: [hashState] tells positions apart: two states over 19x19 boards
    with the same hash have the same board, the same player to move and the
    same move number, so an entry of the transposition table is only ever
    read back for such a state. *)
Theorem hashState_injective (s1 s2 : GameState) :
  wfBoard (board s1) -> wfBoard (board s2) ->
  hashState s1 = hashState s2 ->
  board s1 = board s2 /\ currentPlayer s1 = currentPlayer s2 /\
  moveNumber s1 = moveNumber s2.
Proof.
  intros [Hl1 _] [Hl2 _] H. unfold hashState in H. cbv zeta in H.
  set (rowString := fun row : list Cell => String.concat "" (map cellDigit row)) in H.
  assert (Hrows : forall b, Forall (fun s => ~ In "_"%char (chars s)) (map rowString b)).
  { intros b. apply Forall_forall. intros s Hs. apply in_map_iff in Hs.
    destruct Hs as (row & <- & _). apply rowString_no_char; discriminate. }
  assert (Hbars : forall b, Forall (fun s => ~ In "|"%char (chars s)) (map rowString b)).
  { intros b. apply Forall_forall. intros s Hs. apply in_map_iff in Hs.
    destruct Hs as (row & <- & _). apply rowString_no_char; discriminate. }
  change (("_" ++ playerString (currentPlayer s1) ++ "_" ++ numString (moveNumber s1))%string)
    with (String "_" (playerString (currentPlayer s1) ++ "_" ++ numString (moveNumber s1)))
    in H.
  change (("_" ++ playerString (currentPlayer s2) ++ "_" ++ numString (moveNumber s2))%string)
    with (String "_" (playerString (currentPlayer s2) ++ "_" ++ numString (moveNumber s2)))
    in H.
  destruct (append_sep_inj "_" _ _ _ _
              (boardString_no_underscore _ (Hrows (board s1)))
              (boardString_no_underscore _ (Hrows (board s2))) H) as [Hboard Htail].
  split; [|].
  - apply concat_sep_inj in Hboard;
      [|rewrite !length_map; congruence|apply Hbars|apply Hbars].
    clear - Hboard. revert Hboard. generalize (board s1), (board s2).
    intros l. induction l as [|row l IH]; intros [|row' l'] Heq; try discriminate;
      [reflexivity|].
    cbn [map] in Heq. injection Heq as Hrow Hrest. f_equal; [|now apply IH].
    apply digitChar_inj. rewrite <- !rowString_chars. unfold rowString in Hrow.
    now rewrite Hrow.
  - clear - Htail.
    destruct (currentPlayer s1), (currentPlayer s2); cbn in Htail; try discriminate;
      (split; [reflexivity|]); injection Htail as Htail; now apply numString_inj.
Qed.

(** The position after the opening stone, reached without a recorded last
    move. *)
Definition stateAfterOpeningNoHistory : GameState :=
  {| board := setCell createEmptyBoard 9 9 Black;
     currentPlayer := WHITE;
     moveNumber := 1;
     lastMove := None;
     winner := None |}.

Lemma hashState_injective_witness :
  hashState stateAfterOpening = hashState stateAfterOpeningNoHistory /\
  board stateAfterOpening = board stateAfterOpeningNoHistory /\
  currentPlayer stateAfterOpening = currentPlayer stateAfterOpeningNoHistory /\
  moveNumber stateAfterOpening = moveNumber stateAfterOpeningNoHistory.
Proof.
  assert (Hwf : wfBoard (board stateAfterOpening))
    by (apply wfBoardb_true; vm_compute; reflexivity).
  assert (Hhash : hashState stateAfterOpening = hashState stateAfterOpeningNoHistory)
    by reflexivity.
  split; [exact Hhash|].
  exact (hashState_injective stateAfterOpening stateAfterOpeningNoHistory Hwf Hwf Hhash).
Defined.

(* ===================================================================== *)
(** ** strategy/position_complexity.ts: [estimateComplexity] *)
(* ===================================================================== *)

Definition complexityInRange (stones mixedRoads : nat) : bool :=
  let c := complexityOf (Z.of_nat stones) 361 (Z.of_nat mixedRoads) 924 in
  (0 <=? c)%float && (c <=? 1)%float.

Lemma complexityOf_range_all :
  forallb (fun stones => forallb (complexityInRange stones) (seq 0 925)) (seq 0 362) = true.
Proof. vm_compute. reflexivity. Qed.

Lemma complexityOf_range (stones mixedRoads : nat) :
  (stones <= 361)%nat -> (mixedRoads <= 924)%nat ->
  complexityInRange stones mixedRoads = true.
Proof.
  intros Hs Hm.
  assert (Hs' : In stones (seq 0 362)) by (apply in_seq; lia).
  assert (Hm' : In mixedRoads (seq 0 925)) by (apply in_seq; lia).
  pose proof (proj1 (forallb_forall _ _) complexityOf_range_all stones Hs') as H.
  cbv beta in H.
  exact (proj1 (forallb_forall _ _) H mixedRoads Hm').
Qed.

Lemma stones_count_le (f : Cell -> bool) (b : Board) (w : nat) :
  Forall (fun row => length row = w) b ->
  (length (flat_map (filter f) b) <= length b * w)%nat.
Proof.
  induction 1 as [|row b Hrow _ IH]; cbn [flat_map length]; [lia|].
  rewrite length_app. pose proof (filter_length_le f row). lia.
Qed.

Lemma getAllRoads_length : length getAllRoads = 924%nat.
Proof. vm_compute. reflexivity. Qed.

(** X27: on a 19x19 board [estimateComplexity] is a number between 0 and 1
    (never NaN). *)
Theorem estimateComplexity_range (state : GameState) :
  wfBoard (board state) ->
  (0 <=? estimateComplexity state)%float = true /\
  (estimateComplexity state <=? 1)%float = true.
Proof.
  intros [Hlen Hrows]. unfold estimateComplexity. cbv zeta.
  rewrite getAllRoads_length, Hlen.
  pose proof (stones_count_le (fun c => negb (cell_eqb c Empty)) (board state) _ Hrows)
    as Hstones.
  rewrite Hlen in Hstones.
  pose proof (filter_length_le
                (fun road =>
                   existsb (fun v => cellIs v Black) (roadValues state road) &&
                   existsb (fun v => cellIs v White) (roadValues state road))
                getAllRoads) as Hmixed.
  rewrite getAllRoads_length in Hmixed.
  revert Hstones Hmixed.
  generalize (length (flat_map (filter (fun c => negb (cell_eqb c Empty))) (board state))).
  generalize (length
                (filter
                   (fun road =>
                      existsb (fun v => cellIs v Black) (roadValues state road) &&
                      existsb (fun v => cellIs v White) (roadValues state road))
                   getAllRoads)).
  intros mixedRoads stones Hstones Hmixed.
  change (Z.to_nat BOARD_SIZE) with 19%nat in *.
  change (Z.of_nat 19 * Z.of_nat 19) with 361.
  change (Z.of_nat 924) with 924.
  apply andb_true_iff. apply (complexityOf_range stones mixedRoads); lia.
Qed.

Lemma estimateComplexity_range_witness :
  (0 <=? estimateComplexity stateAfterOpening)%float = true /\
  (estimateComplexity stateAfterOpening <=? 1)%float = true.
Proof.
  apply estimateComplexity_range. apply wfBoardb_true. vm_compute. reflexivity.
Defined.

(* ===================================================================== *)
(** ** pvs_search.ts: the aspiration window of the deepening loop *)
(* ===================================================================== *)





(* ===================================================================== *)
(** ** pvs_search.ts: the single-point mate at the root *)
(* ===================================================================== *)









(* ===================================================================== *)
(** ** pvs_search.ts: what one search leaves to the next *)
(* ===================================================================== *)









